(** * Git provider detection, remote-URL parsing, registry and the Gitea adapter

    A shallow embedding of [providers/index.ts] (detectProvider,
    parseRemoteUrl, initRegistry, getProvider) and of [providers/gitea.ts]
    (GiteaProvider.viewPR / viewIssue and their REST fall-backs).

    Strings are sequences of UTF-16 code units.  The development covers the
    code units 0..255 (one [ascii] per code unit, read as Latin-1), on which
    [trim], [toLowerCase], [\s] and [.] are written out exactly. *)

From Stdlib Require Import List Ascii String Bool Arith ZArith QArith Lia.
Import ListNotations.
Close Scope Q_scope.
Open Scope nat_scope.

(* ================================================================== *)
(** ** Strings *)

Module Str.

Definition str := list ascii.

(** String literals of the source are written [L "..."]. *)
Definition L (s : string) : str := list_ascii_of_string s.

(** WhiteSpace and LineTerminator code units below 256: TAB, LF, VT, FF, CR,
    SP and NBSP.  [String.prototype.trim] and the class [\s] use this set. *)
Definition isWhiteSpace (c : ascii) : bool :=
  let n := nat_of_ascii c in
  ((9 <=? n) && (n <=? 13)) || (n =? 32) || (n =? 160).

(** LineTerminator code units below 256 (LF, CR): what [.] refuses. *)
Definition isLineTerminator (c : ascii) : bool :=
  let n := nat_of_ascii c in (n =? 10) || (n =? 13).

Fixpoint trimStart (s : str) : str :=
  match s with
  | c :: s' => if isWhiteSpace c then trimStart s' else s
  | [] => []
  end.

Definition trimEnd (s : str) : str := rev (trimStart (rev s)).

Definition trim (s : str) : str := trimEnd (trimStart s).

(** [toLowerCase] on one code unit: A-Z and the Latin-1 capitals
    (U+00C0..U+00DE without the multiplication sign U+00D7). *)
Definition lowerUnit (c : ascii) : ascii :=
  let n := nat_of_ascii c in
  if ((65 <=? n) && (n <=? 90))
     || ((192 <=? n) && (n <=? 222) && negb (n =? 215))
  then ascii_of_nat (n + 32) else c.

Definition toLowerCase (s : str) : str := map lowerUnit s.

(** Canonicalize of a case-insensitive pattern match: the upper-case
    code unit.  U+00B5, U+00DF and U+00FF keep their own code unit: their
    upper-case forms lie outside 0..255 (or are two units long), and no other
    unit below 256 shares them. *)
Definition canonicalize (c : ascii) : ascii :=
  let n := nat_of_ascii c in
  if ((97 <=? n) && (n <=? 122))
     || ((224 <=? n) && (n <=? 254) && negb (n =? 247))
  then ascii_of_nat (n - 32) else c.

Fixpoint startsWith (s pat : str) {struct pat} : bool :=
  match pat, s with
  | [], _ => true
  | p :: pat', c :: s' => Ascii.eqb c p && startsWith s' pat'
  | _ :: _, [] => false
  end.

(** [s.includes(pat)] *)
Fixpoint includes (s pat : str) : bool :=
  startsWith s pat ||
  match s with
  | [] => false
  | _ :: s' => includes s' pat
  end.

(** [/pat/i.test(s)] for a pattern made of literal characters only. *)
Definition testIgnoreCase (pat s : str) : bool :=
  includes (map canonicalize s) (map canonicalize pat).

Definition endsWith (s suffix : str) : bool :=
  startsWith (rev s) (rev suffix).

(** The part of [s] after its last slash (all of [s] when it has none). *)
Fixpoint lastSegment (s : str) : str :=
  match s with
  | [] => []
  | c :: s' =>
      if existsb (Ascii.eqb "/"%char) s' then lastSegment s'
      else if Ascii.eqb c "/"%char then s' else s
  end.

(** All code units of the model. *)
Definition allUnits : list ascii := map ascii_of_nat (seq 0 256).

(** [p] is a character that a lower-cased text matches with or without the
    i flag alike. *)
Definition caseless (p : ascii) : bool :=
  forallb (fun c => Bool.eqb (Ascii.eqb (canonicalize (lowerUnit c)) (canonicalize p))
                             (Ascii.eqb (lowerUnit c) p)) allUnits.

(** [seg] without one trailing [.git], unless nothing would be left. *)
Definition stripGit (seg : str) : str :=
  if endsWith seg (L ".git") && (4 <? List.length seg)
  then firstn (List.length seg - 4) seg else seg.

End Str.
Import Str.

(* ================================================================== *)
(** ** Regular expressions: the backtracking matcher of [String.prototype.match]

    The fragment the five patterns of [parseRemoteUrl] are written in:
    literals, [r?], a character class under greedy [+] or lazy [+?],
    numbered capture groups, concatenation and [$].  The matcher is the
    continuation-passing one of the language definition: a quantifier tries
    its alternatives in priority order and the first overall success wins. *)

Module Regex.

Inductive regex : Type :=
| Lit (l : str)                      (* literal characters *)
| Opt (r : regex)                    (* r?   greedy *)
| Plus (p : ascii -> bool)           (* [p]+  greedy *)
| PlusLazy (p : ascii -> bool)       (* [p]+? lazy *)
| Group (i : nat) (r : regex)        (* i-th capturing group *)
| Seq (r1 r2 : regex)
| Eos.                               (* $ (no m flag) *)

(** Captures: group number to captured text. *)
Definition caps := nat -> str.

Definition noCaps : caps := fun _ => [].

Definition setCap (i : nat) (v : str) (cs : caps) : caps :=
  fun j => if Nat.eqb j i then v else cs j.

Definition cont := str -> caps -> option caps.

(** What was read between input [s] and its suffix [s']. *)
Definition consumed (s s' : str) : str :=
  firstn (List.length s - List.length s') s.

Fixpoint matchLit (l : str) (k : cont) (s : str) (cs : caps) : option caps :=
  match l with
  | [] => k s cs
  | c :: l' =>
      match s with
      | x :: s' => if Ascii.eqb x c then matchLit l' k s' cs else None
      | [] => None
      end
  end.

(** [p]* greedy: one more character first, the continuation second. *)
Fixpoint starGreedy (p : ascii -> bool) (k : cont) (s : str) (cs : caps)
  : option caps :=
  match s with
  | c :: s' =>
      if p c then
        match starGreedy p k s' cs with
        | Some r => Some r
        | None => k s cs
        end
      else k s cs
  | [] => k s cs
  end.

(** [p]*? lazy: the continuation first, one more character second. *)
Fixpoint starLazy (p : ascii -> bool) (k : cont) (s : str) (cs : caps)
  : option caps :=
  match k s cs with
  | Some r => Some r
  | None =>
      match s with
      | c :: s' => if p c then starLazy p k s' cs else None
      | [] => None
      end
  end.

Definition plus (star : (ascii -> bool) -> cont -> cont)
           (p : ascii -> bool) (k : cont) (s : str) (cs : caps) : option caps :=
  match s with
  | c :: s' => if p c then star p k s' cs else None
  | [] => None
  end.

Fixpoint m (r : regex) (k : cont) (s : str) (cs : caps) : option caps :=
  match r with
  | Lit l => matchLit l k s cs
  | Opt r1 =>
      match m r1 k s cs with
      | Some res => Some res
      | None => k s cs
      end
  | Plus p => plus starGreedy p k s cs
  | PlusLazy p => plus starLazy p k s cs
  | Group i r1 => m r1 (fun s' cs' => k s' (setCap i (consumed s s') cs')) s cs
  | Seq r1 r2 => m r1 (m r2 k) s cs
  | Eos => match s with [] => k s cs | _ :: _ => None end
  end.

Definition accept : cont := fun _ cs => Some cs.

(** [s.match(r)] for a pattern without the g flag: the first start position,
    from the left, at which the pattern matches. *)
Fixpoint matchRe (r : regex) (s : str) : option caps :=
  match m r accept s noCaps with
  | Some cs => Some cs
  | None =>
      match s with
      | _ :: s' => matchRe r s'
      | [] => None
      end
  end.

Fixpoint cat (rs : list regex) : regex :=
  match rs with
  | [] => Lit []
  | [r] => r
  | r :: rs' => Seq r (cat rs')
  end.

(** Character classes of the patterns. *)
Definition notSlash (c : ascii) : bool := negb (Ascii.eqb c "/"%char).       (* [^/] *)
Definition notColon (c : ascii) : bool := negb (Ascii.eqb c ":"%char).       (* [^:] *)
Definition notSlashWs (c : ascii) : bool :=                                  (* [^/\s] *)
  negb (Ascii.eqb c "/"%char) && negb (isWhiteSpace c).
Definition dot (c : ascii) : bool := negb (isLineTerminator c).              (* . *)

(** Where a greedy loop over [p] has to stop: at the end of the input or
    in front of a character outside [p]. *)
Definition stops (p : ascii -> bool) (s : str) : Prop :=
  match s with
  | [] => True
  | c :: _ => p c = false
  end.

End Regex.
Import Regex.

(* ================================================================== *)
(** ** providers/index.ts: detection and parsing *)

Inductive ProviderName : Type :=
| github | gitlab | bitbucket | azure_devops | gitea | forgejo | unknown.

Record RemoteUrlInfo : Type := {
  provider : ProviderName;
  host : str;
  owner : str;
  repo : str
}.

Definition detectProvider (remoteUrl : str) : ProviderName :=
  let url := toLowerCase remoteUrl in
  if includes url (L "dev.azure.com") || includes url (L "ssh.dev.azure.com")
     || includes url (L "visualstudio.com")
  then azure_devops
  else if includes url (L "github.com") then github
  else if includes url (L "gitlab.com") then gitlab
  else if includes url (L "bitbucket.org") then bitbucket
  else if testIgnoreCase (L "gitlab") url then gitlab
  else if testIgnoreCase (L "gitea") url then gitea
  else if testIgnoreCase (L "forgejo") url then forgejo
  else unknown.

(** The hostnames and keywords [detectProvider] looks for, in its order. *)
Definition markers : list str :=
  [L "dev.azure.com"; L "ssh.dev.azure.com"; L "visualstudio.com";
   L "github.com"; L "gitlab.com"; L "bitbucket.org";
   L "gitlab"; L "gitea"; L "forgejo"].

(** Whether one of them occurs somewhere in [url]. *)
Definition markerIn (url : str) : bool := existsb (includes url) markers.

(** Whether [marker] occurs somewhere in the lower-cased [url]. *)
Definition occurs (url marker : str) : bool := includes (toLowerCase url) marker.

(** Whether one of the three Azure DevOps hostnames does. *)
Definition azureMarked (url : str) : bool :=
  occurs url (L "dev.azure.com") || occurs url (L "ssh.dev.azure.com")
  || occurs url (L "visualstudio.com").

(** The common end of the five patterns: [([^/\s]+?)(?:\.git)?$] *)
Definition repoTail : list regex :=
  [Group 3 (PlusLazy notSlashWs); Opt (Lit (L ".git")); Eos].

(** [/https?:\/\/dev\.azure\.com\/([^/]+)\/([^/]+)\/_git\/([^/\s]+?)(?:\.git)?$/] *)
Definition azureHttpsRe : regex :=
  cat ([Lit (L "http"); Opt (Lit (L "s")); Lit (L "://dev.azure.com/");
        Group 1 (Plus notSlash); Lit (L "/"); Group 2 (Plus notSlash);
        Lit (L "/_git/")] ++ repoTail).

(** [/git@ssh\.dev\.azure\.com:v3\/([^/]+)\/([^/]+)\/([^/\s]+?)(?:\.git)?$/] *)
Definition azureSshRe : regex :=
  cat ([Lit (L "git@ssh.dev.azure.com:v3/");
        Group 1 (Plus notSlash); Lit (L "/"); Group 2 (Plus notSlash);
        Lit (L "/")] ++ repoTail).

(** [/https?:\/\/([^/]+)\/(.+?)\/([^/\s]+?)(?:\.git)?$/] *)
Definition httpsRe : regex :=
  cat ([Lit (L "http"); Opt (Lit (L "s")); Lit (L "://");
        Group 1 (Plus notSlash); Lit (L "/"); Group 2 (PlusLazy dot);
        Lit (L "/")] ++ repoTail).

(** [/git@([^:]+):(.+?)\/([^/\s]+?)(?:\.git)?$/] *)
Definition sshRe : regex :=
  cat ([Lit (L "git@");
        Group 1 (Plus notColon); Lit (L ":"); Group 2 (PlusLazy dot);
        Lit (L "/")] ++ repoTail).

(** [/ssh:\/\/git@([^/]+)\/(.+?)\/([^/\s]+?)(?:\.git)?$/] *)
Definition sshUrlRe : regex :=
  cat ([Lit (L "ssh://git@");
        Group 1 (Plus notSlash); Lit (L "/"); Group 2 (PlusLazy dot);
        Lit (L "/")] ++ repoTail).

Definition azureInfo (g : caps) : RemoteUrlInfo :=
  {| provider := azure_devops;
     host := L "dev.azure.com";
     owner := g 1 ++ L "/" ++ g 2;
     repo := g 3 |}.

Definition genericInfo (trimmed : str) (g : caps) : RemoteUrlInfo :=
  {| provider := detectProvider trimmed;
     host := g 1;
     owner := g 2;
     repo := g 3 |}.

Definition parseRemoteUrl (url : str) : option RemoteUrlInfo :=
  let trimmed := trim url in
  match matchRe azureHttpsRe trimmed with
  | Some azureHttpsMatch => Some (azureInfo azureHttpsMatch)
  | None =>
  match matchRe azureSshRe trimmed with
  | Some azureSshMatch => Some (azureInfo azureSshMatch)
  | None =>
  match matchRe httpsRe trimmed with
  | Some httpsMatch => Some (genericInfo trimmed httpsMatch)
  | None =>
  match matchRe sshRe trimmed with
  | Some sshMatch => Some (genericInfo trimmed sshMatch)
  | None =>
  match matchRe sshUrlRe trimmed with
  | Some sshUrlMatch => Some (genericInfo trimmed sshUrlMatch)
  | None => None
  end end end end end.

(** [segs.join('/')] *)
Fixpoint join (segs : list str) : str :=
  match segs with
  | [] => []
  | [sg] => sg
  | sg :: rest => sg ++ "/"%char :: join rest
  end.

(** An owner segment: not empty, no slash, no line terminator. *)
Definition ownerSegment (sg : str) : bool :=
  negb (Nat.eqb (List.length sg) 0) && forallb (fun c => notSlash c && dot c) sg.

(** A last segment: not empty, no slash, no white space. *)
Definition repoSegment (seg : str) : bool :=
  negb (Nat.eqb (List.length seg) 0) && forallb notSlashWs seg.

(** A path of one or more owner segments and a last segment. *)
Definition nestedPath (segs : list str) (seg : str) : bool :=
  negb (Nat.eqb (List.length segs) 0) && forallb ownerSegment segs && repoSegment seg.

(** The three groups of a match. *)
Definition groups (g : caps) : str * str * str := (g 1, g 2, g 3).

(** What a successful match of one of the five patterns on [t] looks like:
    [t] ends in a slash and a last segment, group 3 is that segment without
    one trailing [.git], and no group is empty. *)
Definition parsedShape (t : str) (g : caps) : Prop :=
  exists front seg,
    t = front ++ "/"%char :: seg /\ seg <> [] /\
    forallb notSlashWs seg = true /\
    g 3 = stripGit seg /\ g 1 <> [] /\ g 2 <> [].

(* ================================================================== *)
(** ** providers/index.ts: the registry

    [providerRegistry] is the module-level variable; [new C()] builds an
    object with a fresh identity, counted in [constructed]. *)

Module Registry.

Inductive AdapterClass : Type :=
| GitHubProvider | GitLabProvider | BitbucketProvider
| AzureDevOpsProvider | GiteaProvider.

(** An adapter instance: its identity and the class it was built from. *)
Record GitProvider : Type := { ident : nat; class : AdapterClass }.

Definition ProviderName_eqb (a b : ProviderName) : bool :=
  match a, b with
  | github, github | gitlab, gitlab | bitbucket, bitbucket
  | azure_devops, azure_devops | gitea, gitea | forgejo, forgejo
  | unknown, unknown => true
  | _, _ => false
  end.

(** [Map<ProviderName, GitProvider>] built from an array of pairs. *)
Definition ProviderMap := list (ProviderName * GitProvider).

Fixpoint Map_get (reg : ProviderMap) (name : ProviderName) : option GitProvider :=
  match reg with
  | [] => None
  | (k, v) :: reg' => if ProviderName_eqb k name then Some v else Map_get reg' name
  end.

Record state : Type := {
  providerRegistry : option ProviderMap;   (* null before the first use *)
  constructed : nat                        (* adapters built so far *)
}.

Definition initial : state := {| providerRegistry := None; constructed := 0 |}.

Definition new (c : AdapterClass) (st : state) : GitProvider * state :=
  ({| ident := constructed st; class := c |},
   {| providerRegistry := providerRegistry st; constructed := S (constructed st) |}).

Definition initRegistry (st : state) : ProviderMap * state :=
  match providerRegistry st with
  | Some reg => (reg, st)
  | None =>
      let (p1, st1) := new GitHubProvider st in
      let (p2, st2) := new GitLabProvider st1 in
      let (p3, st3) := new BitbucketProvider st2 in
      let (p4, st4) := new AzureDevOpsProvider st3 in
      let (p5, st5) := new GiteaProvider st4 in
      let (p6, st6) := new GiteaProvider st5 in
      let reg := [(github, p1); (gitlab, p2); (bitbucket, p3);
                  (azure_devops, p4); (gitea, p5); (forgejo, p6)] in
      (reg, {| providerRegistry := Some reg; constructed := constructed st6 |})
  end.

Definition getProvider (name : ProviderName) (st : state)
  : option GitProvider * state :=
  let (registry, st') := initRegistry st in
  (Map_get registry name, st').

(** The states the module can be in: the initial one, and those left by
    calls of [getProvider] (the only writer of [providerRegistry]). *)
Inductive reachable : state -> Prop :=
| reach_initial : reachable initial
| reach_call : forall st name,
    reachable st -> reachable (snd (getProvider name st)).

(** The state the first call leaves. *)
Definition built : state := snd (initRegistry initial).

End Registry.

(* ================================================================== *)
(** ** providers/gitea.ts: the Gitea / Forgejo adapter *)

Module Gitea.

(** A JavaScript number: a finite value (every finite double is a rational),
    NaN or an infinity. *)
Inductive number : Type :=
| Fin (q : Q) | NaN | PosInfinity | NegInfinity.

Definition Number_isInteger (n : number) : bool :=
  match n with
  | Fin q => (Qnum q mod Zpos (Qden q) =? 0)%Z
  | _ => false
  end.

(** [n < 1] *)
Definition lessThanOne (n : number) : bool :=
  match n with
  | Fin q => negb (Qle_bool 1 q)
  | NegInfinity => true
  | NaN | PosInfinity => false
  end.

(** [n] is the integer [z]. *)
Definition isInt (n : number) (z : Z) : Prop :=
  match n with
  | Fin q => (q == inject_Z z)%Q
  | _ => False
  end.

(** What [JSON.parse] returns. *)
#[local] Unset Elimination Schemes.
Inductive json : Type :=
| JNull
| JBool (b : bool)
| JNum (n : number)
| JStr (s : str)
| JArr (items : list json)
| JObj (fields : list (str * json)).
#[local] Set Elimination Schemes.

(** A JavaScript value read from parsed data; [None] is [undefined]. *)
Definition value := option json.

Record PRInfo : Type := {
  title : value; headBranch : value; baseBranch : value;
  url : value; body : value; author : value
}.

Record IssueInfo : Type := {
  issueTitle : value; issueBody : value; issueUrl : value;
  labels : option (list value)
}.

(** The world outside the adapter: what a subprocess prints ([None]: it
    fails, times out or is not installed, and [execFileSync] throws),
    [JSON.parse] ([None]: SyntaxError), the environment, and the rendering
    of a number in a string. *)
Record World : Type := {
  subprocess : str -> list str -> option str;
  JSON_parse : str -> option json;
  process_env : str -> option str;
  String_ : number -> str
}.

(** One subprocess execution; the REST tier's network request is the
    execution of [curl]. *)
Inductive event : Type :=
| Exec (file : str) (args : list str).

Inductive outcome (A : Type) : Type :=
| Return (a : A)
| Throw.
Arguments Return {A} a.
Arguments Throw {A}.

(** Computations that may throw and that log their subprocess executions. *)
Definition io (A : Type) : Type := list event -> outcome A * list event.

Definition ret {A} (a : A) : io A := fun log => (Return a, log).

Definition throw {A} : io A := fun log => (Throw, log).

Definition bind {A B} (c : io A) (f : A -> io B) : io B :=
  fun log =>
    match c log with
    | (Return a, log') => f a log'
    | (Throw, log') => (Throw, log')
    end.

(** [try { body } catch { handler }] *)
Definition tryCatch {A} (body handler : io A) : io A :=
  fun log =>
    match body log with
    | (Return a, log') => (Return a, log')
    | (Throw, log') => handler log'
    end.

Definition run {A} (c : io A) : outcome A * list event := c [].

Notation "x <- c ;; k" := (bind c (fun x => k))
  (at level 61, c at next level, right associativity).

Definition execFileSync (w : World) (file : str) (args : list str) : io str :=
  fun log =>
    (match subprocess w file args with
     | Some out => Return out
     | None => Throw
     end, log ++ [Exec file args]).

Definition parse (w : World) (raw : str) : io json :=
  match JSON_parse w raw with
  | Some data => ret data
  | None => throw
  end.

Fixpoint lookup (name : str) (fields : list (str * json)) : value :=
  match fields with
  | [] => None
  | (k, v) :: fields' =>
      if list_eq_dec ascii_dec k name then Some v else lookup name fields'
  end.

Definition nullish (v : value) : bool :=
  match v with
  | None | Some JNull => true
  | _ => false
  end.

(** [o.name]: a TypeError on [null] and [undefined]; primitives and arrays
    have none of the names read here. *)
Definition prop (o : value) (name : str) : io value :=
  match o with
  | None | Some JNull => throw
  | Some (JObj fields) => ret (lookup name fields)
  | Some _ => ret None
  end.

(** [o?.name] *)
Definition optProp (o : value) (name : str) : io value :=
  if nullish o then ret None else prop o name.

(** [a ?? b] *)
Definition orElse (a : value) (b : io value) : io value :=
  if nullish a then b else ret a.

Fixpoint mapM {A B} (f : A -> io B) (l : list A) : io (list B) :=
  match l with
  | [] => ret []
  | a :: l' => b <- f a ;; bs <- mapM f l' ;; ret (b :: bs)
  end.

(** [data.labels?.map((l) => l.name)]: only an array has a callable [map]. *)
Definition labelNames (data : json) : io (option (list value)) :=
  ls <- prop (Some data) (L "labels") ;;
  if nullish ls then ret None
  else match ls with
       | Some (JArr items) =>
           names <- mapM (fun l => prop (Some l) (L "name")) items ;;
           ret (Some names)
       | _ => throw
       end.

(** [!s] for an optional string: [undefined] and the empty string. *)
Definition falsy (s : option str) : bool :=
  match s with
  | None | Some [] => true
  | Some (_ :: _) => false
  end.

Definition text (s : option str) : str :=
  match s with Some t => t | None => L "undefined" end.

(** The body of the [try] block of [viewPR]. *)
Definition teaPR (w : World) (number : number) : io PRInfo :=
  raw <- execFileSync w (L "tea") [L "pr"; L "view"; String_ w number] ;;
  data <- parse w raw ;;
  t <- prop (Some data) (L "title") ;;
  hb <- prop (Some data) (L "head_branch") ;;
  bb <- prop (Some data) (L "base_branch") ;;
  u <- prop (Some data) (L "html_url") ;;
  b <- prop (Some data) (L "body") ;;
  usr <- prop (Some data) (L "user") ;;
  a <- optProp usr (L "login") ;;
  ret {| title := t; headBranch := hb; baseBranch := bb;
         url := u; body := b; author := a |}.

(** The body of the [try] block of [viewPRviaRest]. *)
Definition curlPR (w : World) (number : number) (baseUrl owner repo : str)
  : io PRInfo :=
  let token := process_env w (L "GITEA_TOKEN") in
  let args :=
    [L "-sS"]
    ++ (if falsy token then []
        else [L "-H"; L "Authorization: token " ++ text token])
    ++ [baseUrl ++ L "/api/v1/repos/" ++ owner ++ L "/" ++ repo
        ++ L "/pulls/" ++ String_ w number] in
  raw <- execFileSync w (L "curl") args ;;
  data <- parse w raw ;;
  t <- prop (Some data) (L "title") ;;
  h <- prop (Some data) (L "head") ;;
  href <- optProp h (L "ref") ;;
  hb <- orElse href (prop (Some data) (L "head_branch")) ;;
  bs <- prop (Some data) (L "base") ;;
  bref <- optProp bs (L "ref") ;;
  bb <- orElse bref (prop (Some data) (L "base_branch")) ;;
  u <- prop (Some data) (L "html_url") ;;
  b <- prop (Some data) (L "body") ;;
  usr <- prop (Some data) (L "user") ;;
  a <- optProp usr (L "login") ;;
  ret {| title := t; headBranch := hb; baseBranch := bb;
         url := u; body := b; author := a |}.

Definition viewPRviaRest (w : World) (number : number) (owner repo : option str)
  : io (option PRInfo) :=
  let baseUrl := process_env w (L "GITEA_URL") in
  if falsy baseUrl || falsy owner || falsy repo then ret None
  else
    tryCatch
      (info <- curlPR w number (text baseUrl) (text owner) (text repo) ;;
       ret (Some info))
      (ret None).

Definition viewPR (w : World) (number : number) (owner repo : option str)
  : io (option PRInfo) :=
  if negb (Number_isInteger number) || lessThanOne number then ret None
  else
    r <- tryCatch (info <- teaPR w number ;; ret (Some info)) (ret None) ;;
    match r with
    | Some info => ret (Some info)
    | None => viewPRviaRest w number owner repo
    end.

(** The body of the [try] block of [viewIssue]. *)
Definition teaIssue (w : World) (number : number) : io IssueInfo :=
  raw <- execFileSync w (L "tea") [L "issues"; L "view"; String_ w number] ;;
  data <- parse w raw ;;
  t <- prop (Some data) (L "title") ;;
  b <- prop (Some data) (L "body") ;;
  u <- prop (Some data) (L "html_url") ;;
  ls <- labelNames data ;;
  ret {| issueTitle := t; issueBody := b; issueUrl := u; labels := ls |}.

(** The body of the [try] block of [viewIssueviaRest]. *)
Definition curlIssue (w : World) (number : number) (baseUrl owner repo : str)
  : io IssueInfo :=
  let args :=
    [L "-sS";
     baseUrl ++ L "/api/v1/repos/" ++ owner ++ L "/" ++ repo
     ++ L "/issues/" ++ String_ w number] in
  raw <- execFileSync w (L "curl") args ;;
  data <- parse w raw ;;
  t <- prop (Some data) (L "title") ;;
  b <- prop (Some data) (L "body") ;;
  u <- prop (Some data) (L "html_url") ;;
  ls <- labelNames data ;;
  ret {| issueTitle := t; issueBody := b; issueUrl := u; labels := ls |}.

Definition viewIssueviaRest (w : World) (number : number)
           (owner repo : option str) : io (option IssueInfo) :=
  let baseUrl := process_env w (L "GITEA_URL") in
  if falsy baseUrl || falsy owner || falsy repo then ret None
  else
    tryCatch
      (info <- curlIssue w number (text baseUrl) (text owner) (text repo) ;;
       ret (Some info))
      (ret None).

Definition viewIssue (w : World) (number : number) (owner repo : option str)
  : io (option IssueInfo) :=
  if negb (Number_isInteger number) || lessThanOne number then ret None
  else
    r <- tryCatch (info <- teaIssue w number ;; ret (Some info)) (ret None) ;;
    match r with
    | Some info => ret (Some info)
    | None => viewIssueviaRest w number owner repo
    end.

(** [c] always throws. *)
Definition fails {A} (c : io A) : Prop := forall log, fst (c log) = Throw.

(** [c] executes nothing. *)
Definition quiet {A} (c : io A) : Prop := forall log, snd (c log) = log.

(** [c] executes [e] and nothing else. *)
Definition executes {A} (e : event) (c : io A) : Prop :=
  forall log, snd (c log) = log ++ [e].

(** Whether a log holds an execution of [file]. *)
Definition ran (file : str) (log : list event) : bool :=
  existsb (fun e => match e with Exec f _ =>
                      if list_eq_dec ascii_dec f file then true else false end) log.

(** A world in which no subprocess succeeds and nothing is configured. *)
Definition deadWorld : World :=
  {| subprocess := fun _ _ => None;
     JSON_parse := fun _ => None;
     process_env := fun _ => None;
     String_ := fun _ => [] |}.

(** The command line of the REST tier of [viewPR]. *)
Definition curlPRArgs (w : World) (number : number) (baseUrl owner repo : str)
  : list str :=
  [L "-sS"]
  ++ (if falsy (process_env w (L "GITEA_TOKEN")) then []
      else [L "-H"; L "Authorization: token " ++ text (process_env w (L "GITEA_TOKEN"))])
  ++ [baseUrl ++ L "/api/v1/repos/" ++ owner ++ L "/" ++ repo
      ++ L "/pulls/" ++ String_ w number].

(** The command line of the REST tier of [viewIssue]. *)
Definition curlIssueArgs (w : World) (number : number) (baseUrl owner repo : str)
  : list str :=
  [L "-sS";
   baseUrl ++ L "/api/v1/repos/" ++ owner ++ L "/" ++ repo
   ++ L "/issues/" ++ String_ w number].

(** A record all of whose fields are [undefined]. *)
Definition blankPR : PRInfo :=
  {| title := None; headBranch := None; baseBranch := None;
     url := None; body := None; author := None |}.

(** Parsed data that is neither [null] nor an object. *)
Definition primitive (data : json) : bool :=
  match data with
  | JNull | JObj _ => false
  | JBool _ | JNum _ | JStr _ | JArr _ => true
  end.

(** [c] always returns [a]. *)
Definition yields {A} (c : io A) (a : A) : Prop :=
  forall log, fst (c log) = Return a.

(** The [name] of a label, as the callback of [labels.map] reads it. *)
Definition labelName (l : json) : value :=
  match l with
  | JObj fields => lookup (L "name") fields
  | _ => None
  end.

Definition notNull (l : json) : bool :=
  match l with
  | JNull => false
  | _ => true
  end.

(** A world in which tea is missing and the REST API answers. *)
Definition restWorld : World :=
  {| subprocess := fun file _ =>
       if list_eq_dec ascii_dec file (L "curl") then Some (L "{}") else None;
     JSON_parse := fun _ => Some (JObj [(L "title", JStr (L "Fix"))]);
     process_env := fun name =>
       if list_eq_dec ascii_dec name (L "GITEA_URL")
       then Some (L "https://git.example.com") else None;
     String_ := fun _ => L "7" |}.

(** A world in which tea prints a pull request. *)
Definition teaWorld : World :=
  {| subprocess := fun file _ =>
       if list_eq_dec ascii_dec file (L "tea") then Some (L "{}") else None;
     JSON_parse := fun _ => Some (JObj [(L "title", JStr (L "Fix"))]);
     process_env := fun _ => None;
     String_ := fun _ => L "7" |}.

(** A world in which tea prints the number 42. *)
Definition numberWorld : World :=
  {| subprocess := fun file _ =>
       if list_eq_dec ascii_dec file (L "tea") then Some (L "42") else None;
     JSON_parse := fun _ => Some (JNum (Fin 42));
     process_env := fun name =>
       if list_eq_dec ascii_dec name (L "GITEA_URL")
       then Some (L "https://git.example.com") else None;
     String_ := fun _ => L "7" |}.

(** A world in which tea prints an issue with two labels. *)
Definition labelWorld : World :=
  {| subprocess := fun file _ =>
       if list_eq_dec ascii_dec file (L "tea") then Some (L "{}") else None;
     JSON_parse := fun _ =>
       Some (JObj [(L "title", JStr (L "Bug"));
                   (L "labels", JArr [JObj [(L "name", JStr (L "bug"))];
                                      JObj [(L "name", JStr (L "ui"))]])]);
     process_env := fun _ => None;
     String_ := fun _ => L "7" |}.

(** The value of [v?.name] when reading it does not throw. *)
Definition getOpt (v : value) (name : str) : value :=
  match v with
  | Some (JObj fields) => lookup name fields
  | _ => None
  end.

(** The value of [a ?? b]. *)
Definition coalesce (a b : value) : value := if nullish a then b else a.

(** What the CLI tier of [viewPR] makes of a JSON object. *)
Definition teaPRInfo (fields : list (str * json)) : PRInfo :=
  {| title := lookup (L "title") fields;
     headBranch := lookup (L "head_branch") fields;
     baseBranch := lookup (L "base_branch") fields;
     url := lookup (L "html_url") fields;
     body := lookup (L "body") fields;
     author := getOpt (lookup (L "user") fields) (L "login") |}.

(** What the REST tier of [viewPR] makes of a JSON object. *)
Definition curlPRInfo (fields : list (str * json)) : PRInfo :=
  {| title := lookup (L "title") fields;
     headBranch := coalesce (getOpt (lookup (L "head") fields) (L "ref"))
                            (lookup (L "head_branch") fields);
     baseBranch := coalesce (getOpt (lookup (L "base") fields) (L "ref"))
                            (lookup (L "base_branch") fields);
     url := lookup (L "html_url") fields;
     body := lookup (L "body") fields;
     author := getOpt (lookup (L "user") fields) (L "login") |}.

(** A world in which the REST API answers with [head.ref] and
    [head_branch] both. *)
Definition refWorld : World :=
  {| subprocess := fun file _ =>
       if list_eq_dec ascii_dec file (L "curl") then Some (L "{}") else None;
     JSON_parse := fun _ =>
       Some (JObj [(L "head", JObj [(L "ref", JStr (L "feature"))]);
                   (L "head_branch", JStr (L "old"))]);
     process_env := fun name =>
       if list_eq_dec ascii_dec name (L "GITEA_URL")
       then Some (L "https://git.example.com") else None;
     String_ := fun _ => L "7" |}.

End Gitea.

(* ================================================================== *)
(** ** providers/index.ts: the working-directory wrappers *)

Module Cwd.
Import Registry.

(** [execSync('git remote get-url origin', {cwd, ...})]: what git prints for
    the working directory; [None] when the call throws (no repository, no
    origin remote, time-out). *)
Definition Git := option str -> option str.

(** [!url] for a string. *)
Definition isEmpty (s : str) : bool :=
  match s with
  | [] => true
  | _ :: _ => false
  end.

Definition detectProviderFromCwd (execSync : Git) (cwd : option str)
  : ProviderName :=
  match execSync cwd with
  | Some out =>
      let url := trim out in
      if isEmpty url then unknown else detectProvider url
  | None => unknown
  end.

Definition parseRemoteFromCwd (execSync : Git) (cwd : option str)
  : option RemoteUrlInfo :=
  match execSync cwd with
  | Some out =>
      let url := trim out in
      if isEmpty url then None else parseRemoteUrl url
  | None => None
  end.

Definition getProviderFromCwd (execSync : Git) (cwd : option str) (st : state)
  : option GitProvider * state :=
  let name := detectProviderFromCwd execSync cwd in
  if ProviderName_eqb name unknown then (None, st)
  else getProvider name st.

End Cwd.

(** A text without white space. *)
Definition plainText (pat : str) : bool :=
  forallb (fun c => negb (isWhiteSpace c)) pat.

(** How the fields of a parsed value lie in the trimmed input [t]: host,
    owner and repo in this order, with the separators of the patterns
    between them and at most one [.git] behind. *)
Definition laidOut (t : str) (r : RemoteUrlInfo) : Prop :=
  exists front sep1 sep2 suffix,
    t = front ++ host r ++ sep1 ++ owner r ++ sep2 ++ repo r ++ suffix /\
    (sep1 = L "/" \/ sep1 = L ":" \/ sep1 = L ":v3/") /\
    (sep2 = L "/" \/ sep2 = L "/_git/") /\
    (suffix = [] \/ suffix = L ".git").

(* ================================================================== *)
(** ** hud/sanitize.ts: the output sanitizer

    The block characters lie above U+00FF, so the texts of this module are
    sequences of UTF-16 code units written as numbers. *)

Module Hud.

Definition text := list N.

Definition ESC : N := 27.
Definition BEL : N := 7.
Definition LF : N := 10.

(** White space and line terminators: the class [\s], and what [trim]
    removes. *)
Definition isSpace (c : N) : bool :=
  ((9 <=? c) && (c <=? 13) || (c =? 32) || (c =? 160) || (c =? 5760)
   || (8192 <=? c) && (c <=? 8202) || (c =? 8232) || (c =? 8233)
   || (c =? 8239) || (c =? 8287) || (c =? 12288) || (c =? 65279))%N.

Fixpoint trimStart (s : text) : text :=
  match s with
  | c :: s' => if isSpace c then trimStart s' else s
  | [] => []
  end.

Definition trimEnd (s : text) : text := rev (trimStart (rev s)).

Definition trim (s : text) : text := trimEnd (trimStart s).

(** The patterns of the module: one character, one character of a class, a
    class under greedy [*] or [{n,}], alternatives and concatenation. *)
Inductive re : Type :=
| Chr (c : N)
| Cls (p : N -> bool)
| Star (p : N -> bool)
| AtLeast (n : nat) (p : N -> bool)
| Alt (r1 r2 : re)
| Cat (r1 r2 : re).

(** The backtracking matcher; a continuation gets the rest of the input. *)
Fixpoint star (p : N -> bool) (k : text -> option text) (s : text) : option text :=
  match s with
  | c :: s' =>
      if p c then
        match star p k s' with
        | Some rest => Some rest
        | None => k s
        end
      else k s
  | [] => k s
  end.

Fixpoint atLeast (n : nat) (p : N -> bool) (k : text -> option text) (s : text)
  : option text :=
  match n with
  | O => star p k s
  | S n' =>
      match s with
      | c :: s' => if p c then atLeast n' p k s' else None
      | [] => None
      end
  end.

Fixpoint m (r : re) (k : text -> option text) (s : text) : option text :=
  match r with
  | Chr c =>
      match s with
      | x :: s' => if (x =? c)%N then k s' else None
      | [] => None
      end
  | Cls p =>
      match s with
      | x :: s' => if p x then k s' else None
      | [] => None
      end
  | Star p => star p k s
  | AtLeast n p => atLeast n p k s
  | Alt r1 r2 =>
      match m r1 k s with
      | Some rest => Some rest
      | None => m r2 k s
      end
  | Cat r1 r2 => m r1 (m r2 k) s
  end.

(** A match of [r] at the start of [s]: what is left behind it. *)
Definition matchAt (r : re) (s : text) : option text := m r Some s.

(** [s.replace(/r/g, by)] from the current position, [skip] code units of
    which still belong to the match found last.  An empty match puts [by]
    in front of the next code unit, which is copied. *)
Fixpoint replaceFrom (r : re) (by_ : text) (s : text) (skip : nat) : text :=
  match s with
  | [] =>
      match skip, matchAt r [] with
      | O, Some _ => by_
      | _, _ => []
      end
  | c :: s' =>
      match skip with
      | S k => replaceFrom r by_ s' k
      | O =>
          match matchAt r s with
          | Some rest =>
              match (List.length s - List.length rest)%nat with
              | O => by_ ++ c :: replaceFrom r by_ s' 0
              | S k => by_ ++ replaceFrom r by_ s' k
              end
          | None => c :: replaceFrom r by_ s' 0
          end
      end
  end.

Definition replaceAll (r : re) (by_ : text) (s : text) : text :=
  replaceFrom r by_ s 0.

Definition digitOrSemi (c : N) : bool :=                       (* [0-9;] *)
  ((48 <=? c) && (c <=? 57) || (c =? 59))%N.
Definition letter (c : N) : bool :=                            (* [A-Za-z] *)
  ((65 <=? c) && (c <=? 90) || (97 <=? c) && (c <=? 122))%N.
Definition notBel (c : N) : bool := negb (c =? BEL)%N.         (* [^\x07] *)
Definition notBracket (c : N) : bool :=                        (* [^[\]] *)
  negb (c =? 91)%N && negb (c =? 93)%N.

(** [/\x1b\[[0-9;]*[A-Za-z]|\x1b\][^\x07]*\x07|\x1b[^[\]]/g] *)
Definition ANSI_REGEX : re :=
  Alt (Cat (Chr ESC) (Cat (Chr 91) (Cat (Star digitOrSemi) (Cls letter))))
      (Alt (Cat (Chr ESC) (Cat (Chr 93) (Cat (Star notBel) (Chr BEL))))
           (Cat (Chr ESC) (Cls notBracket))).

Definition stripAnsi (t : text) : text := replaceAll ANSI_REGEX [] t.

(** Full block, light shade, dark shade, medium shade. *)
Definition FULL : N := 9608.
Definition LIGHT : N := 9617.
Definition DARK : N := 9619.
Definition MEDIUM : N := 9618.

Definition replaceUnicodeBlocks (t : text) : text :=
  replaceAll (Chr MEDIUM) [45%N]
    (replaceAll (Chr DARK) [61%N]
       (replaceAll (Chr LIGHT) [45%N]
          (replaceAll (Chr FULL) [35%N] t))).

(** [s.split(sep)] for a separator of one code unit. *)
Fixpoint split (sep : N) (s : text) : list text :=
  match s with
  | [] => [[]]
  | c :: s' =>
      if (c =? sep)%N then [] :: split sep s'
      else match split sep s' with
           | l :: ls => (c :: l) :: ls
           | [] => [[c]]
           end
  end.

(** [lines.join(sep)] *)
Fixpoint join (sep : text) (lines : list text) : text :=
  match lines with
  | [] => []
  | [l] => l
  | l :: ls => l ++ sep ++ join sep ls
  end.

Definition sanitizeOutput (output : text) : text :=
  let sanitized := stripAnsi output in
  let sanitized := replaceUnicodeBlocks sanitized in
  let lines :=
    filter (fun line => (0 <? List.length (trim line))%nat) (split LF sanitized) in
  let sanitized :=
    if (1 <? List.length lines)%nat then join [32; 124; 32]%N lines
    else match nth_error lines 0 with
         | Some (c :: l) => c :: l
         | _ => []
         end in
  let sanitized := replaceAll (AtLeast 2 isSpace) [32%N] sanitized in
  trim sanitized.

(** One of the four block characters. *)
Definition isBlock (c : N) : bool :=
  ((c =? FULL) || (c =? LIGHT) || (c =? DARK) || (c =? MEDIUM))%N.

(** What [replaceUnicodeBlocks] puts for one code unit. *)
Definition blockToAscii (c : N) : N :=
  if (c =? FULL)%N then 35%N
  else if (c =? LIGHT)%N then 45%N
  else if (c =? DARK)%N then 61%N
  else if (c =? MEDIUM)%N then 45%N
  else c.

(** No two white-space code units side by side. *)
Fixpoint noDoubleSpace (s : text) : bool :=
  match s with
  | a :: s' =>
      match s' with
      | b :: _ => negb (isSpace a && isSpace b) && noDoubleSpace s'
      | [] => true
      end
  | [] => true
  end.

(** Neither the first nor the last code unit is white space. *)
Definition cleanEnds (s : text) : bool :=
  match s with
  | [] => true
  | c :: _ => negb (isSpace c) && negb (isSpace (last s c))
  end.

(** A text without the escape character. *)
Definition plain (t : text) : bool := forallb (fun c => negb (c =? ESC)%N) t.

(** The three kinds of escape sequence [ANSI_REGEX] describes: CSI with
    its parameters and final letter, OSC up to the first BEL, and ESC with
    one code unit other than a bracket. *)
Inductive sequence : text -> Prop :=
| csi : forall params final,
    forallb digitOrSemi params = true -> letter final = true ->
    sequence (ESC :: 91%N :: params ++ [final])
| osc : forall body,
    forallb notBel body = true ->
    sequence (ESC :: 93%N :: body ++ [BEL])
| simple : forall c,
    notBracket c = true -> sequence [ESC; c].

(** The separator [' | ']. *)
Definition bar : text := [32; 124; 32]%N.

(** A line of white space only; a line that needs no cleaning. *)
Definition blankLine (l : text) : bool := forallb isSpace l.

Definition cleanLine (l : text) : bool :=
  plain l && forallb (fun c => negb (isBlock c)) l
  && noDoubleSpace l && cleanEnds l && negb (Nat.eqb (List.length l) 0).

Definition noLF (l : text) : bool := forallb (fun c => negb (c =? LF)%N) l.

(** The first code unit exists and is no white space. *)
Definition headOk (s : text) : bool :=
  match s with
  | [] => false
  | c :: _ => negb (isSpace c)
  end.

(** [s.replace(/\s{2,}/g, ' ')] *)
Definition collapse (s : text) : text := replaceAll (AtLeast 2 isSpace) [32%N] s.

Fixpoint dropWhile (p : N -> bool) (s : text) : text :=
  match s with
  | c :: s' => if p c then dropWhile p s' else s
  | [] => []
  end.

End Hud.

(* ================================================================== *)
(** * Properties *)

(** ** Strings *)

Section StringFacts.

Lemma startsWith_app (pat rest : str) : startsWith (pat ++ rest) pat = true.
Proof.
  induction pat as [|c pat IH]; simpl; [reflexivity|].
  now rewrite Ascii.eqb_refl, IH.
Qed.

Lemma startsWith_inv (pat s : str) :
  startsWith s pat = true -> exists rest, s = pat ++ rest.
Proof.
  revert s; induction pat as [|c pat IH]; intros s H.
  - now exists s.
  - destruct s as [|x s]; simpl in H; [discriminate|].
    apply andb_true_iff in H as [Hc Hs].
    apply Ascii.eqb_eq in Hc; subst x.
    destruct (IH _ Hs) as [rest ->]. now exists rest.
Qed.

Lemma includes_app (a pat b : str) : includes (a ++ pat ++ b) pat = true.
Proof.
  induction a as [|c a IH].
  - simpl app. destruct (pat ++ b) eqn:E; simpl; rewrite <- E, startsWith_app;
      reflexivity.
  - simpl. rewrite IH. apply orb_true_r.
Qed.

Lemma includes_inv (s pat : str) :
  includes s pat = true -> exists a b, s = a ++ pat ++ b.
Proof.
  induction s as [|c s IH]; simpl; intros H.
  - rewrite orb_false_r in H. apply startsWith_inv in H as [rest ->].
    now exists [], rest.
  - apply orb_true_iff in H as [H|H].
    + apply startsWith_inv in H as [rest ->]. now exists [], rest.
    + destruct (IH H) as (a & b & ->). now exists (c :: a), b.
Qed.

(** A pattern the mapping leaves alone is still found after the mapping. *)
Lemma includes_map (f : ascii -> ascii) (s pat : str) :
  map f pat = pat -> includes s pat = true -> includes (map f s) pat = true.
Proof.
  intros Hpat H. apply includes_inv in H as (a & b & ->).
  rewrite !map_app, Hpat. apply includes_app.
Qed.

Lemma endsWith_inv (s suffix : str) :
  endsWith s suffix = true -> exists front, s = front ++ suffix.
Proof.
  unfold endsWith. intros H. apply startsWith_inv in H as [rest H].
  exists (rev rest). rewrite <- (rev_involutive s), H, rev_app_distr.
  now rewrite rev_involutive.
Qed.

Lemma endsWith_app (front suffix : str) : endsWith (front ++ suffix) suffix = true.
Proof. unfold endsWith. rewrite rev_app_distr. apply startsWith_app. Qed.

Lemma trimStart_white (a s : str) :
  forallb isWhiteSpace a = true -> trimStart (a ++ s) = trimStart s.
Proof.
  induction a as [|c a IH]; simpl; [reflexivity|].
  intros H. apply andb_true_iff in H as [Hc Ha]. now rewrite Hc, IH.
Qed.

Lemma trimEnd_white (s b : str) :
  forallb isWhiteSpace b = true -> trimEnd (s ++ b) = trimEnd s.
Proof.
  intros H. unfold trimEnd. rewrite rev_app_distr, trimStart_white; [reflexivity|].
  rewrite forallb_forall in *. intros x Hx. apply H. now apply in_rev.
Qed.

Lemma trimStart_app_r (s b : str) :
  forallb isWhiteSpace b = true ->
  trimStart (s ++ b) = trimStart s ++ b \/
  (trimStart s = [] /\ trimStart (s ++ b) = []).
Proof.
  intros Hb. induction s as [|c s IH]; simpl.
  - right. split; [reflexivity|]. rewrite <- (app_nil_r b).
    now rewrite trimStart_white.
  - destruct (isWhiteSpace c); [exact IH | now left].
Qed.

(** Surrounding white space does not change what [trim] returns. *)
Lemma trim_white (a s b : str) :
  forallb isWhiteSpace a = true -> forallb isWhiteSpace b = true ->
  trim (a ++ s ++ b) = trim s.
Proof.
  intros Ha Hb. unfold trim. rewrite trimStart_white by assumption.
  destruct (trimStart_app_r s b Hb) as [-> | [E ->]].
  - now apply trimEnd_white.
  - now rewrite E.
Qed.

Lemma trimStart_last (s : str) (c : ascii) :
  isWhiteSpace c = false -> exists v, trimStart (s ++ [c]) = v ++ [c].
Proof.
  intros Hc. induction s as [|x s IH]; simpl.
  - rewrite Hc. now exists [].
  - destruct (isWhiteSpace x); [exact IH | now exists (x :: s)].
Qed.

(** A last character that is not white space is still last after [trim]. *)
Lemma trim_last (s : str) (c : ascii) :
  isWhiteSpace c = false -> exists v, trim (s ++ [c]) = v ++ [c].
Proof.
  intros Hc. destruct (trimStart_last s c Hc) as [v E].
  exists v. unfold trim, trimEnd. rewrite E, rev_app_distr. simpl.
  rewrite Hc. simpl. now rewrite rev_involutive.
Qed.

Lemma lastSegment_slash (front seg : str) :
  forallb notSlash seg = true -> lastSegment (front ++ "/"%char :: seg) = seg.
Proof.
  intros Hseg.
  assert (Hno : existsb (Ascii.eqb "/"%char) seg = false).
  { clear front. induction seg as [|c seg IH]; [reflexivity|].
    cbn [existsb forallb] in *. apply andb_true_iff in Hseg as [Hc Hs].
    rewrite (IH Hs), orb_false_r. unfold notSlash in Hc.
    destruct (Ascii.eqb_spec "/"%char c) as [<-|]; [discriminate | reflexivity]. }
  induction front as [|c front IH]; cbn [app lastSegment].
  - now rewrite Hno, Ascii.eqb_refl.
  - rewrite existsb_app. cbn [existsb]. rewrite Ascii.eqb_refl, orb_true_r.
    exact IH.
Qed.

End StringFacts.

(** ** The matcher: what a successful match says about the input *)

Section MatcherFacts.

Lemma consumed_app (pre s' : str) : consumed (pre ++ s') s' = pre.
Proof.
  unfold consumed. rewrite length_app.
  replace (List.length pre + List.length s' - List.length s')
    with (List.length pre) by lia.
  rewrite firstn_app, Nat.sub_diag, firstn_all. simpl. apply app_nil_r.
Qed.

Lemma matchLit_inv (l : str) (k : cont) (s : str) (cs res : caps) :
  matchLit l k s cs = Some res ->
  exists s', s = l ++ s' /\ k s' cs = Some res.
Proof.
  revert s. induction l as [|c l IH]; intros s H; simpl in H.
  - now exists s.
  - destruct s as [|x s]; [discriminate|].
    destruct (Ascii.eqb_spec x c) as [->|]; [|discriminate].
    destruct (IH _ H) as (s' & -> & Hk). now exists s'.
Qed.

Lemma starGreedy_inv (p : ascii -> bool) (k : cont) (s : str) (cs res : caps) :
  starGreedy p k s cs = Some res ->
  exists pre s', s = pre ++ s' /\ forallb p pre = true /\ k s' cs = Some res.
Proof.
  induction s as [|c s IH]; simpl; intros H.
  - now exists [], [].
  - destruct (p c) eqn:Hc; [|now exists [], (c :: s)].
    destruct (starGreedy p k s cs) as [r|] eqn:E.
    + destruct (IH H) as (pre & s' & -> & Hp & Hk).
      exists (c :: pre), s'. simpl. rewrite Hc, Hp. repeat split. congruence.
    + now exists [], (c :: s).
Qed.

(** The lazy loop stops at the first place where the continuation succeeds. *)
Lemma starLazy_inv (p : ascii -> bool) (k : cont) (s : str) (cs res : caps) :
  starLazy p k s cs = Some res ->
  exists pre s',
    s = pre ++ s' /\ forallb p pre = true /\ k s' cs = Some res /\
    forall pre2 s2, s = pre2 ++ s2 -> List.length pre2 < List.length pre ->
                    k s2 cs = None.
Proof.
  induction s as [|c s IH]; simpl; intros H.
  - destruct (k [] cs) eqn:E; [|discriminate].
    exists [], []. repeat split; try congruence. simpl; intros; lia.
  - destruct (k (c :: s) cs) as [r|] eqn:E.
    + exists [], (c :: s). repeat split; try congruence. simpl; intros; lia.
    + destruct (p c) eqn:Hc; [|discriminate].
      destruct (IH H) as (pre & s' & -> & Hp & Hk & Hmin).
      exists (c :: pre), s'. simpl. rewrite Hc, Hp. repeat split; trivial.
      intros [|x pre2] s2 E2 Hlen; simpl in *.
      * now subst s2.
      * injection E2 as -> E2. apply (Hmin pre2); [assumption | lia].
Qed.

Lemma plusGreedy_inv (p : ascii -> bool) (k : cont) (s : str) (cs res : caps) :
  plus starGreedy p k s cs = Some res ->
  exists pre s',
    s = pre ++ s' /\ pre <> [] /\ forallb p pre = true /\ k s' cs = Some res.
Proof.
  unfold plus. destruct s as [|c s]; [discriminate|].
  destruct (p c) eqn:Hc; [|discriminate]. intros H.
  apply starGreedy_inv in H as (pre & s' & -> & Hp & Hk).
  exists (c :: pre), s'. simpl. rewrite Hc, Hp. repeat split; congruence.
Qed.

Lemma plusLazy_inv (p : ascii -> bool) (k : cont) (s : str) (cs res : caps) :
  plus starLazy p k s cs = Some res ->
  exists pre s',
    s = pre ++ s' /\ pre <> [] /\ forallb p pre = true /\ k s' cs = Some res /\
    forall pre2 s2, s = pre2 ++ s2 -> pre2 <> [] ->
                    List.length pre2 < List.length pre -> k s2 cs = None.
Proof.
  unfold plus. destruct s as [|c s]; [discriminate|].
  destruct (p c) eqn:Hc; [|discriminate]. intros H.
  apply starLazy_inv in H as (pre & s' & -> & Hp & Hk & Hmin).
  exists (c :: pre), s'. simpl. rewrite Hc, Hp. repeat split; try congruence.
  intros [|x pre2] s2 E2 Hne Hlen; [congruence|]. simpl in *.
  injection E2 as -> E2. apply (Hmin pre2); [assumption | lia].
Qed.

Lemma seq_lit_inv (l : str) (r : regex) (k : cont) (s : str) (cs res : caps) :
  m (Seq (Lit l) r) k s cs = Some res ->
  exists s', s = l ++ s' /\ m r k s' cs = Some res.
Proof. apply matchLit_inv. Qed.

Lemma seq_opt_lit_inv (l : str) (r : regex) (k : cont) (s : str) (cs res : caps) :
  m (Seq (Opt (Lit l)) r) k s cs = Some res ->
  exists o s', s = o ++ s' /\ (o = l \/ o = []) /\ m r k s' cs = Some res.
Proof.
  simpl. destruct (matchLit l (m r k) s cs) as [x|] eqn:E; intros H.
  - injection H as ->. apply matchLit_inv in E as (s' & -> & Hk).
    exists l, s'. auto.
  - exists [], s. auto.
Qed.

Lemma seq_group_plus_inv (i : nat) (p : ascii -> bool) (r : regex) (k : cont)
      (s : str) (cs res : caps) :
  m (Seq (Group i (Plus p)) r) k s cs = Some res ->
  exists pre s',
    s = pre ++ s' /\ pre <> [] /\ forallb p pre = true /\
    m r k s' (setCap i pre cs) = Some res.
Proof.
  simpl. intros H. apply plusGreedy_inv in H as (pre & s' & E & Hne & Hp & Hk).
  subst s. rewrite consumed_app in Hk. now exists pre, s'.
Qed.

Lemma seq_group_lazy_inv (i : nat) (p : ascii -> bool) (r : regex) (k : cont)
      (s : str) (cs res : caps) :
  m (Seq (Group i (PlusLazy p)) r) k s cs = Some res ->
  exists pre s',
    s = pre ++ s' /\ pre <> [] /\ forallb p pre = true /\
    m r k s' (setCap i pre cs) = Some res /\
    forall pre2 s2, s = pre2 ++ s2 -> pre2 <> [] ->
                    List.length pre2 < List.length pre ->
                    m r k s2 (setCap i pre2 cs) = None.
Proof.
  simpl. intros H.
  apply plusLazy_inv in H as (pre & s' & E & Hne & Hp & Hk & Hmin).
  subst s. rewrite consumed_app in Hk. exists pre, s'. repeat split; trivial.
  intros pre2 s2 E2 Hne2 Hlen. specialize (Hmin pre2 s2 E2 Hne2 Hlen).
  rewrite E2, consumed_app in Hmin. exact Hmin.
Qed.

Lemma matchRe_inv (r : regex) (s : str) (g : caps) :
  matchRe r s = Some g ->
  exists skipped s', s = skipped ++ s' /\ m r accept s' noCaps = Some g.
Proof.
  induction s as [|c s IH]; simpl; intros H.
  - destruct (m r accept [] noCaps) eqn:E; [|discriminate].
    exists [], []. split; [reflexivity | congruence].
  - destruct (m r accept (c :: s) noCaps) eqn:E.
    + exists [], (c :: s). split; [reflexivity | congruence].
    + destruct (IH H) as (skipped & s' & -> & Hm).
      now exists (c :: skipped), s'.
Qed.

Lemma stripGit_nonempty (seg : str) : seg <> [] -> stripGit seg <> [].
Proof.
  unfold stripGit. intros Hne.
  destruct (endsWith seg (L ".git") && (4 <? List.length seg)) eqn:E; [|exact Hne].
  apply andb_true_iff in E as [_ E]. apply Nat.ltb_lt in E.
  intros H. apply (f_equal (@List.length ascii)) in H.
  rewrite length_firstn in H. simpl in H. lia.
Qed.

(** The end of every pattern, [([^/\s]+?)(?:\.git)?$]: it reads a whole
    segment without slash or white space and captures it without one
    trailing [.git]. *)
Lemma repoTail_inv (s : str) (cs res : caps) :
  m (cat repoTail) accept s cs = Some res ->
  s <> [] /\ forallb notSlashWs s = true /\ res = setCap 3 (stripGit s) cs.
Proof.
  change (cat repoTail)
    with (Seq (Group 3 (PlusLazy notSlashWs)) (Seq (Opt (Lit (L ".git"))) Eos)).
  intros H.
  apply seq_group_lazy_inv in H as (pre & s' & -> & Hne & Hp & H & Hmin).
  apply seq_opt_lit_inv in H as (o & s'' & -> & Ho & H).
  simpl in H. destruct s''; [|discriminate]. injection H as <-.
  rewrite app_nil_r in *.
  split; [now destruct pre|].
  destruct Ho as [-> | ->].
  - split; [rewrite forallb_app, Hp; reflexivity|]. f_equal.
    unfold stripGit. rewrite endsWith_app, length_app.
    replace (4 <? List.length pre + List.length (L ".git")) with true.
    + simpl List.length. replace (List.length pre + 4 - 4) with (List.length pre) by lia.
      rewrite firstn_app, Nat.sub_diag, firstn_all. simpl. now rewrite app_nil_r.
    + symmetry. apply Nat.ltb_lt. simpl. destruct pre; [congruence | simpl; lia].
  - rewrite app_nil_r in *. split; [assumption|]. f_equal.
    unfold stripGit.
    destruct (endsWith pre (L ".git") && (4 <? List.length pre)) eqn:E;
      [exfalso | reflexivity].
    apply andb_true_iff in E as [E1 E2]. apply Nat.ltb_lt in E2.
    apply endsWith_inv in E1 as [front E1].
    assert (Hf : front <> []).
    { intros ->. subst pre. simpl in E2. lia. }
    assert (Hlen : List.length front < List.length pre).
    { subst pre. rewrite length_app. simpl. lia. }
    specialize (Hmin front (L ".git") E1 Hf Hlen). discriminate Hmin.
Qed.

End MatcherFacts.

(** ** The matcher: inputs on which it succeeds *)

Section MatcherRuns.

Lemma matchLit_app (l : str) (k : cont) (s : str) (cs : caps) :
  matchLit l k (l ++ s) cs = k s cs.
Proof. induction l as [|c l IH]; simpl; [reflexivity | now rewrite Ascii.eqb_refl]. Qed.

Lemma starGreedy_run (p : ascii -> bool) (k : cont) (pre s' : str) (cs x : caps) :
  forallb p pre = true -> stops p s' -> k s' cs = Some x ->
  starGreedy p k (pre ++ s') cs = Some x.
Proof.
  intros Hp Hstop Hk. induction pre as [|c pre IH]; simpl in *.
  - destruct s' as [|c s']; simpl in *; [assumption | now rewrite Hstop].
  - apply andb_true_iff in Hp as [Hc Hp]. now rewrite Hc, (IH Hp).
Qed.

Lemma starLazy_run (p : ascii -> bool) (k : cont) (pre s' : str) (cs x : caps) :
  forallb p pre = true -> k s' cs = Some x ->
  (forall a b, pre = a ++ b -> b <> [] -> k (b ++ s') cs = None) ->
  starLazy p k (pre ++ s') cs = Some x.
Proof.
  revert k. induction pre as [|c pre IH]; intros k Hp Hk Hmin.
  - simpl. destruct s'; simpl; now rewrite Hk.
  - simpl in Hp. apply andb_true_iff in Hp as [Hc Hp].
    cbn [app starLazy].
    assert (H0 : k (c :: pre ++ s') cs = None)
      by (apply (Hmin [] (c :: pre)); [reflexivity | discriminate]).
    rewrite H0, Hc.
    apply IH; trivial. intros a b -> Hb. now apply (Hmin (c :: a) b).
Qed.

Lemma seq_lit_run (l : str) (r : regex) (k : cont) (s : str) (cs : caps) :
  m (Seq (Lit l) r) k (l ++ s) cs = m r k s cs.
Proof. apply matchLit_app. Qed.

Lemma seq_opt_lit_run (l : str) (r : regex) (k : cont) (s : str) (cs x : caps) :
  m r k s cs = Some x -> m (Seq (Opt (Lit l)) r) k (l ++ s) cs = Some x.
Proof. intros H. simpl. now rewrite matchLit_app, H. Qed.

Lemma seq_group_plus_run (i : nat) (p : ascii -> bool) (r : regex) (k : cont)
      (pre s' : str) (cs x : caps) :
  pre <> [] -> forallb p pre = true -> stops p s' ->
  m r k s' (setCap i pre cs) = Some x ->
  m (Seq (Group i (Plus p)) r) k (pre ++ s') cs = Some x.
Proof.
  intros Hne Hp Hstop Hk. destruct pre as [|c pre]; [congruence|].
  simpl in Hp. apply andb_true_iff in Hp as [Hc Hp].
  cbn [m app plus]. rewrite Hc. apply starGreedy_run; trivial.
  change (c :: pre ++ s') with ((c :: pre) ++ s'). now rewrite consumed_app.
Qed.

Lemma seq_group_lazy_run (i : nat) (p : ascii -> bool) (r : regex) (k : cont)
      (pre s' : str) (cs x : caps) :
  pre <> [] -> forallb p pre = true ->
  m r k s' (setCap i pre cs) = Some x ->
  (forall a b, pre = a ++ b -> a <> [] -> b <> [] ->
               m r k (b ++ s') (setCap i a cs) = None) ->
  m (Seq (Group i (PlusLazy p)) r) k (pre ++ s') cs = Some x.
Proof.
  intros Hne Hp Hk Hmin. destruct pre as [|c pre]; [congruence|].
  simpl in Hp. apply andb_true_iff in Hp as [Hc Hp].
  cbn [m app plus]. rewrite Hc. apply starLazy_run; trivial.
  - change (c :: pre ++ s') with ((c :: pre) ++ s'). now rewrite consumed_app.
  - intros a b -> Hb.
    change (c :: (a ++ b) ++ s') with ((c :: a ++ b) ++ s').
    replace ((c :: a ++ b) ++ s') with ((c :: a) ++ b ++ s')
      by (simpl; now rewrite app_assoc).
    rewrite consumed_app. apply Hmin; [reflexivity | discriminate | exact Hb].
Qed.

Lemma matchRe_here (r : regex) (s : str) (g : caps) :
  m r accept s noCaps = Some g -> matchRe r s = Some g.
Proof. intros H. destruct s; simpl; now rewrite H. Qed.

(** After the repository name only nothing or one [.git] may follow. *)
Lemma gitEnd_none (s : str) (cs : caps) :
  s <> [] -> s <> L ".git" ->
  m (Seq (Opt (Lit (L ".git"))) Eos) accept s cs = None.
Proof.
  intros Hne Hgit.
  destruct (m (Seq (Opt (Lit (L ".git"))) Eos) accept s cs) as [x|] eqn:E;
    [exfalso | reflexivity].
  apply seq_opt_lit_inv in E as (o & s' & -> & Ho & E).
  simpl in E. destruct s'; [|discriminate].
  destruct Ho as [-> | ->]; [now apply Hgit | now apply Hne].
Qed.

(** The end of every pattern accepts a whole last segment. *)
Lemma repoTail_run (seg : str) (cs : caps) :
  repoSegment seg = true ->
  m (cat repoTail) accept seg cs = Some (setCap 3 (stripGit seg) cs).
Proof.
  change (cat repoTail)
    with (Seq (Group 3 (PlusLazy notSlashWs)) (Seq (Opt (Lit (L ".git"))) Eos)).
  unfold repoSegment. intros H. apply andb_true_iff in H as [Hne Hp].
  assert (Hseg : seg <> []) by (intros ->; discriminate). clear Hne.
  unfold stripGit.
  destruct (endsWith seg (L ".git") && (4 <? List.length seg)) eqn:E.
  - apply andb_true_iff in E as [E1 E2]. apply Nat.ltb_lt in E2.
    apply endsWith_inv in E1 as [x ->].
    rewrite length_app in *. simpl List.length in *.
    replace (List.length x + 4 - 4) with (List.length x) by lia.
    rewrite firstn_app, Nat.sub_diag, firstn_all. simpl firstn. rewrite app_nil_r.
    rewrite forallb_app in Hp. apply andb_true_iff in Hp as [Hp _].
    apply seq_group_lazy_run; trivial.
    + destruct x; [simpl in E2; lia | discriminate].
    + intros a b -> Ha Hb. apply gitEnd_none.
      * destruct b; [congruence | discriminate].
      * intros Hx. apply (f_equal (@List.length ascii)) in Hx.
        rewrite length_app in Hx. simpl in Hx. destruct b; [congruence | simpl in Hx; lia].
  - rewrite <- (app_nil_r seg) at 1. apply seq_group_lazy_run; trivial.
    intros a b -> Ha Hb. rewrite app_nil_r. apply gitEnd_none; trivial.
    intros ->. rewrite endsWith_app, length_app in E. simpl in E.
    destruct a as [|c a]; [congruence|]. cbn [List.length andb] in E.
    apply Nat.ltb_ge in E. lia.
Qed.

Lemma join_owner (segs : list str) :
  segs <> [] -> forallb ownerSegment segs = true ->
  join segs <> [] /\ forallb dot (join segs) = true.
Proof.
  induction segs as [|sg segs IH]; [congruence|]. intros _ H.
  cbn [forallb] in H. apply andb_true_iff in H as [Hsg Hsegs].
  unfold ownerSegment in Hsg. apply andb_true_iff in Hsg as [Hne Hp].
  assert (Hd : forallb dot sg = true).
  { clear Hne. induction sg as [|c sg IHs]; [reflexivity|]. simpl in *.
    apply andb_true_iff in Hp as [Hc Hp]. apply andb_true_iff in Hc as [_ Hc].
    now rewrite Hc, IHs. }
  destruct segs as [|sg' segs].
  - simpl. split; [|exact Hd]. intros ->. discriminate.
  - cbn [join]. split; [intros Hx; apply app_eq_nil in Hx as [_ Hx]; discriminate|].
    rewrite forallb_app, Hd. cbn [forallb andb].
    destruct IH as [_ IH]; [discriminate | exact Hsegs|]. exact IH.
Qed.

(** The common middle of the three generic patterns, [(.+?)\/] and the end:
    on a nested path the lazy group runs to the last slash. *)
Lemma ownerRepo_run (segs : list str) (seg : str) (cs : caps) :
  nestedPath segs seg = true ->
  m (cat ([Group 2 (PlusLazy dot); Lit (L "/")] ++ repoTail)) accept
    (join segs ++ "/"%char :: seg) cs
  = Some (setCap 3 (stripGit seg) (setCap 2 (join segs) cs)).
Proof.
  unfold nestedPath. intros H. apply andb_true_iff in H as [H Hseg].
  apply andb_true_iff in H as [Hne Hsegs].
  assert (Hsegs' : segs <> []) by (intros ->; discriminate).
  destruct (join_owner segs Hsegs' Hsegs) as [Hj Hd].
  change (cat ([Group 2 (PlusLazy dot); Lit (L "/")] ++ repoTail))
    with (Seq (Group 2 (PlusLazy dot)) (Seq (Lit (L "/")) (cat repoTail))).
  apply seq_group_lazy_run; trivial.
  - change ("/"%char :: seg) with (L "/" ++ seg). rewrite seq_lit_run.
    now apply repoTail_run.
  - intros a b _ _ Hb.
    destruct (m (Seq (Lit (L "/")) (cat repoTail)) accept
                (b ++ "/"%char :: seg) (setCap 2 a cs)) as [x|] eqn:E;
      [exfalso | reflexivity].
    apply seq_lit_inv in E as (s' & Es & E).
    apply repoTail_inv in E as (_ & Hp & _).
    destruct b as [|c b]; [congruence|]. simpl in Es. injection Es as _ <-.
    rewrite forallb_app in Hp. apply andb_true_iff in Hp as [_ Hp].
    discriminate Hp.
Qed.

End MatcherRuns.

(** ** The five patterns *)

Section PatternFacts.

Ltac unfold_pattern H :=
  cbv [azureHttpsRe azureSshRe httpsRe sshRe sshUrlRe] in H;
  cbn [cat app] in H.

Ltac read_lit H := apply seq_lit_inv in H as (? & -> & H).

Ltac close_shape front seg :=
  exists front, seg; cbn [setCap Nat.eqb];
  repeat split; trivial;
  repeat rewrite <- app_assoc; reflexivity.

Lemma azureHttpsRe_shape (t : str) (g : caps) :
  matchRe azureHttpsRe t = Some g -> parsedShape t g.
Proof.
  intros H. apply matchRe_inv in H as (skipped & s0 & -> & H).
  unfold_pattern H. read_lit H.
  apply seq_opt_lit_inv in H as (o & ? & -> & _ & H). read_lit H.
  apply seq_group_plus_inv in H as (org & ? & -> & Horg & _ & H). read_lit H.
  apply seq_group_plus_inv in H as (project & ? & -> & Hproject & _ & H).
  apply seq_lit_inv in H as (seg & -> & H).
  apply repoTail_inv in H as (Hseg & Hp & ->).
  close_shape (skipped ++ L "http" ++ o ++ L "://dev.azure.com/" ++ org ++ L "/"
               ++ project ++ L "/_git") seg.
Qed.

Lemma azureSshRe_shape (t : str) (g : caps) :
  matchRe azureSshRe t = Some g -> parsedShape t g.
Proof.
  intros H. apply matchRe_inv in H as (skipped & s0 & -> & H).
  unfold_pattern H. read_lit H.
  apply seq_group_plus_inv in H as (org & ? & -> & Horg & _ & H). read_lit H.
  apply seq_group_plus_inv in H as (project & ? & -> & Hproject & _ & H).
  apply seq_lit_inv in H as (seg & -> & H).
  apply repoTail_inv in H as (Hseg & Hp & ->).
  close_shape (skipped ++ L "git@ssh.dev.azure.com:v3/" ++ org ++ L "/" ++ project)
              seg.
Qed.

Lemma httpsRe_shape (t : str) (g : caps) :
  matchRe httpsRe t = Some g -> parsedShape t g.
Proof.
  intros H. apply matchRe_inv in H as (skipped & s0 & -> & H).
  unfold_pattern H. read_lit H.
  apply seq_opt_lit_inv in H as (o & ? & -> & _ & H). read_lit H.
  apply seq_group_plus_inv in H as (h & ? & -> & Hh & _ & H). read_lit H.
  apply seq_group_lazy_inv in H as (path & ? & -> & Hpath & _ & H & _).
  apply seq_lit_inv in H as (seg & -> & H).
  apply repoTail_inv in H as (Hseg & Hp & ->).
  close_shape (skipped ++ L "http" ++ o ++ L "://" ++ h ++ L "/" ++ path) seg.
Qed.

Lemma sshRe_shape (t : str) (g : caps) :
  matchRe sshRe t = Some g -> parsedShape t g.
Proof.
  intros H. apply matchRe_inv in H as (skipped & s0 & -> & H).
  unfold_pattern H. read_lit H.
  apply seq_group_plus_inv in H as (h & ? & -> & Hh & _ & H). read_lit H.
  apply seq_group_lazy_inv in H as (path & ? & -> & Hpath & _ & H & _).
  apply seq_lit_inv in H as (seg & -> & H).
  apply repoTail_inv in H as (Hseg & Hp & ->).
  close_shape (skipped ++ L "git@" ++ h ++ L ":" ++ path) seg.
Qed.

Lemma sshUrlRe_shape (t : str) (g : caps) :
  matchRe sshUrlRe t = Some g -> parsedShape t g.
Proof.
  intros H. apply matchRe_inv in H as (skipped & s0 & -> & H).
  unfold_pattern H. read_lit H.
  apply seq_group_plus_inv in H as (h & ? & -> & Hh & _ & H). read_lit H.
  apply seq_group_lazy_inv in H as (path & ? & -> & Hpath & _ & H & _).
  apply seq_lit_inv in H as (seg & -> & H).
  apply repoTail_inv in H as (Hseg & Hp & ->).
  close_shape (skipped ++ L "ssh://git@" ++ h ++ L "/" ++ path) seg.
Qed.

(** Whatever branch of [parseRemoteUrl] answers, the trimmed input ends in a
    slash and a last segment, [repo] is that segment without one trailing
    [.git], and [host], [owner] and [repo] are not empty. *)
Lemma parseRemoteUrl_inv (u : str) (r : RemoteUrlInfo) :
  parseRemoteUrl u = Some r ->
  exists front seg,
    trim u = front ++ "/"%char :: seg /\ seg <> [] /\
    forallb notSlashWs seg = true /\
    repo r = stripGit seg /\ host r <> [] /\ owner r <> [].
Proof.
  unfold parseRemoteUrl. intros H.
  destruct (matchRe azureHttpsRe (trim u)) as [g|] eqn:E1.
  { injection H as <-. apply azureHttpsRe_shape in E1.
    destruct E1 as (front & seg & E & Hseg & Hp & H3 & H1 & H2).
    exists front, seg. simpl. repeat split; trivial; try discriminate.
    intros Hx. now apply app_eq_nil in Hx as [Hx _]. }
  destruct (matchRe azureSshRe (trim u)) as [g|] eqn:E2.
  { injection H as <-. apply azureSshRe_shape in E2.
    destruct E2 as (front & seg & E & Hseg & Hp & H3 & H1 & H2).
    exists front, seg. simpl. repeat split; trivial; try discriminate.
    intros Hx. now apply app_eq_nil in Hx as [Hx _]. }
  destruct (matchRe httpsRe (trim u)) as [g|] eqn:E3.
  { injection H as <-. apply httpsRe_shape in E3.
    destruct E3 as (front & seg & E & Hseg & Hp & H3 & H1 & H2).
    exists front, seg. simpl. repeat split; trivial. }
  destruct (matchRe sshRe (trim u)) as [g|] eqn:E4.
  { injection H as <-. apply sshRe_shape in E4.
    destruct E4 as (front & seg & E & Hseg & Hp & H3 & H1 & H2).
    exists front, seg. simpl. repeat split; trivial. }
  destruct (matchRe sshUrlRe (trim u)) as [g|] eqn:E5; [|discriminate].
  injection H as <-. apply sshUrlRe_shape in E5.
  destruct E5 as (front & seg & E & Hseg & Hp & H3 & H1 & H2).
  exists front, seg. simpl. repeat split; trivial.
Qed.

End PatternFacts.

(** ** parseRemoteUrl *)

Section ParseFacts.

Lemma notSlashWs_notSlash (seg : str) :
  forallb notSlashWs seg = true -> forallb notSlash seg = true.
Proof.
  induction seg as [|c seg IH]; simpl; [reflexivity|].
  intros H. apply andb_true_iff in H as [Hc Hs]. rewrite (IH Hs).
  unfold notSlashWs in Hc. apply andb_true_iff in Hc as [Hc _].
  unfold notSlash. now rewrite Hc.
Qed.

Lemma parseRemoteUrl_trim (a b : str) :
  trim a = trim b -> parseRemoteUrl a = parseRemoteUrl b.
Proof. unfold parseRemoteUrl. now intros ->. Qed.

Lemma repeat_white (c : ascii) (n : nat) :
  isWhiteSpace c = true -> forallb isWhiteSpace (repeat c n) = true.
Proof. intros Hc. induction n as [|n IH]; simpl; [reflexivity | now rewrite Hc]. Qed.

(** An input that ends in a slash matches none of the patterns. *)
Lemma parseRemoteUrl_trailing_slash (u : str) :
  parseRemoteUrl (u ++ ["/"%char]) = None.
Proof.
  destruct (parseRemoteUrl (u ++ ["/"%char])) as [r|] eqn:E; [exfalso | reflexivity].
  apply parseRemoteUrl_inv in E as (front & seg & Et & Hseg & Hp & _).
  destruct (trim_last u "/"%char eq_refl) as [v Ev]. rewrite Ev in Et.
  destruct (exists_last Hseg) as (seg' & c & ->).
  change (front ++ "/"%char :: seg' ++ [c])
    with (front ++ ("/"%char :: seg') ++ [c]) in Et.
  rewrite app_assoc in Et. apply app_inj_tail in Et as [_ <-].
  rewrite forallb_app in Hp. apply andb_true_iff in Hp as [_ Hp].
  discriminate Hp.
Qed.

End ParseFacts.

(** ** Nested owner paths: the three generic forms *)

Section NestedPaths.

Lemma trim_clean (c : ascii) (body seg : str) :
  isWhiteSpace c = false -> repoSegment seg = true ->
  trim (c :: body ++ seg) = c :: body ++ seg.
Proof.
  intros Hc Hseg. unfold repoSegment in Hseg.
  apply andb_true_iff in Hseg as [Hne Hp].
  assert (Hs : seg <> []) by (intros ->; discriminate).
  destruct (exists_last Hs) as (seg' & d & ->).
  rewrite forallb_app in Hp. apply andb_true_iff in Hp as [_ Hd].
  cbn [forallb] in Hd. rewrite andb_true_r in Hd. unfold notSlashWs in Hd.
  apply andb_true_iff in Hd as [_ Hd]. apply negb_true_iff in Hd.
  unfold trim. cbn [trimStart]. rewrite Hc.
  replace (c :: body ++ seg' ++ [d]) with ((c :: body ++ seg') ++ [d])
    by (simpl; now rewrite <- app_assoc).
  unfold trimEnd. rewrite rev_app_distr. cbn [rev app trimStart]. rewrite Hd.
  cbn [rev]. now rewrite rev_app_distr, rev_involutive.
Qed.

Lemma seq_opt_lit_skip (l : str) (r : regex) (k : cont) (s : str) (cs : caps) :
  matchLit l (m r k) s cs = None ->
  m (Seq (Opt (Lit l)) r) k s cs = m r k s cs.
Proof. intros H. simpl. now rewrite H. Qed.

Lemma matchRe_skip (r : regex) (c : ascii) (s : str) :
  m r accept (c :: s) noCaps = None -> matchRe r (c :: s) = matchRe r s.
Proof. intros H. simpl. now rewrite H. Qed.

(** Generic HTTPS: [http(s)://host/owner-path/repo(.git)]. *)
Lemma parseRemoteUrl_https_nested (secure : bool) (h : str) (segs : list str)
      (seg : str) (t : str) :
  t = L "http" ++ (if secure then L "s" else []) ++ L "://" ++ h ++ L "/"
        ++ join segs ++ L "/" ++ seg ->
  h <> [] -> forallb notSlash h = true -> nestedPath segs seg = true ->
  matchRe azureHttpsRe t = None -> matchRe azureSshRe t = None ->
  parseRemoteUrl t
  = Some {| provider := detectProvider t; host := h;
            owner := join segs; repo := stripGit seg |}.
Proof.
  intros Et Hh Hp Hpath Ha1 Ha2.
  assert (Hseg : repoSegment seg = true).
  { unfold nestedPath in Hpath. now apply andb_true_iff in Hpath as [_ Hpath]. }
  assert (Htrim : trim t = t).
  { subst t. rewrite !app_assoc. apply (trim_clean "h"%char); [reflexivity | exact Hseg]. }
  assert (Hm : matchRe httpsRe t
               = Some (setCap 3 (stripGit seg) (setCap 2 (join segs) (setCap 1 h noCaps)))).
  { apply matchRe_here. subst t.
    change httpsRe
      with (Seq (Lit (L "http")) (Seq (Opt (Lit (L "s"))) (Seq (Lit (L "://"))
             (Seq (Group 1 (Plus notSlash)) (Seq (Lit (L "/"))
               (cat ([Group 2 (PlusLazy dot); Lit (L "/")] ++ repoTail))))))).
    rewrite seq_lit_run.
    assert (Hrest : m (Seq (Lit (L "://")) (Seq (Group 1 (Plus notSlash)) (Seq (Lit (L "/"))
                         (cat ([Group 2 (PlusLazy dot); Lit (L "/")] ++ repoTail)))))
                      accept (L "://" ++ h ++ L "/" ++ join segs ++ L "/" ++ seg) noCaps
                    = Some (setCap 3 (stripGit seg)
                                   (setCap 2 (join segs) (setCap 1 h noCaps)))).
    { rewrite seq_lit_run. apply seq_group_plus_run; trivial; [reflexivity|].
      rewrite seq_lit_run. now apply ownerRepo_run. }
    destruct secure.
    - now apply seq_opt_lit_run.
    - rewrite seq_opt_lit_skip by reflexivity. exact Hrest. }
  unfold parseRemoteUrl. rewrite Htrim, Ha1, Ha2, Hm. reflexivity.
Qed.

(** Generic SCP-style SSH: [git@host:owner-path/repo(.git)]. *)
Lemma parseRemoteUrl_scp_nested (h : str) (segs : list str) (seg : str) (t : str) :
  t = L "git@" ++ h ++ L ":" ++ join segs ++ L "/" ++ seg ->
  h <> [] -> forallb notColon h = true -> nestedPath segs seg = true ->
  matchRe azureHttpsRe t = None -> matchRe azureSshRe t = None ->
  matchRe httpsRe t = None ->
  parseRemoteUrl t
  = Some {| provider := detectProvider t; host := h;
            owner := join segs; repo := stripGit seg |}.
Proof.
  intros Et Hh Hp Hpath Ha1 Ha2 Ha3.
  assert (Hseg : repoSegment seg = true).
  { unfold nestedPath in Hpath. now apply andb_true_iff in Hpath as [_ Hpath]. }
  assert (Htrim : trim t = t).
  { subst t. rewrite !app_assoc. apply (trim_clean "g"%char); [reflexivity | exact Hseg]. }
  assert (Hm : matchRe sshRe t
               = Some (setCap 3 (stripGit seg) (setCap 2 (join segs) (setCap 1 h noCaps)))).
  { apply matchRe_here. subst t.
    change sshRe
      with (Seq (Lit (L "git@")) (Seq (Group 1 (Plus notColon)) (Seq (Lit (L ":"))
               (cat ([Group 2 (PlusLazy dot); Lit (L "/")] ++ repoTail))))).
    rewrite seq_lit_run. apply seq_group_plus_run; trivial; [reflexivity|].
    rewrite seq_lit_run. now apply ownerRepo_run. }
  unfold parseRemoteUrl. rewrite Htrim, Ha1, Ha2, Ha3, Hm. reflexivity.
Qed.

(** Generic ssh:// form: [ssh://git@host/owner-path/repo(.git)], when the
    SCP-style pattern, tried before, does not match. *)
Lemma parseRemoteUrl_sshUrl_nested (h : str) (segs : list str) (seg : str) (t : str) :
  t = L "ssh://git@" ++ h ++ L "/" ++ join segs ++ L "/" ++ seg ->
  h <> [] -> forallb notSlash h = true -> nestedPath segs seg = true ->
  matchRe azureHttpsRe t = None -> matchRe azureSshRe t = None ->
  matchRe httpsRe t = None -> matchRe sshRe t = None ->
  parseRemoteUrl t
  = Some {| provider := detectProvider t; host := h;
            owner := join segs; repo := stripGit seg |}.
Proof.
  intros Et Hh Hp Hpath Ha1 Ha2 Ha3 Ha4.
  assert (Hseg : repoSegment seg = true).
  { unfold nestedPath in Hpath. now apply andb_true_iff in Hpath as [_ Hpath]. }
  assert (Htrim : trim t = t).
  { subst t. rewrite !app_assoc. apply (trim_clean "s"%char); [reflexivity | exact Hseg]. }
  assert (Hm : matchRe sshUrlRe t
               = Some (setCap 3 (stripGit seg) (setCap 2 (join segs) (setCap 1 h noCaps)))).
  { apply matchRe_here. subst t.
    change sshUrlRe
      with (Seq (Lit (L "ssh://git@")) (Seq (Group 1 (Plus notSlash)) (Seq (Lit (L "/"))
               (cat ([Group 2 (PlusLazy dot); Lit (L "/")] ++ repoTail))))).
    rewrite seq_lit_run. apply seq_group_plus_run; trivial; [reflexivity|].
    rewrite seq_lit_run. now apply ownerRepo_run. }
  unfold parseRemoteUrl. rewrite Htrim, Ha1, Ha2, Ha3, Ha4, Hm. reflexivity.
Qed.

(** The SCP-style pattern needs a colon after [git@]: on an ssh:// URL
    without a colon behind the scheme it does not match. *)
Lemma sshRe_needs_colon (rest : str) :
  forallb notColon rest = true -> matchRe sshRe (L "ssh://" ++ rest) = None.
Proof.
  intros Hp. cbn [L list_ascii_of_string app].
  do 6 (rewrite matchRe_skip by reflexivity).
  destruct (matchRe sshRe rest) as [g|] eqn:E; [exfalso | reflexivity].
  apply matchRe_inv in E as (skipped & s0 & -> & H).
  cbv [sshRe] in H. cbn [cat app] in H.
  apply seq_lit_inv in H as (? & -> & H).
  apply seq_group_plus_inv in H as (h & ? & -> & _ & _ & H).
  apply seq_lit_inv in H as (? & -> & _).
  rewrite !forallb_app in Hp.
  do 3 (apply andb_true_iff in Hp as [_ Hp]).
  apply andb_true_iff in Hp as [Hp _]. discriminate Hp.
Qed.

Example https_three_owner_segments :
  parseRemoteUrl (L "https://gitlab.com/a/b/c/repo.git")
  = Some {| provider := gitlab; host := L "gitlab.com";
            owner := L "a/b/c"; repo := L "repo" |}.
Proof.
  apply (parseRemoteUrl_https_nested true (L "gitlab.com")
           [L "a"; L "b"; L "c"] (L "repo.git"));
    first [reflexivity | discriminate | vm_compute; reflexivity].
Qed.

Example sshUrl_two_owner_segments :
  parseRemoteUrl (L "ssh://git@gitlab.com/group/subgroup/repo.git")
  = Some {| provider := gitlab; host := L "gitlab.com";
            owner := L "group/subgroup"; repo := L "repo" |}.
Proof.
  apply (parseRemoteUrl_sshUrl_nested (L "gitlab.com")
           [L "group"; L "subgroup"] (L "repo.git"));
    first [reflexivity | discriminate | vm_compute; reflexivity
          | apply (sshRe_needs_colon (L "git@gitlab.com/group/subgroup/repo.git"));
            reflexivity].
Qed.

End NestedPaths.

(** C1: parseRemoteUrl reproduces the canonical input table: the nested
    GitLab HTTPS URL gives owner a/b/c and repo repo, the Azure DevOps SSH
    URL gives host dev.azure.com and owner org/project, and both
    not-a-url and the empty string give no result. *)
Theorem parseRemoteUrl_canonical_table :
  parseRemoteUrl (L "https://gitlab.com/a/b/c/repo.git")
  = Some {| provider := gitlab; host := L "gitlab.com";
            owner := L "a/b/c"; repo := L "repo" |} /\
  parseRemoteUrl (L "git@ssh.dev.azure.com:v3/org/project/repo")
  = Some {| provider := azure_devops; host := L "dev.azure.com";
            owner := L "org/project"; repo := L "repo" |} /\
  parseRemoteUrl (L "not-a-url") = None /\
  parseRemoteUrl [] = None.
Proof. repeat split; vm_compute; reflexivity. Qed.

(** C2: on the ssh:// URL with a port, ssh://git@example.com:2222/group/repo.git,
    whose path is the owner segment group and the repository segment
    repo.git, parseRemoteUrl answers through the SCP-style pattern, tried
    before the ssh:// pattern: the owner is 2222/group and not group.  The
    ssh:// pattern itself reads host example.com:2222 and owner group. *)
Theorem parseRemoteUrl_ssh_url_port :
  parseRemoteUrl (L "ssh://git@example.com:2222/group/repo.git")
  = Some {| provider := unknown; host := L "example.com";
            owner := L "2222/group"; repo := L "repo" |} /\
  option_map groups (matchRe sshRe (L "ssh://git@example.com:2222/group/repo.git"))
  = Some (L "example.com", L "2222/group", L "repo") /\
  option_map groups (matchRe sshUrlRe (L "ssh://git@example.com:2222/group/repo.git"))
  = Some (L "example.com:2222", L "group", L "repo").
Proof. repeat split; vm_compute; reflexivity. Qed.

(** C3: the Azure DevOps check comes before the GitHub check: every input
    that contains both dev.azure.com and github.com is classified
    azure-devops. *)
Theorem detectProvider_azure_before_github (u : str) :
  includes u (L "dev.azure.com") = true ->
  includes u (L "github.com") = true ->
  detectProvider u = azure_devops.
Proof.
  intros Hazure _. unfold detectProvider, toLowerCase.
  now rewrite (includes_map lowerUnit u (L "dev.azure.com") eq_refl Hazure).
Qed.

Lemma detectProvider_azure_before_github_witness :
  includes (L "https://dev.azure.com/github.com/repo") (L "dev.azure.com") = true /\
  includes (L "https://dev.azure.com/github.com/repo") (L "github.com") = true /\
  detectProvider (L "https://dev.azure.com/github.com/repo") = azure_devops.
Proof.
  split; [reflexivity|]. split; [reflexivity|].
  apply (detectProvider_azure_before_github
           (L "https://dev.azure.com/github.com/repo")); reflexivity.
Defined.

(** C4, as the claim states it, fails: a last segment repo.git.git gives the
    repo repo.git, and a last segment .git gives the repo .git. *)
Lemma parseRemoteUrl_repo_keeps_git :
  (exists r, parseRemoteUrl (L "https://github.com/user/repo.git.git") = Some r /\
             repo r = L "repo.git" /\ endsWith (repo r) (L ".git") = true) /\
  (exists r, parseRemoteUrl (L "https://github.com/user/.git") = Some r /\
             repo r = L ".git" /\ endsWith (repo r) (L ".git") = true).
Proof. split; eexists; repeat split; vm_compute; reflexivity. Qed.

(** C4, amended: on every input parseRemoteUrl accepts, repo is the last
    segment of the trimmed input without one trailing .git (kept when
    nothing else would be left); so repo ends in .git only when that
    segment ends in .git.git or is .git itself. *)
Theorem parseRemoteUrl_repo_strips_one_git (u : str) (r : RemoteUrlInfo) :
  parseRemoteUrl u = Some r ->
  repo r = stripGit (lastSegment (trim u)) /\
  (endsWith (repo r) (L ".git") = true ->
   lastSegment (trim u) = L ".git" \/
   endsWith (lastSegment (trim u)) (L ".git.git") = true).
Proof.
  intros H. apply parseRemoteUrl_inv in H as (front & seg & -> & Hseg & Hp & Hr & _).
  rewrite lastSegment_slash by now apply notSlashWs_notSlash.
  split; [exact Hr|]. rewrite Hr. clear Hr. unfold stripGit.
  destruct (endsWith seg (L ".git") && (4 <? List.length seg)) eqn:E; intros Hend.
  - right. apply andb_true_iff in E as [E _].
    apply endsWith_inv in E as [x ->].
    rewrite length_app in Hend. simpl List.length in Hend.
    replace (List.length x + 4 - 4) with (List.length x) in Hend by lia.
    rewrite firstn_app, Nat.sub_diag, firstn_all in Hend. simpl in Hend.
    rewrite app_nil_r in Hend. apply endsWith_inv in Hend as [y ->].
    rewrite <- app_assoc. apply (endsWith_app y (L ".git.git")).
  - left. rewrite Hend in E. simpl in E. apply Nat.ltb_ge in E.
    apply endsWith_inv in Hend as [x ->].
    rewrite length_app in E. simpl in E.
    destruct x; [reflexivity | simpl in E; lia].
Qed.

Lemma parseRemoteUrl_repo_strips_one_git_witness :
  parseRemoteUrl (L "https://github.com/user/repo.git.git")
  = Some {| provider := github; host := L "github.com";
            owner := L "user"; repo := L "repo.git" |} /\
  L "repo.git"
  = stripGit (lastSegment (trim (L "https://github.com/user/repo.git.git"))).
Proof.
  assert (H : parseRemoteUrl (L "https://github.com/user/repo.git.git")
              = Some {| provider := github; host := L "github.com";
                        owner := L "user"; repo := L "repo.git" |})
    by (vm_compute; reflexivity).
  split; [exact H|].
  exact (proj1 (parseRemoteUrl_repo_strips_one_git
                  (L "https://github.com/user/repo.git.git") _ H)).
Defined.

(** C5, as the claim states it, fails: with a slash appended the URL is no
    longer parsed. *)
Lemma parseRemoteUrl_trailing_slash_differs :
  parseRemoteUrl (L "https://github.com/user/repo")
  = Some {| provider := github; host := L "github.com";
            owner := L "user"; repo := L "repo" |} /\
  parseRemoteUrl (L "https://github.com/user/repo" ++ L "/") = None.
Proof. split; vm_compute; reflexivity. Qed.

(** C5, amended: spaces added in front and behind, and a newline appended,
    do not change what parseRemoteUrl returns (the padded
    https://github.com/user/repo.git parses to github, github.com, user,
    repo); an input with a slash appended is never parsed. *)
Theorem parseRemoteUrl_whitespace (u : str) (n k : nat) :
  parseRemoteUrl (repeat " "%char n ++ u ++ repeat " "%char k) = parseRemoteUrl u /\
  parseRemoteUrl (u ++ ["010"%char]) = parseRemoteUrl u /\
  parseRemoteUrl (u ++ ["/"%char]) = None /\
  parseRemoteUrl (L "  https://github.com/user/repo.git  ")
  = Some {| provider := github; host := L "github.com";
            owner := L "user"; repo := L "repo" |}.
Proof.
  split; [|split; [|split]].
  - apply parseRemoteUrl_trim, trim_white; now apply repeat_white.
  - apply parseRemoteUrl_trim. apply (trim_white [] u ["010"%char]); reflexivity.
  - apply parseRemoteUrl_trailing_slash.
  - vm_compute. reflexivity.
Qed.

(** C7: parseRemoteUrl returns nothing, or a value all of whose text fields,
    owner and repo among them, are non-empty. *)
Theorem parseRemoteUrl_fully_populated (u : str) :
  parseRemoteUrl u = None \/
  exists r, parseRemoteUrl u = Some r /\
            owner r <> [] /\ repo r <> [] /\ host r <> [].
Proof.
  destruct (parseRemoteUrl u) as [r|] eqn:E; [right | now left].
  exists r. split; [reflexivity|].
  apply parseRemoteUrl_inv in E as (front & seg & _ & Hseg & _ & Hr & Hh & Ho).
  repeat split; trivial. rewrite Hr. now apply stripGit_nonempty.
Qed.

(** ** detectProvider *)

Section DetectFacts.

Lemma units_all (P : ascii -> bool) :
  forallb P allUnits = true -> forall c, P c = true.
Proof.
  intros H c. rewrite forallb_forall in H. apply H.
  rewrite <- (ascii_nat_embedding c). apply in_map, in_seq.
  pose proof (nat_ascii_bounded c). lia.
Qed.

Lemma startsWith_caseless (s pat : str) :
  forallb caseless pat = true ->
  startsWith (map canonicalize (toLowerCase s)) (map canonicalize pat)
  = startsWith (toLowerCase s) pat.
Proof.
  revert s. induction pat as [|p pat IH]; intros s H; [reflexivity|].
  cbn [forallb] in H. apply andb_true_iff in H as [Hp Hpat].
  destruct s as [|c s]; [reflexivity|]. cbn [toLowerCase map startsWith].
  fold (toLowerCase s). rewrite (IH s Hpat). f_equal.
  apply eqb_prop. exact (units_all _ Hp c).
Qed.

Lemma includes_caseless (s pat : str) :
  forallb caseless pat = true ->
  testIgnoreCase pat (toLowerCase s) = includes (toLowerCase s) pat.
Proof.
  intros H. unfold testIgnoreCase. induction s as [|c s IH].
  - cbn [toLowerCase map includes]. rewrite !orb_false_r.
    exact (startsWith_caseless [] pat H).
  - cbn [toLowerCase map includes]. fold (toLowerCase s).
    rewrite <- IH. f_equal. exact (startsWith_caseless (c :: s) pat H).
Qed.

(** The cascade, with the three case-insensitive tests read as plain
    substring tests (the text is lower-cased already). *)
Lemma detectProvider_cascade (u : str) :
  detectProvider u =
  let url := toLowerCase u in
  if includes url (L "dev.azure.com") || includes url (L "ssh.dev.azure.com")
     || includes url (L "visualstudio.com")
  then azure_devops
  else if includes url (L "github.com") then github
  else if includes url (L "gitlab.com") then gitlab
  else if includes url (L "bitbucket.org") then bitbucket
  else if includes url (L "gitlab") then gitlab
  else if includes url (L "gitea") then gitea
  else if includes url (L "forgejo") then forgejo
  else unknown.
Proof.
  unfold detectProvider.
  rewrite !includes_caseless by (vm_compute; reflexivity). reflexivity.
Qed.

Lemma detectProvider_unknown (u : str) :
  detectProvider u = unknown <-> markerIn (toLowerCase u) = false.
Proof.
  rewrite detectProvider_cascade. unfold markerIn, markers. cbn [existsb].
  cbv zeta.
  repeat match goal with
         | |- context [includes ?a ?b] => destruct (includes a b)
         end; cbn; split; congruence.
Qed.

Lemma markers_lower (marker : str) :
  In marker markers -> toLowerCase marker = marker.
Proof.
  unfold markers. cbn [In]. intros H.
  repeat (destruct H as [<- | H]; [reflexivity|]). contradiction.
Qed.

End DetectFacts.

(** C6, as the claim states it, fails: the URL
    https://example.com/github.com/repo has the hostname example.com, in
    which none of the listed hostnames or keywords occurs, and is classified
    github because of its path. *)
Lemma detectProvider_reads_path :
  option_map host (parseRemoteUrl (L "https://example.com/github.com/repo"))
  = Some (L "example.com") /\
  markerIn (toLowerCase (L "example.com")) = false /\
  detectProvider (L "https://example.com/github.com/repo") = github.
Proof. repeat split; vm_compute; reflexivity. Qed.

(** C6, amended: detectProvider tests the whole lower-cased URL, not its
    hostname, at every step of the cascade.  The result is azure-devops
    exactly when dev.azure.com, ssh.dev.azure.com or visualstudio.com occurs
    somewhere in the lower-cased URL; github exactly when none of these
    does and github.com occurs; gitlab exactly when none of the former does
    and gitlab.com occurs, or bitbucket.org does not and gitlab occurs;
    bitbucket exactly when none of the former does and bitbucket.org occurs;
    gitea, then forgejo, exactly when none of the former does and the
    keyword occurs; unknown exactly when none of the listed hostnames and
    keywords occurs anywhere in the lower-cased URL.  So the result is
    github only if github.com occurs in the URL, and a URL in which one of
    them occurs at any place, hostname or path, is not classified unknown. *)
Theorem detectProvider_whole_url (u : str) :
  (detectProvider u = unknown <-> markerIn (toLowerCase u) = false) /\
  (detectProvider u = github -> includes (toLowerCase u) (L "github.com") = true) /\
  (forall front marker back,
      u = front ++ marker ++ back -> In marker markers ->
      detectProvider u <> unknown) /\
  (detectProvider u = azure_devops <-> azureMarked u = true) /\
  (detectProvider u = github <->
   azureMarked u = false /\ occurs u (L "github.com") = true) /\
  (detectProvider u = gitlab <->
   azureMarked u = false /\ occurs u (L "github.com") = false /\
   (occurs u (L "gitlab.com") = true \/
    (occurs u (L "bitbucket.org") = false /\ occurs u (L "gitlab") = true))) /\
  (detectProvider u = bitbucket <->
   azureMarked u = false /\ occurs u (L "github.com") = false /\
   occurs u (L "gitlab.com") = false /\ occurs u (L "bitbucket.org") = true) /\
  (detectProvider u = gitea <->
   azureMarked u = false /\ occurs u (L "github.com") = false /\
   occurs u (L "gitlab.com") = false /\ occurs u (L "bitbucket.org") = false /\
   occurs u (L "gitlab") = false /\ occurs u (L "gitea") = true) /\
  (detectProvider u = forgejo <->
   azureMarked u = false /\ occurs u (L "github.com") = false /\
   occurs u (L "gitlab.com") = false /\ occurs u (L "bitbucket.org") = false /\
   occurs u (L "gitlab") = false /\ occurs u (L "gitea") = false /\
   occurs u (L "forgejo") = true).
Proof.
  split; [apply detectProvider_unknown|]. split; [|split].
  - rewrite detectProvider_cascade. cbv zeta.
    destruct (includes (toLowerCase u) (L "github.com")); [reflexivity|].
    repeat match goal with
           | |- context [includes ?a ?b] => destruct (includes a b)
           end; cbn; discriminate.
  - intros front marker back -> Hin Hu.
    apply detectProvider_unknown in Hu. unfold markerIn in Hu.
    enough (H : existsb (includes (toLowerCase (front ++ marker ++ back))) markers
                = true) by congruence.
    apply existsb_exists. exists marker. split; [exact Hin|].
    unfold toLowerCase. rewrite !map_app.
    fold (toLowerCase marker). rewrite (markers_lower marker Hin).
    apply includes_app.
  - rewrite detectProvider_cascade. unfold azureMarked, occurs. cbv zeta.
    destruct (includes (toLowerCase u) (L "dev.azure.com")); cbn [orb];
      [repeat split; intros; try discriminate; intuition discriminate|].
    destruct (includes (toLowerCase u) (L "ssh.dev.azure.com")); cbn [orb];
      [repeat split; intros; try discriminate; intuition discriminate|].
    destruct (includes (toLowerCase u) (L "visualstudio.com")); cbn [orb];
      [repeat split; intros; try discriminate; intuition discriminate|].
    destruct (includes (toLowerCase u) (L "github.com"));
      [repeat split; intros; try discriminate; intuition discriminate|].
    destruct (includes (toLowerCase u) (L "gitlab.com"));
      [repeat split; intros; try discriminate; intuition discriminate|].
    destruct (includes (toLowerCase u) (L "bitbucket.org"));
      [repeat split; intros; try discriminate; intuition discriminate|].
    destruct (includes (toLowerCase u) (L "gitlab"));
      [repeat split; intros; try discriminate; intuition discriminate|].
    destruct (includes (toLowerCase u) (L "gitea"));
      [repeat split; intros; try discriminate; intuition discriminate|].
    destruct (includes (toLowerCase u) (L "forgejo"));
      repeat split; intros; try discriminate; intuition discriminate.
Qed.

Lemma detectProvider_whole_url_witness :
  In (L "gitea") markers /\
  detectProvider (L "https://example.com/" ++ L "gitea" ++ L "/repo") <> unknown.
Proof.
  split; [cbn; tauto|].
  apply (proj1 (proj2 (proj2 (detectProvider_whole_url
                                (L "https://example.com/" ++ L "gitea" ++ L "/repo"))))
               (L "https://example.com/") (L "gitea") (L "/repo"));
    [reflexivity | cbn; tauto].
Defined.

(** ** The registry *)

Section RegistryFacts.
Import Registry.

Lemma reachable_cases (st : state) : reachable st -> st = initial \/ st = built.
Proof.
  induction 1 as [|st name _ [-> | ->]]; [now left | right; reflexivity ..].
Qed.

End RegistryFacts.

(** C10: in every state the module can reach, getProvider returns an
    adapter for each of the six registered names and nothing for unknown;
    gitea and forgejo get two distinct instances of the one class
    GiteaProvider; and after a first call every further call leaves the
    state as it is (the same registry map, six adapters constructed in all)
    and answers as before. *)
Theorem getProvider_registry (st : Registry.state) :
  Registry.reachable st ->
  (forall name, name <> unknown -> fst (Registry.getProvider name st) <> None) /\
  fst (Registry.getProvider unknown st) = None /\
  (exists a b,
      fst (Registry.getProvider gitea st) = Some a /\
      fst (Registry.getProvider forgejo st) = Some b /\
      Registry.class a = Registry.GiteaProvider /\
      Registry.class b = Registry.GiteaProvider /\
      Registry.ident a <> Registry.ident b) /\
  (forall name name',
      snd (Registry.getProvider name' (snd (Registry.getProvider name st)))
      = snd (Registry.getProvider name st) /\
      fst (Registry.getProvider name' (snd (Registry.getProvider name st)))
      = fst (Registry.getProvider name' st) /\
      Registry.constructed (snd (Registry.getProvider name st)) = 6).
Proof.
  intros Hst.
  assert (Hreg : forall name name',
             snd (Registry.getProvider name st) = Registry.built /\
             fst (Registry.getProvider name' st)
             = fst (Registry.getProvider name' Registry.built)).
  { intros name name'. destruct (reachable_cases st Hst) as [-> | ->];
      split; reflexivity. }
  split; [|split; [|split]].
  - intros name Hname. rewrite (proj2 (Hreg name name)).
    destruct name; try discriminate. congruence.
  - now rewrite (proj2 (Hreg unknown unknown)).
  - rewrite (proj2 (Hreg gitea gitea)), (proj2 (Hreg gitea forgejo)).
    do 2 eexists. repeat split; try reflexivity. cbn. discriminate.
  - intros name name'. rewrite (proj1 (Hreg name name)), (proj2 (Hreg name name')).
    repeat split; reflexivity.
Qed.

Lemma getProvider_registry_witness :
  Registry.reachable Registry.initial /\
  fst (Registry.getProvider unknown Registry.initial) = None.
Proof.
  split; [constructor|].
  apply (getProvider_registry Registry.initial). constructor.
Defined.

(** ** The Gitea adapter *)

Section GiteaFacts.
Import Gitea.

Lemma quiet_ret {A} (a : A) : quiet (ret a).
Proof. intros log. reflexivity. Qed.

Lemma quiet_throw {A} : quiet (@throw A).
Proof. intros log. reflexivity. Qed.

Lemma quiet_bind {A B} (c : io A) (f : A -> io B) :
  quiet c -> (forall a, quiet (f a)) -> quiet (bind c f).
Proof.
  intros Hc Hf log. unfold bind. specialize (Hc log).
  destruct (c log) as [[a|] log']; simpl in *; subst; [apply Hf | reflexivity].
Qed.

Lemma executes_bind {A B} (e : event) (c : io A) (f : A -> io B) :
  executes e c -> (forall a, quiet (f a)) -> executes e (bind c f).
Proof.
  intros Hc Hf log. unfold bind. specialize (Hc log).
  destruct (c log) as [[a|] log']; simpl in *; subst; [apply Hf | reflexivity].
Qed.

Lemma executes_execFileSync (w : World) (file : str) (args : list str) :
  executes (Exec file args) (execFileSync w file args).
Proof. intros log. reflexivity. Qed.

Lemma quiet_parse (w : World) (raw : str) : quiet (parse w raw).
Proof. unfold parse. destruct (JSON_parse w raw); [apply quiet_ret | apply quiet_throw]. Qed.

Lemma quiet_prop (o : value) (name : str) : quiet (prop o name).
Proof.
  destruct o as [[]|]; simpl; first [apply quiet_ret | apply quiet_throw].
Qed.

Lemma quiet_optProp (o : value) (name : str) : quiet (optProp o name).
Proof.
  unfold optProp. destruct (nullish o); [apply quiet_ret | apply quiet_prop].
Qed.

Lemma quiet_orElse (a : value) (b : io value) : quiet b -> quiet (orElse a b).
Proof. intros Hb. unfold orElse. destruct (nullish a); [exact Hb | apply quiet_ret]. Qed.

Lemma quiet_mapM {A B} (f : A -> io B) (l : list A) :
  (forall a, quiet (f a)) -> quiet (mapM f l).
Proof.
  intros Hf. induction l as [|a l IH]; simpl; [apply quiet_ret|].
  apply quiet_bind; [apply Hf|]. intros b.
  apply quiet_bind; [exact IH|]. intros bs. apply quiet_ret.
Qed.

Lemma quiet_labelNames (data : json) : quiet (labelNames data).
Proof.
  unfold labelNames. apply quiet_bind; [apply quiet_prop|]. intros ls.
  destruct (nullish ls); [apply quiet_ret|].
  destruct ls as [[]|]; try apply quiet_throw.
  apply quiet_bind; [|intros; apply quiet_ret].
  apply quiet_mapM. intros l. apply quiet_prop.
Qed.

Ltac quiet_steps :=
  repeat first
    [ apply quiet_ret | apply quiet_parse | apply quiet_prop
    | apply quiet_optProp | apply quiet_labelNames
    | apply quiet_orElse | apply quiet_bind; [|intros ?] ].

(** The CLI tier executes [tea], once, and nothing else. *)
Lemma teaPR_executes (w : World) (n : number) :
  executes (Exec (L "tea") [L "pr"; L "view"; String_ w n]) (teaPR w n).
Proof.
  unfold teaPR. apply executes_bind; [apply executes_execFileSync|].
  intros raw. quiet_steps.
Qed.

Lemma teaIssue_executes (w : World) (n : number) :
  executes (Exec (L "tea") [L "issues"; L "view"; String_ w n]) (teaIssue w n).
Proof.
  unfold teaIssue. apply executes_bind; [apply executes_execFileSync|].
  intros raw. quiet_steps.
Qed.

(** The guard of [viewPR] and [viewIssue] lets positive integers through
    and nothing else. *)
Lemma guard_rejects (n : number) :
  (forall z, (1 <= z)%Z -> ~ isInt n z) ->
  negb (Number_isInteger n) || lessThanOne n = true.
Proof.
  intros H. destruct n as [q| | |]; try reflexivity. simpl.
  destruct (Qnum q mod Z.pos (Qden q) =? 0)%Z eqn:E1; [|reflexivity]. simpl.
  destruct (Qle_bool 1 q) eqn:E2; [exfalso | reflexivity].
  apply Z.eqb_eq in E1. apply Qle_bool_iff in E2.
  destruct q as [a b]. unfold Qle in E2. simpl in *.
  apply Z.div_exact in E1; [|discriminate].
  apply (H (a / Z.pos b)%Z).
  - nia.
  - unfold Qeq. simpl. lia.
Qed.

Lemma guard_accepts (n : number) (z : Z) :
  (1 <= z)%Z -> isInt n z ->
  negb (Number_isInteger n) || lessThanOne n = false.
Proof.
  intros Hz H. destruct n as [q| | |]; try contradiction. simpl in *.
  destruct q as [a b]. unfold Qeq in H. simpl in *.
  assert (Ha : a = (z * Z.pos b)%Z) by lia. subst a.
  rewrite Z.mod_mul by discriminate. simpl.
  replace (Qle_bool 1 (z * Z.pos b # b)) with true; [reflexivity|].
  symmetry. apply Qle_bool_iff. unfold Qle. simpl. nia.
Qed.

(** [viewPR], case by case. *)
Lemma viewPR_cases (w : World) (n : number) (owner repo : option str) :
  run (viewPR w n owner repo) =
  if negb (Number_isInteger n) || lessThanOne n then (Return None, [])
  else match teaPR w n [] with
       | (Return info, log) => (Return (Some info), log)
       | (Throw, log) =>
           if falsy (process_env w (L "GITEA_URL")) || falsy owner || falsy repo
           then (Return None, log)
           else match curlPR w n (text (process_env w (L "GITEA_URL")))
                             (text owner) (text repo) log with
                | (Return info, log') => (Return (Some info), log')
                | (Throw, log') => (Return None, log')
                end
       end.
Proof.
  unfold run, viewPR.
  destruct (negb (Number_isInteger n) || lessThanOne n); [reflexivity|].
  unfold bind at 1. unfold tryCatch at 1. unfold bind at 1.
  destruct (teaPR w n []) as [[info|] log]; [reflexivity|].
  unfold ret at 1. unfold viewPRviaRest.
  destruct (falsy (process_env w (L "GITEA_URL")) || falsy owner || falsy repo);
    [reflexivity|].
  unfold tryCatch, bind.
  now destruct (curlPR w n _ _ _ log) as [[info|] log'].
Qed.

Lemma viewIssue_cases (w : World) (n : number) (owner repo : option str) :
  run (viewIssue w n owner repo) =
  if negb (Number_isInteger n) || lessThanOne n then (Return None, [])
  else match teaIssue w n [] with
       | (Return info, log) => (Return (Some info), log)
       | (Throw, log) =>
           if falsy (process_env w (L "GITEA_URL")) || falsy owner || falsy repo
           then (Return None, log)
           else match curlIssue w n (text (process_env w (L "GITEA_URL")))
                                (text owner) (text repo) log with
                | (Return info, log') => (Return (Some info), log')
                | (Throw, log') => (Return None, log')
                end
       end.
Proof.
  unfold run, viewIssue.
  destruct (negb (Number_isInteger n) || lessThanOne n); [reflexivity|].
  unfold bind at 1. unfold tryCatch at 1. unfold bind at 1.
  destruct (teaIssue w n []) as [[info|] log]; [reflexivity|].
  unfold ret at 1. unfold viewIssueviaRest.
  destruct (falsy (process_env w (L "GITEA_URL")) || falsy owner || falsy repo);
    [reflexivity|].
  unfold tryCatch, bind.
  now destruct (curlIssue w n _ _ _ log) as [[info|] log'].
Qed.

End GiteaFacts.

(** C8: for a number that is no positive integer (zero, negative, not an
    integer, NaN or infinite), viewPR and viewIssue return nothing at once:
    no subprocess is executed and no request is made. *)
Theorem gitea_rejects_number (w : Gitea.World) (n : Gitea.number)
        (owner repo : option str) :
  (forall z, (1 <= z)%Z -> ~ Gitea.isInt n z) ->
  Gitea.run (Gitea.viewPR w n owner repo) = (Gitea.Return None, []) /\
  Gitea.run (Gitea.viewIssue w n owner repo) = (Gitea.Return None, []).
Proof.
  intros H. rewrite viewPR_cases, viewIssue_cases.
  now rewrite (guard_rejects n H).
Qed.

Lemma gitea_rejects_number_witness :
  (forall z, (1 <= z)%Z -> ~ Gitea.isInt (Gitea.Fin (-1)) z) /\
  Gitea.run (Gitea.viewPR Gitea.deadWorld (Gitea.Fin (-1)) (Some (L "o")) (Some (L "r")))
  = (Gitea.Return None, []).
Proof.
  assert (H : forall z, (1 <= z)%Z -> ~ Gitea.isInt (Gitea.Fin (-1)) z).
  { intros z Hz. unfold Gitea.isInt, Qeq. simpl. lia. }
  split; [exact H|].
  apply (gitea_rejects_number Gitea.deadWorld (Gitea.Fin (-1)) (Some (L "o")) (Some (L "r")) H).
Defined.

(** C9: viewPR and viewIssue never throw.  When the CLI tier fails and
    GITEA_URL is unset or owner or repo is missing, they return nothing and
    curl is not executed; when the CLI tier and the REST tier both fail, they
    return nothing. *)
Theorem gitea_absent_on_failure (w : Gitea.World) (n : Gitea.number)
        (owner repo : option str) :
  (exists r, fst (Gitea.run (Gitea.viewPR w n owner repo)) = Gitea.Return r) /\
  (exists r, fst (Gitea.run (Gitea.viewIssue w n owner repo)) = Gitea.Return r) /\
  (Gitea.fails (Gitea.teaPR w n) ->
   Gitea.falsy (Gitea.process_env w (L "GITEA_URL"))
   || Gitea.falsy owner || Gitea.falsy repo = true ->
   fst (Gitea.run (Gitea.viewPR w n owner repo)) = Gitea.Return None /\
   Gitea.ran (L "curl") (snd (Gitea.run (Gitea.viewPR w n owner repo))) = false) /\
  (Gitea.fails (Gitea.teaIssue w n) ->
   Gitea.falsy (Gitea.process_env w (L "GITEA_URL"))
   || Gitea.falsy owner || Gitea.falsy repo = true ->
   fst (Gitea.run (Gitea.viewIssue w n owner repo)) = Gitea.Return None /\
   Gitea.ran (L "curl") (snd (Gitea.run (Gitea.viewIssue w n owner repo))) = false) /\
  (Gitea.fails (Gitea.teaPR w n) ->
   Gitea.fails (Gitea.curlPR w n (Gitea.text (Gitea.process_env w (L "GITEA_URL")))
                             (Gitea.text owner) (Gitea.text repo)) ->
   fst (Gitea.run (Gitea.viewPR w n owner repo)) = Gitea.Return None) /\
  (Gitea.fails (Gitea.teaIssue w n) ->
   Gitea.fails (Gitea.curlIssue w n (Gitea.text (Gitea.process_env w (L "GITEA_URL")))
                                (Gitea.text owner) (Gitea.text repo)) ->
   fst (Gitea.run (Gitea.viewIssue w n owner repo)) = Gitea.Return None).
Proof.
  rewrite viewPR_cases, viewIssue_cases.
  pose proof (teaPR_executes w n []) as Lpr.
  pose proof (teaIssue_executes w n []) as Lis.
  destruct (negb (Gitea.Number_isInteger n) || Gitea.lessThanOne n).
  { repeat split; intros; try split; try reflexivity; eexists; reflexivity. }
  split; [|split; [|split; [|split; [|split]]]].
  - destruct (Gitea.teaPR w n []) as [[info|] log]; [eexists; reflexivity|].
    destruct (_ || _); [eexists; reflexivity|].
    destruct (Gitea.curlPR w n _ _ _ log) as [[i|] log']; eexists; reflexivity.
  - destruct (Gitea.teaIssue w n []) as [[info|] log]; [eexists; reflexivity|].
    destruct (_ || _); [eexists; reflexivity|].
    destruct (Gitea.curlIssue w n _ _ _ log) as [[i|] log']; eexists; reflexivity.
  - intros Hcli ->. specialize (Hcli []).
    destruct (Gitea.teaPR w n []) as [[info|] log]; [discriminate|].
    simpl in *. subst log. split; reflexivity.
  - intros Hcli ->. specialize (Hcli []).
    destruct (Gitea.teaIssue w n []) as [[info|] log]; [discriminate|].
    simpl in *. subst log. split; reflexivity.
  - intros Hcli Hrest. specialize (Hcli []).
    destruct (Gitea.teaPR w n []) as [[info|] log]; [discriminate|].
    destruct (_ || _); [reflexivity|]. specialize (Hrest log).
    destruct (Gitea.curlPR w n _ _ _ log) as [[i|] log']; [discriminate | reflexivity].
  - intros Hcli Hrest. specialize (Hcli []).
    destruct (Gitea.teaIssue w n []) as [[info|] log]; [discriminate|].
    destruct (_ || _); [reflexivity|]. specialize (Hrest log).
    destruct (Gitea.curlIssue w n _ _ _ log) as [[i|] log']; [discriminate | reflexivity].
Qed.

Lemma gitea_absent_on_failure_witness :
  Gitea.fails (Gitea.teaPR Gitea.deadWorld (Gitea.Fin 7)) /\
  Gitea.falsy (Gitea.process_env Gitea.deadWorld (L "GITEA_URL"))
  || Gitea.falsy (Some (L "o")) || Gitea.falsy (Some (L "r")) = true /\
  fst (Gitea.run (Gitea.viewPR Gitea.deadWorld (Gitea.Fin 7) (Some (L "o")) (Some (L "r"))))
  = Gitea.Return None.
Proof.
  assert (H : Gitea.fails (Gitea.teaPR Gitea.deadWorld (Gitea.Fin 7))).
  { intros log. reflexivity. }
  split; [exact H|]. split; [reflexivity|].
  apply (proj1 (proj2 (proj2 (gitea_absent_on_failure
                                Gitea.deadWorld (Gitea.Fin 7) (Some (L "o")) (Some (L "r")))))
               H eq_refl).
Defined.

(* ================================================================== *)
(** * Further properties of the providers module *)

Section WhiteSpaceFacts.

Lemma startsWith_white_tail (u b pat : str) :
  forallb isWhiteSpace b = true -> plainText pat = true ->
  startsWith (u ++ b) pat = startsWith u pat.
Proof.
  intros Hb. revert u. induction pat as [|p pat IH]; intros u Hpat; [reflexivity|].
  cbn [plainText forallb] in Hpat. apply andb_true_iff in Hpat as [Hp Hpat].
  destruct u as [|c u]; cbn [app startsWith].
  - destruct b as [|d b]; [reflexivity|]. cbn [startsWith].
    cbn [forallb] in Hb. apply andb_true_iff in Hb as [Hd _].
    destruct (Ascii.eqb_spec d p) as [->|]; [|reflexivity].
    rewrite Hd in Hp. discriminate.
  - now rewrite (IH u Hpat).
Qed.

Lemma includes_white_tail (u b pat : str) :
  forallb isWhiteSpace b = true -> plainText pat = true ->
  includes (u ++ b) pat = includes u pat.
Proof.
  intros Hb Hpat. induction u as [|c u IH].
  - cbn [app]. induction b as [|d b IHb]; [reflexivity|].
    cbn [forallb] in Hb. apply andb_true_iff in Hb as [Hd Hb].
    change (includes (d :: b) pat)
      with (startsWith ([] ++ d :: b) pat || includes b pat).
    rewrite (IHb Hb), (startsWith_white_tail [] (d :: b) pat);
      [now destruct pat | | exact Hpat].
    cbn [forallb]. now rewrite Hd, Hb.
  - cbn [app includes]. rewrite IH.
    change (c :: u ++ b) with ((c :: u) ++ b).
    now rewrite startsWith_white_tail.
Qed.

Lemma includes_white_head (a u pat : str) :
  forallb isWhiteSpace a = true -> plainText pat = true ->
  includes (a ++ u) pat = includes u pat.
Proof.
  intros Ha Hpat. induction a as [|c a IH]; [reflexivity|].
  cbn [forallb] in Ha. apply andb_true_iff in Ha as [Hc Ha].
  cbn [app includes]. rewrite (IH Ha).
  destruct pat as [|p pat].
  - cbn [startsWith]. destruct u; reflexivity.
  - cbn [startsWith]. cbn [plainText forallb] in Hpat.
    apply andb_true_iff in Hpat as [Hp _].
    destruct (Ascii.eqb_spec c p) as [->|]; [|reflexivity].
    rewrite Hc in Hp. discriminate.
Qed.

Lemma includes_around (a u b pat : str) :
  forallb isWhiteSpace a = true -> forallb isWhiteSpace b = true ->
  plainText pat = true ->
  includes (a ++ u ++ b) pat = includes u pat.
Proof.
  intros Ha Hb Hpat.
  now rewrite includes_white_head, includes_white_tail.
Qed.

Lemma lower_white (a : str) :
  forallb isWhiteSpace a = true -> forallb isWhiteSpace (toLowerCase a) = true.
Proof.
  induction a as [|c a IH]; [reflexivity|]. cbn [forallb toLowerCase map].
  intros H. apply andb_true_iff in H as [Hc Ha].
  fold (toLowerCase a). rewrite (IH Ha), andb_true_r.
  rewrite <- Hc. apply eqb_prop.
  exact (units_all (fun c => Bool.eqb (isWhiteSpace (lowerUnit c)) (isWhiteSpace c))
                   eq_refl c).
Qed.

Lemma trimStart_split (s : str) :
  exists a, s = a ++ trimStart s /\ forallb isWhiteSpace a = true.
Proof.
  induction s as [|c s (a & E & Ha)]; [now exists []|].
  cbn [trimStart]. destruct (isWhiteSpace c) eqn:Hc; [|now exists []].
  exists (c :: a). cbn [app forallb]. rewrite Hc, Ha. split; [now f_equal | reflexivity].
Qed.

Lemma trimEnd_split (s : str) :
  exists b, s = trimEnd s ++ b /\ forallb isWhiteSpace b = true.
Proof.
  destruct (trimStart_split (rev s)) as (a & E & Ha).
  exists (rev a). split.
  - unfold trimEnd. rewrite <- rev_app_distr, <- E. now rewrite rev_involutive.
  - rewrite forallb_forall in *. intros x Hx. apply Ha. now apply in_rev.
Qed.

(** An input is its [trim] with white space around. *)
Lemma trim_split (s : str) :
  exists a b,
    s = a ++ trim s ++ b /\
    forallb isWhiteSpace a = true /\ forallb isWhiteSpace b = true.
Proof.
  destruct (trimStart_split s) as (a & Ea & Ha).
  destruct (trimEnd_split (trimStart s)) as (b & Eb & Hb).
  exists a, b. unfold trim. now rewrite <- Eb.
Qed.

Lemma trim_idempotent (s : str) : trim (trim s) = trim s.
Proof.
  destruct (trim_split s) as (a & b & E & Ha & Hb).
  rewrite E at 2. symmetry. now apply trim_white.
Qed.

End WhiteSpaceFacts.

Section DetectMore.

Lemma detectProvider_around (a u b : str) :
  forallb isWhiteSpace a = true -> forallb isWhiteSpace b = true ->
  detectProvider (a ++ u ++ b) = detectProvider u.
Proof.
  intros Ha Hb. rewrite !detectProvider_cascade. cbv zeta.
  unfold toLowerCase at 1 2 3 4 5 6 7 8 9. rewrite !map_app.
  fold (toLowerCase a) (toLowerCase u) (toLowerCase b).
  rewrite !includes_around by (first [now apply lower_white | reflexivity]).
  reflexivity.
Qed.

Lemma detectProvider_azure (u : str) :
  includes u (L "dev.azure.com") = true -> detectProvider u = azure_devops.
Proof.
  intros H. unfold detectProvider, toLowerCase.
  now rewrite (includes_map lowerUnit u (L "dev.azure.com") eq_refl H).
Qed.

Lemma detectProvider_trim (u : str) : detectProvider (trim u) = detectProvider u.
Proof.
  destruct (trim_split u) as (a' & b' & E & Ha' & Hb').
  rewrite E at 2. symmetry. now apply detectProvider_around.
Qed.

End DetectMore.

(** X1: white space around a URL does not change how detectProvider
    classifies it; in particular the trimmed URL is classified like the
    URL itself. *)
Theorem detectProvider_ignores_white_space (a u b : str) :
  forallb isWhiteSpace a = true -> forallb isWhiteSpace b = true ->
  detectProvider (a ++ u ++ b) = detectProvider u /\
  detectProvider (trim u) = detectProvider u.
Proof.
  intros Ha Hb. split; [now apply detectProvider_around | apply detectProvider_trim].
Qed.

Lemma detectProvider_ignores_white_space_witness :
  detectProvider (L "  " ++ L "git@github.com:user/repo.git" ++ ["010"%char])
  = detectProvider (L "git@github.com:user/repo.git").
Proof.
  apply (detectProvider_ignores_white_space
           (L "  ") (L "git@github.com:user/repo.git") ["010"%char]); reflexivity.
Defined.

Section LayoutFacts.

Ltac open_pattern H :=
  cbv [azureHttpsRe azureSshRe httpsRe sshRe sshUrlRe] in H;
  cbn [cat app] in H.

Lemma stripGit_split (seg : str) :
  exists suffix, seg = stripGit seg ++ suffix /\ (suffix = [] \/ suffix = L ".git").
Proof.
  unfold stripGit.
  destruct (endsWith seg (L ".git") && (4 <? List.length seg)) eqn:E.
  - apply andb_true_iff in E as [E _]. apply endsWith_inv in E as [x ->].
    exists (L ".git"). split; [|now right].
    rewrite length_app. simpl List.length.
    replace (List.length x + 4 - 4) with (List.length x) by lia.
    rewrite firstn_app, Nat.sub_diag, firstn_all. simpl firstn.
    now rewrite app_nil_r.
  - exists []. split; [now rewrite app_nil_r | now left].
Qed.

Lemma stripGit_keeps_class (seg : str) :
  forallb notSlashWs seg = true -> forallb notSlashWs (stripGit seg) = true.
Proof.
  intros H. destruct (stripGit_split seg) as (suffix & E & _).
  rewrite E, forallb_app in H. now apply andb_true_iff in H as [H _].
Qed.

Lemma azureHttpsRe_full (t : str) (g : caps) :
  matchRe azureHttpsRe t = Some g ->
  exists skipped o org project seg,
    t = skipped ++ L "http" ++ o ++ L "://dev.azure.com/" ++ org ++ L "/"
          ++ project ++ L "/_git/" ++ seg /\
    (o = L "s" \/ o = []) /\
    g 1 = org /\ g 2 = project /\ g 3 = stripGit seg.
Proof.
  intros H. apply matchRe_inv in H as (skipped & s0 & -> & H).
  open_pattern H. apply seq_lit_inv in H as (? & -> & H).
  apply seq_opt_lit_inv in H as (o & ? & -> & Ho & H).
  apply seq_lit_inv in H as (? & -> & H).
  apply seq_group_plus_inv in H as (org & ? & -> & _ & _ & H).
  apply seq_lit_inv in H as (? & -> & H).
  apply seq_group_plus_inv in H as (project & ? & -> & _ & _ & H).
  apply seq_lit_inv in H as (seg & -> & H).
  apply repoTail_inv in H as (_ & _ & ->).
  exists skipped, o, org, project, seg. repeat split; trivial.
Qed.

Lemma azureSshRe_full (t : str) (g : caps) :
  matchRe azureSshRe t = Some g ->
  exists skipped org project seg,
    t = skipped ++ L "git@ssh.dev.azure.com:v3/" ++ org ++ L "/"
          ++ project ++ L "/" ++ seg /\
    g 1 = org /\ g 2 = project /\ g 3 = stripGit seg.
Proof.
  intros H. apply matchRe_inv in H as (skipped & s0 & -> & H).
  open_pattern H. apply seq_lit_inv in H as (? & -> & H).
  apply seq_group_plus_inv in H as (org & ? & -> & _ & _ & H).
  apply seq_lit_inv in H as (? & -> & H).
  apply seq_group_plus_inv in H as (project & ? & -> & _ & _ & H).
  apply seq_lit_inv in H as (seg & -> & H).
  apply repoTail_inv in H as (_ & _ & ->).
  exists skipped, org, project, seg. repeat split; trivial.
Qed.

Lemma httpsRe_full (t : str) (g : caps) :
  matchRe httpsRe t = Some g ->
  exists skipped o h path seg,
    t = skipped ++ L "http" ++ o ++ L "://" ++ h ++ L "/" ++ path ++ L "/" ++ seg /\
    (o = L "s" \/ o = []) /\
    forallb notSlash h = true /\ forallb dot path = true /\
    g 1 = h /\ g 2 = path /\ g 3 = stripGit seg.
Proof.
  intros H. apply matchRe_inv in H as (skipped & s0 & -> & H).
  open_pattern H. apply seq_lit_inv in H as (? & -> & H).
  apply seq_opt_lit_inv in H as (o & ? & -> & Ho & H).
  apply seq_lit_inv in H as (? & -> & H).
  apply seq_group_plus_inv in H as (h & ? & -> & _ & Hh & H).
  apply seq_lit_inv in H as (? & -> & H).
  apply seq_group_lazy_inv in H as (path & ? & -> & _ & Hpath & H & _).
  apply seq_lit_inv in H as (seg & -> & H).
  apply repoTail_inv in H as (_ & _ & ->).
  exists skipped, o, h, path, seg. repeat split; trivial.
Qed.

Lemma sshRe_full (t : str) (g : caps) :
  matchRe sshRe t = Some g ->
  exists skipped h path seg,
    t = skipped ++ L "git@" ++ h ++ L ":" ++ path ++ L "/" ++ seg /\
    forallb notColon h = true /\ forallb dot path = true /\
    g 1 = h /\ g 2 = path /\ g 3 = stripGit seg.
Proof.
  intros H. apply matchRe_inv in H as (skipped & s0 & -> & H).
  open_pattern H. apply seq_lit_inv in H as (? & -> & H).
  apply seq_group_plus_inv in H as (h & ? & -> & _ & Hh & H).
  apply seq_lit_inv in H as (? & -> & H).
  apply seq_group_lazy_inv in H as (path & ? & -> & _ & Hpath & H & _).
  apply seq_lit_inv in H as (seg & -> & H).
  apply repoTail_inv in H as (_ & _ & ->).
  exists skipped, h, path, seg. repeat split; trivial.
Qed.

Lemma sshUrlRe_full (t : str) (g : caps) :
  matchRe sshUrlRe t = Some g ->
  exists skipped h path seg,
    t = skipped ++ L "ssh://git@" ++ h ++ L "/" ++ path ++ L "/" ++ seg /\
    forallb notSlash h = true /\ forallb dot path = true /\
    g 1 = h /\ g 2 = path /\ g 3 = stripGit seg.
Proof.
  intros H. apply matchRe_inv in H as (skipped & s0 & -> & H).
  open_pattern H. apply seq_lit_inv in H as (? & -> & H).
  apply seq_group_plus_inv in H as (h & ? & -> & _ & Hh & H).
  apply seq_lit_inv in H as (? & -> & H).
  apply seq_group_lazy_inv in H as (path & ? & -> & _ & Hpath & H & _).
  apply seq_lit_inv in H as (seg & -> & H).
  apply repoTail_inv in H as (_ & _ & ->).
  exists skipped, h, path, seg. repeat split; trivial.
Qed.

Lemma includes_mid (t a pat b : str) : t = a ++ pat ++ b -> includes t pat = true.
Proof. intros ->. apply includes_app. Qed.


(** Which branch of [parseRemoteUrl] answered, and with which groups. *)
Lemma parseRemoteUrl_branch (u : str) (r : RemoteUrlInfo) :
  parseRemoteUrl u = Some r ->
  (exists g, (matchRe azureHttpsRe (trim u) = Some g \/
              matchRe azureSshRe (trim u) = Some g) /\ r = azureInfo g) \/
  (exists g, (matchRe httpsRe (trim u) = Some g \/
              matchRe sshRe (trim u) = Some g \/
              matchRe sshUrlRe (trim u) = Some g) /\ r = genericInfo (trim u) g).
Proof.
  unfold parseRemoteUrl. intros H.
  destruct (matchRe azureHttpsRe (trim u)) as [g|] eqn:E1.
  { left. exists g. split; [now left | congruence]. }
  destruct (matchRe azureSshRe (trim u)) as [g|] eqn:E2.
  { left. exists g. split; [now right | congruence]. }
  destruct (matchRe httpsRe (trim u)) as [g|] eqn:E3.
  { right. exists g. split; [now left | congruence]. }
  destruct (matchRe sshRe (trim u)) as [g|] eqn:E4.
  { right. exists g. split; [right; now left | congruence]. }
  destruct (matchRe sshUrlRe (trim u)) as [g|] eqn:E5; [|discriminate].
  right. exists g. split; [right; now right | congruence].
Qed.

End LayoutFacts.

Section ProviderAgreement.

Lemma provider_is_detected (u : str) (r : RemoteUrlInfo) :
  parseRemoteUrl u = Some r -> provider r = detectProvider u.
Proof.
  intros H. rewrite <- (detectProvider_trim u).
  apply parseRemoteUrl_branch in H as [(g & Hg & ->) | (g & _ & ->)];
    [|reflexivity].
  cbn [provider azureInfo]. symmetry. apply detectProvider_azure.
  destruct Hg as [Hg | Hg].
  - apply azureHttpsRe_full in Hg as (skipped & o & org & project & seg & E & _).
    apply (includes_mid _ (skipped ++ L "http" ++ o ++ L "://") _
                        (L "/" ++ org ++ L "/" ++ project ++ L "/_git/" ++ seg)).
    rewrite E, <- !app_assoc. reflexivity.
  - apply azureSshRe_full in Hg as (skipped & org & project & seg & E & _).
    apply (includes_mid _ (skipped ++ L "git@ssh.") _
                        (L ":v3/" ++ org ++ L "/" ++ project ++ L "/" ++ seg)).
    rewrite E, <- !app_assoc. reflexivity.
Qed.

End ProviderAgreement.

(** X2: the provider of a parsed value is what detectProvider answers on the
    same input, also in the two Azure DevOps branches, which do not call
    it. *)
Theorem parseRemoteUrl_provider_agrees (u : str) (r : RemoteUrlInfo) :
  parseRemoteUrl u = Some r -> provider r = detectProvider u.
Proof. apply provider_is_detected. Qed.

Lemma parseRemoteUrl_provider_agrees_witness :
  provider {| provider := azure_devops; host := L "dev.azure.com";
              owner := L "org/project"; repo := L "repo" |}
  = detectProvider (L "git@ssh.dev.azure.com:v3/org/project/repo").
Proof.
  apply (parseRemoteUrl_provider_agrees
           (L "git@ssh.dev.azure.com:v3/org/project/repo")).
  vm_compute. reflexivity.
Defined.

(** X3: the fields of a parsed value lie in the trimmed input in the order
    host, owner, repo: after the host comes one of the separators /, : or
    :v3/, after the owner / or /_git/, and after the repo nothing or one
    .git, which ends the input. *)
Theorem parseRemoteUrl_fields_in_order (u : str) (r : RemoteUrlInfo) :
  parseRemoteUrl u = Some r -> laidOut (trim u) r.
Proof.
  intros H. unfold laidOut.
  apply parseRemoteUrl_branch in H as [(g & Hg & ->) | (g & Hg & ->)].
  - destruct Hg as [Hg | Hg].
    + apply azureHttpsRe_full in Hg
        as (skipped & o & org & project & seg & E & _ & E1 & E2 & E3).
      destruct (stripGit_split seg) as (suffix & Es & Hs).
      exists (skipped ++ L "http" ++ o ++ L "://"), (L "/"), (L "/_git/"), suffix.
      cbn [host owner repo azureInfo]. rewrite E1, E2, E3.
      split; [|auto]. rewrite E. rewrite Es at 1.
      rewrite <- !app_assoc. reflexivity.
    + apply azureSshRe_full in Hg as (skipped & org & project & seg & E & E1 & E2 & E3).
      destruct (stripGit_split seg) as (suffix & Es & Hs).
      exists (skipped ++ L "git@ssh."), (L ":v3/"), (L "/"), suffix.
      cbn [host owner repo azureInfo]. rewrite E1, E2, E3.
      split; [|auto]. rewrite E. rewrite Es at 1.
      rewrite <- !app_assoc. reflexivity.
  - destruct Hg as [Hg | [Hg | Hg]].
    + apply httpsRe_full in Hg
        as (skipped & o & h & path & seg & E & _ & _ & _ & E1 & E2 & E3).
      destruct (stripGit_split seg) as (suffix & Es & Hs).
      exists (skipped ++ L "http" ++ o ++ L "://"), (L "/"), (L "/"), suffix.
      cbn [host owner repo genericInfo]. rewrite E1, E2, E3.
      split; [|auto]. rewrite E. rewrite Es at 1.
      rewrite <- !app_assoc. reflexivity.
    + apply sshRe_full in Hg as (skipped & h & path & seg & E & _ & _ & E1 & E2 & E3).
      destruct (stripGit_split seg) as (suffix & Es & Hs).
      exists (skipped ++ L "git@"), (L ":"), (L "/"), suffix.
      cbn [host owner repo genericInfo]. rewrite E1, E2, E3.
      split; [|auto]. rewrite E. rewrite Es at 1.
      rewrite <- !app_assoc. reflexivity.
    + apply sshUrlRe_full in Hg as (skipped & h & path & seg & E & _ & _ & E1 & E2 & E3).
      destruct (stripGit_split seg) as (suffix & Es & Hs).
      exists (skipped ++ L "ssh://git@"), (L "/"), (L "/"), suffix.
      cbn [host owner repo genericInfo]. rewrite E1, E2, E3.
      split; [|auto]. rewrite E. rewrite Es at 1.
      rewrite <- !app_assoc. reflexivity.
Qed.

Lemma parseRemoteUrl_fields_in_order_witness :
  laidOut (trim (L "git@github.com:user/repo.git"))
          {| provider := github; host := L "github.com";
             owner := L "user"; repo := L "repo" |}.
Proof.
  apply (parseRemoteUrl_fields_in_order (L "git@github.com:user/repo.git")).
  vm_compute. reflexivity.
Defined.

(** X4: the repo of a parsed value contains no slash and no white space. *)
Theorem parseRemoteUrl_repo_clean (u : str) (r : RemoteUrlInfo) :
  parseRemoteUrl u = Some r -> forallb notSlashWs (repo r) = true.
Proof.
  intros H.
  apply parseRemoteUrl_inv in H as (front & seg & _ & _ & Hp & -> & _).
  now apply stripGit_keeps_class.
Qed.

Lemma parseRemoteUrl_repo_clean_witness :
  forallb notSlashWs (L "repo") = true.
Proof.
  apply (parseRemoteUrl_repo_clean
           (L "https://github.com/user/repo.git")
           {| provider := github; host := L "github.com";
              owner := L "user"; repo := L "repo" |}).
  vm_compute. reflexivity.
Defined.



(* ================================================================== *)
(** * The working-directory wrappers *)

Section CwdFacts.
Import Cwd.

Lemma detectProviderFromCwd_output (git : Git) (cwd : option str) :
  detectProviderFromCwd git cwd
  = match git cwd with
    | Some out => detectProvider out
    | None => unknown
    end.
Proof.
  unfold detectProviderFromCwd. destruct (git cwd) as [out|]; [|reflexivity].
  cbv zeta. rewrite <- (detectProvider_trim out).
  now destruct (trim out).
Qed.

Lemma parseRemoteFromCwd_output (git : Git) (cwd : option str) :
  parseRemoteFromCwd git cwd
  = match git cwd with
    | Some out => parseRemoteUrl out
    | None => None
    end.
Proof.
  unfold parseRemoteFromCwd. destruct (git cwd) as [out|]; [|reflexivity].
  cbv zeta. rewrite (parseRemoteUrl_trim (trim out) out (trim_idempotent out)).
  destruct (trim out) eqn:E; [|reflexivity].
  unfold parseRemoteUrl. now rewrite E.
Qed.

End CwdFacts.

(** X6: the two wrappers answer like detectProvider and parseRemoteUrl on
    what git prints, white space and all: their own trimming and their test
    for an empty URL change nothing.  When git fails they answer unknown and
    nothing, and whenever parseRemoteFromCwd returns a value its provider
    is the one detectProviderFromCwd returns. *)
Theorem cwd_wrappers_follow_git_output (git : Cwd.Git) (cwd : option str) :
  Cwd.detectProviderFromCwd git cwd
  = match git cwd with Some out => detectProvider out | None => unknown end /\
  Cwd.parseRemoteFromCwd git cwd
  = match git cwd with Some out => parseRemoteUrl out | None => None end /\
  (forall r, Cwd.parseRemoteFromCwd git cwd = Some r ->
             provider r = Cwd.detectProviderFromCwd git cwd).
Proof.
  split; [apply detectProviderFromCwd_output|].
  split; [apply parseRemoteFromCwd_output|].
  intros r. rewrite parseRemoteFromCwd_output, detectProviderFromCwd_output.
  destruct (git cwd) as [out|]; [|discriminate].
  apply provider_is_detected.
Qed.

Lemma cwd_wrappers_follow_git_output_witness :
  provider {| provider := github; host := L "github.com";
              owner := L "user"; repo := L "repo" |}
  = Cwd.detectProviderFromCwd
      (fun _ => Some (L "git@github.com:user/repo.git" ++ ["010"%char])) None.
Proof.
  apply (proj2 (proj2 (cwd_wrappers_follow_git_output
                         (fun _ => Some (L "git@github.com:user/repo.git" ++ ["010"%char]))
                         None))).
  vm_compute. reflexivity.
Defined.

(** X7: in every reachable state getProviderFromCwd returns an adapter
    exactly when the remote of the working directory is classified as one of
    the six providers; when it is classified unknown (git failing included)
    the state is left untouched, so the registry is not even built. *)
Theorem getProviderFromCwd_known_providers
        (git : Cwd.Git) (cwd : option str) (st : Registry.state) :
  Registry.reachable st ->
  (fst (Cwd.getProviderFromCwd git cwd st) = None <->
   Cwd.detectProviderFromCwd git cwd = unknown) /\
  (Cwd.detectProviderFromCwd git cwd = unknown ->
   snd (Cwd.getProviderFromCwd git cwd st) = st) /\
  (git cwd = None -> Cwd.getProviderFromCwd git cwd st = (None, st)).
Proof.
  intros Hst. unfold Cwd.getProviderFromCwd. cbv zeta.
  split; [|split].
  - destruct (Cwd.detectProviderFromCwd git cwd) eqn:E; cbn [Registry.ProviderName_eqb];
      (split; [|discriminate || reflexivity]);
      try reflexivity;
      destruct (reachable_cases st Hst) as [-> | ->]; discriminate.
  - now intros ->.
  - intros Hg. unfold Cwd.detectProviderFromCwd. now rewrite Hg.
Qed.

Lemma getProviderFromCwd_known_providers_witness :
  Registry.reachable Registry.initial /\
  Cwd.getProviderFromCwd (fun _ => None) None Registry.initial
  = (None, Registry.initial).
Proof.
  split; [constructor|].
  apply (proj2 (proj2 (getProviderFromCwd_known_providers
                         (fun _ => None) None Registry.initial
                         Registry.reach_initial))).
  reflexivity.
Defined.

(* ================================================================== *)
(** * Further properties of the Gitea adapter *)

Section GiteaMore.
Import Gitea.

Ltac quiet_all :=
  repeat first
    [ apply quiet_ret | apply quiet_parse | apply quiet_prop
    | apply quiet_optProp | apply quiet_labelNames
    | apply quiet_orElse | apply quiet_bind; [|intros ?] ].

Lemma curlPR_executes (w : World) (n : number) (baseUrl owner repo : str) :
  executes (Exec (L "curl") (curlPRArgs w n baseUrl owner repo))
           (curlPR w n baseUrl owner repo).
Proof.
  unfold curlPR. cbv zeta.
  apply executes_bind; [apply executes_execFileSync|].
  intros raw. quiet_all.
Qed.

Lemma curlIssue_executes (w : World) (n : number) (baseUrl owner repo : str) :
  executes (Exec (L "curl") (curlIssueArgs w n baseUrl owner repo))
           (curlIssue w n baseUrl owner repo).
Proof.
  unfold curlIssue. cbv zeta.
  apply executes_bind; [apply executes_execFileSync|].
  intros raw. quiet_all.
Qed.

(** What [execFileSync] and [JSON.parse] leave of a tier: the data. *)
Lemma teaPR_data (w : World) (n : number) (raw : str) (data : json) :
  subprocess w (L "tea") [L "pr"; L "view"; String_ w n] = Some raw ->
  JSON_parse w raw = Some data ->
  forall log,
    fst (teaPR w n log)
    = fst ((t <- prop (Some data) (L "title") ;;
            hb <- prop (Some data) (L "head_branch") ;;
            bb <- prop (Some data) (L "base_branch") ;;
            u <- prop (Some data) (L "html_url") ;;
            b <- prop (Some data) (L "body") ;;
            usr <- prop (Some data) (L "user") ;;
            a <- optProp usr (L "login") ;;
            ret {| title := t; headBranch := hb; baseBranch := bb;
                   url := u; body := b; author := a |}) log).
Proof.
  intros Hraw Hdata log. unfold teaPR.
  unfold bind at 1. unfold execFileSync. rewrite Hraw.
  unfold bind at 1. unfold parse. rewrite Hdata. unfold ret at 1.
  destruct data as [| | | | |fields]; try reflexivity.
  all: cbn [prop]; unfold bind, ret, throw, optProp.
  all: try reflexivity.
  all: cbn [nullish].
  all: destruct (lookup (L "user") fields) as [[]|]; reflexivity.
Qed.

Lemma prop_name (l : json) (log : list event) :
  prop (Some l) (L "name") log
  = if notNull l then (Return (labelName l), log) else (Throw, log).
Proof. destruct l; reflexivity. Qed.

(** [labels.map(l => l.name)] over an array. *)
Lemma mapM_names (items : list json) (log : list event) :
  mapM (fun l => prop (Some l) (L "name")) items log
  = if forallb notNull items
    then (Return (map labelName items), log)
    else (Throw, log).
Proof.
  induction items as [|l items IH]; [reflexivity|].
  cbn [mapM forallb map]. unfold bind at 1. rewrite prop_name.
  destruct (notNull l); [|reflexivity]. cbn [andb].
  unfold bind at 1. rewrite IH. now destruct (forallb notNull items).
Qed.

End GiteaMore.

(** X8: for a positive integer, when the CLI tier returns a value, viewPR
    and viewIssue return that value and the only subprocess executed is tea:
    the REST tier is not tried, whatever the environment holds. *)
Theorem gitea_cli_first (w : Gitea.World) (n : Gitea.number) (z : Z)
        (owner repo : option str) :
  (1 <= z)%Z -> Gitea.isInt n z ->
  (forall info, fst (Gitea.teaPR w n []) = Gitea.Return info ->
     Gitea.run (Gitea.viewPR w n owner repo)
     = (Gitea.Return (Some info),
        [Gitea.Exec (L "tea") [L "pr"; L "view"; Gitea.String_ w n]])) /\
  (forall info, fst (Gitea.teaIssue w n []) = Gitea.Return info ->
     Gitea.run (Gitea.viewIssue w n owner repo)
     = (Gitea.Return (Some info),
        [Gitea.Exec (L "tea") [L "issues"; L "view"; Gitea.String_ w n]])).
Proof.
  intros Hz Hn. rewrite viewPR_cases, viewIssue_cases.
  rewrite (guard_accepts n z Hz Hn).
  pose proof (teaPR_executes w n []) as Lpr.
  pose proof (teaIssue_executes w n []) as Lis.
  split; intros info H.
  - destruct (Gitea.teaPR w n []) as [[i|] log]; [|discriminate].
    cbn [fst snd app] in *. congruence.
  - destruct (Gitea.teaIssue w n []) as [[i|] log]; [|discriminate].
    cbn [fst snd app] in *. congruence.
Qed.

Lemma gitea_cli_first_witness :
  fst (Gitea.run (Gitea.viewPR Gitea.teaWorld (Gitea.Fin 7) None None))
  = Gitea.Return (Some {| Gitea.title := Some (Gitea.JStr (L "Fix"));
                          Gitea.headBranch := None; Gitea.baseBranch := None;
                          Gitea.url := None; Gitea.body := None;
                          Gitea.author := None |}).
Proof.
  assert (Hn : Gitea.isInt (Gitea.Fin 7) 7) by reflexivity.
  rewrite (proj1 (gitea_cli_first Gitea.teaWorld (Gitea.Fin 7) 7 None None
                                  ltac:(lia) Hn) _ eq_refl).
  reflexivity.
Defined.

(** X9: for a positive integer, when the CLI tier fails, GITEA_URL, owner
    and repo are present and the REST tier returns a value, viewPR and
    viewIssue return the REST value, and exactly two subprocesses were
    executed: tea first, then curl on the URL of the pull request or
    issue. *)
Theorem gitea_rest_fallback (w : Gitea.World) (n : Gitea.number) (z : Z)
        (owner repo : option str) :
  (1 <= z)%Z -> Gitea.isInt n z ->
  Gitea.falsy (Gitea.process_env w (L "GITEA_URL")) = false ->
  Gitea.falsy owner = false -> Gitea.falsy repo = false ->
  (forall info,
     Gitea.fails (Gitea.teaPR w n) ->
     Gitea.yields (Gitea.curlPR w n (Gitea.text (Gitea.process_env w (L "GITEA_URL")))
                                (Gitea.text owner) (Gitea.text repo)) info ->
     Gitea.run (Gitea.viewPR w n owner repo)
     = (Gitea.Return (Some info),
        [Gitea.Exec (L "tea") [L "pr"; L "view"; Gitea.String_ w n];
         Gitea.Exec (L "curl")
           (Gitea.curlPRArgs w n (Gitea.text (Gitea.process_env w (L "GITEA_URL")))
                             (Gitea.text owner) (Gitea.text repo))])) /\
  (forall info,
     Gitea.fails (Gitea.teaIssue w n) ->
     Gitea.yields (Gitea.curlIssue w n (Gitea.text (Gitea.process_env w (L "GITEA_URL")))
                                   (Gitea.text owner) (Gitea.text repo)) info ->
     Gitea.run (Gitea.viewIssue w n owner repo)
     = (Gitea.Return (Some info),
        [Gitea.Exec (L "tea") [L "issues"; L "view"; Gitea.String_ w n];
         Gitea.Exec (L "curl")
           (Gitea.curlIssueArgs w n (Gitea.text (Gitea.process_env w (L "GITEA_URL")))
                                (Gitea.text owner) (Gitea.text repo))])).
Proof.
  intros Hz Hn Hb Ho Hr. rewrite viewPR_cases, viewIssue_cases.
  rewrite (guard_accepts n z Hz Hn), Hb, Ho, Hr. cbn [orb].
  pose proof (teaPR_executes w n []) as Lpr.
  pose proof (teaIssue_executes w n []) as Lis.
  split; intros info Hcli Hrest.
  - specialize (Hcli []).
    destruct (Gitea.teaPR w n []) as [[i|] log]; [discriminate|].
    cbn [snd app] in Lpr. subst log.
    specialize (Hrest [Gitea.Exec (L "tea") [L "pr"; L "view"; Gitea.String_ w n]]).
    pose proof (curlPR_executes w n (Gitea.text (Gitea.process_env w (L "GITEA_URL")))
                  (Gitea.text owner) (Gitea.text repo)
                  [Gitea.Exec (L "tea") [L "pr"; L "view"; Gitea.String_ w n]]) as Lc.
    destruct (Gitea.curlPR w n _ _ _ _) as [[i|] log]; [|discriminate].
    cbn [fst snd app] in *. congruence.
  - specialize (Hcli []).
    destruct (Gitea.teaIssue w n []) as [[i|] log]; [discriminate|].
    cbn [snd app] in Lis. subst log.
    specialize (Hrest [Gitea.Exec (L "tea") [L "issues"; L "view"; Gitea.String_ w n]]).
    pose proof (curlIssue_executes w n (Gitea.text (Gitea.process_env w (L "GITEA_URL")))
                  (Gitea.text owner) (Gitea.text repo)
                  [Gitea.Exec (L "tea") [L "issues"; L "view"; Gitea.String_ w n]]) as Lc.
    destruct (Gitea.curlIssue w n _ _ _ _) as [[i|] log]; [|discriminate].
    cbn [fst snd app] in *. congruence.
Qed.

Lemma gitea_rest_fallback_witness :
  fst (Gitea.run (Gitea.viewPR Gitea.restWorld (Gitea.Fin 7) (Some (L "o")) (Some (L "r"))))
  = Gitea.Return (Some {| Gitea.title := Some (Gitea.JStr (L "Fix"));
                          Gitea.headBranch := None; Gitea.baseBranch := None;
                          Gitea.url := None; Gitea.body := None;
                          Gitea.author := None |}).
Proof.
  assert (Hn : Gitea.isInt (Gitea.Fin 7) 7) by reflexivity.
  assert (Hcli : Gitea.fails (Gitea.teaPR Gitea.restWorld (Gitea.Fin 7)))
    by (intros log; reflexivity).
  rewrite (proj1 (gitea_rest_fallback Gitea.restWorld (Gitea.Fin 7) 7
                    (Some (L "o")) (Some (L "r"))
                    ltac:(lia) Hn eq_refl eq_refl eq_refl)
                 {| Gitea.title := Some (Gitea.JStr (L "Fix"));
                    Gitea.headBranch := None; Gitea.baseBranch := None;
                    Gitea.url := None; Gitea.body := None;
                    Gitea.author := None |}
                 Hcli (fun log => eq_refl)).
  reflexivity.
Defined.

Section GiteaLogs.
Import Gitea.

Lemma viewPRviaRest_cases (w : World) (n : number) (owner repo : option str)
      (log : list event) :
  viewPRviaRest w n owner repo log
  = if falsy (process_env w (L "GITEA_URL")) || falsy owner || falsy repo
    then (Return None, log)
    else match curlPR w n (text (process_env w (L "GITEA_URL")))
                      (text owner) (text repo) log with
         | (Return info, log') => (Return (Some info), log')
         | (Throw, log') => (Return None, log')
         end.
Proof.
  unfold viewPRviaRest. cbv zeta.
  destruct (falsy (process_env w (L "GITEA_URL")) || falsy owner || falsy repo);
    [reflexivity|].
  unfold tryCatch, bind, ret.
  now destruct (curlPR w n _ _ _ log) as [[info|] log'].
Qed.

End GiteaLogs.

(** X10: whatever the world does, viewPR and viewIssue execute nothing, or
    tea alone, or tea and then curl, in this order and each at most once;
    curl is executed only after the CLI tier has thrown.  The curl command of
    viewIssue has the two arguments -sS and the URL, with or without a
    token in the environment. *)
Theorem gitea_subprocess_log (w : Gitea.World) (n : Gitea.number)
        (owner repo : option str) :
  let tea sub := Gitea.Exec (L "tea") [sub; L "view"; Gitea.String_ w n] in
  let base := Gitea.text (Gitea.process_env w (L "GITEA_URL")) in
  (snd (Gitea.run (Gitea.viewPR w n owner repo)) = [] \/
   snd (Gitea.run (Gitea.viewPR w n owner repo)) = [tea (L "pr")] \/
   (snd (Gitea.run (Gitea.viewPR w n owner repo))
    = [tea (L "pr");
       Gitea.Exec (L "curl")
         (Gitea.curlPRArgs w n base (Gitea.text owner) (Gitea.text repo))] /\
    fst (Gitea.teaPR w n []) = Gitea.Throw)) /\
  (snd (Gitea.run (Gitea.viewIssue w n owner repo)) = [] \/
   snd (Gitea.run (Gitea.viewIssue w n owner repo)) = [tea (L "issues")] \/
   (snd (Gitea.run (Gitea.viewIssue w n owner repo))
    = [tea (L "issues");
       Gitea.Exec (L "curl")
         [L "-sS";
          base ++ L "/api/v1/repos/" ++ Gitea.text owner ++ L "/" ++ Gitea.text repo
          ++ L "/issues/" ++ Gitea.String_ w n]] /\
    fst (Gitea.teaIssue w n []) = Gitea.Throw)).
Proof.
  cbv zeta. rewrite viewPR_cases, viewIssue_cases.
  destruct (negb (Gitea.Number_isInteger n) || Gitea.lessThanOne n);
    [split; now left|].
  pose proof (teaPR_executes w n []) as Lpr.
  pose proof (teaIssue_executes w n []) as Lis.
  split.
  - destruct (Gitea.teaPR w n []) as [[i|] log]; cbn [snd app] in Lpr; subst log;
      [right; now left|].
    destruct (_ || _); [right; now left|].
    pose proof (curlPR_executes w n (Gitea.text (Gitea.process_env w (L "GITEA_URL")))
                  (Gitea.text owner) (Gitea.text repo)
                  [Gitea.Exec (L "tea") [L "pr"; L "view"; Gitea.String_ w n]]) as Lc.
    destruct (Gitea.curlPR w n _ _ _ _) as [[i|] log]; cbn [snd app] in Lc; subst log;
      right; right; split; reflexivity.
  - destruct (Gitea.teaIssue w n []) as [[i|] log]; cbn [snd app] in Lis; subst log;
      [right; now left|].
    destruct (_ || _); [right; now left|].
    pose proof (curlIssue_executes w n (Gitea.text (Gitea.process_env w (L "GITEA_URL")))
                  (Gitea.text owner) (Gitea.text repo)
                  [Gitea.Exec (L "tea") [L "issues"; L "view"; Gitea.String_ w n]]) as Lc.
    destruct (Gitea.curlIssue w n _ _ _ _) as [[i|] log]; cbn [snd app] in Lc; subst log;
      right; right; split; reflexivity.
Qed.

(** X11: what tea prints decides whether the CLI tier counts as failed.
    For a positive integer, when tea runs and prints JSON null or text that
    is no JSON, viewPR continues with the REST tier; when it prints a JSON
    number, string, boolean or array, viewPR returns a record all of whose
    fields are undefined and does not try the REST tier. *)
Theorem gitea_cli_output_edge (w : Gitea.World) (n : Gitea.number) (z : Z)
        (owner repo : option str) (raw : str) :
  (1 <= z)%Z -> Gitea.isInt n z ->
  Gitea.subprocess w (L "tea") [L "pr"; L "view"; Gitea.String_ w n] = Some raw ->
  ((Gitea.JSON_parse w raw = None \/ Gitea.JSON_parse w raw = Some Gitea.JNull) ->
   Gitea.run (Gitea.viewPR w n owner repo)
   = Gitea.viewPRviaRest w n owner repo
       [Gitea.Exec (L "tea") [L "pr"; L "view"; Gitea.String_ w n]]) /\
  (forall data, Gitea.JSON_parse w raw = Some data -> Gitea.primitive data = true ->
   Gitea.run (Gitea.viewPR w n owner repo)
   = (Gitea.Return (Some Gitea.blankPR),
      [Gitea.Exec (L "tea") [L "pr"; L "view"; Gitea.String_ w n]])).
Proof.
  intros Hz Hn Hraw. rewrite viewPR_cases, viewPRviaRest_cases.
  rewrite (guard_accepts n z Hz Hn).
  pose proof (teaPR_executes w n []) as Lpr.
  split.
  - intros Hdata.
    assert (Hthrow : fst (Gitea.teaPR w n []) = Gitea.Throw).
    { destruct Hdata as [Hdata | Hdata].
      - unfold Gitea.teaPR. unfold Gitea.bind at 1. unfold Gitea.execFileSync.
        rewrite Hraw. unfold Gitea.bind at 1. unfold Gitea.parse.
        now rewrite Hdata.
      - now rewrite (teaPR_data w n raw Gitea.JNull Hraw Hdata). }
    destruct (Gitea.teaPR w n []) as [[i|] log]; [discriminate|].
    cbn [snd app] in Lpr. now subst log.
  - intros data Hdata Hprim.
    assert (Hret : fst (Gitea.teaPR w n []) = Gitea.Return Gitea.blankPR).
    { rewrite (teaPR_data w n raw data Hraw Hdata).
      destruct data; try discriminate; reflexivity. }
    destruct (Gitea.teaPR w n []) as [[i|] log]; [|discriminate].
    cbn [fst snd app] in *. congruence.
Qed.

Lemma gitea_cli_output_edge_witness :
  Gitea.run (Gitea.viewPR Gitea.numberWorld (Gitea.Fin 7) (Some (L "o")) (Some (L "r")))
  = (Gitea.Return (Some Gitea.blankPR),
     [Gitea.Exec (L "tea") [L "pr"; L "view"; L "7"]]).
Proof.
  assert (Hn : Gitea.isInt (Gitea.Fin 7) 7) by reflexivity.
  apply (proj2 (gitea_cli_output_edge Gitea.numberWorld (Gitea.Fin 7) 7
                  (Some (L "o")) (Some (L "r")) (L "42")
                  ltac:(lia) Hn eq_refl)
               (Gitea.JNum (Gitea.Fin 42)) eq_refl eq_refl).
Defined.

(** X12: how the labels of an issue are read.  When tea prints a JSON
    object: without labels, or with labels null, the issue has no labels
    field; with an array of labels none of which is null, labels is the
    list of their names in order (undefined for a label without name); with
    an array holding null, or with labels that are no array, the CLI tier
    fails. *)
Theorem gitea_issue_labels (w : Gitea.World) (n : Gitea.number) (raw : str)
        (fields : list (str * Gitea.json)) :
  Gitea.subprocess w (L "tea") [L "issues"; L "view"; Gitea.String_ w n] = Some raw ->
  Gitea.JSON_parse w raw = Some (Gitea.JObj fields) ->
  let issue ls :=
    {| Gitea.issueTitle := Gitea.lookup (L "title") fields;
       Gitea.issueBody := Gitea.lookup (L "body") fields;
       Gitea.issueUrl := Gitea.lookup (L "html_url") fields;
       Gitea.labels := ls |} in
  match Gitea.lookup (L "labels") fields with
  | None | Some Gitea.JNull => Gitea.yields (Gitea.teaIssue w n) (issue None)
  | Some (Gitea.JArr items) =>
      if forallb Gitea.notNull items
      then Gitea.yields (Gitea.teaIssue w n) (issue (Some (map Gitea.labelName items)))
      else Gitea.fails (Gitea.teaIssue w n)
  | Some _ => Gitea.fails (Gitea.teaIssue w n)
  end.
Proof.
  intros Hraw Hdata. cbv zeta.
  assert (Hrun : forall log,
             fst (Gitea.teaIssue w n log)
             = fst (Gitea.bind (Gitea.labelNames (Gitea.JObj fields))
                      (fun ls => Gitea.ret
                         {| Gitea.issueTitle := Gitea.lookup (L "title") fields;
                            Gitea.issueBody := Gitea.lookup (L "body") fields;
                            Gitea.issueUrl := Gitea.lookup (L "html_url") fields;
                            Gitea.labels := ls |})
                      (log ++ [Gitea.Exec (L "tea")
                                 [L "issues"; L "view"; Gitea.String_ w n]]))).
  { intros log. unfold Gitea.teaIssue. unfold Gitea.bind at 1.
    unfold Gitea.execFileSync. rewrite Hraw. unfold Gitea.bind at 1.
    unfold Gitea.parse. rewrite Hdata. reflexivity. }
  unfold Gitea.yields, Gitea.fails.
  destruct (Gitea.lookup (L "labels") fields) as [[| | | |items|]|] eqn:E.
  all: try (intros log; rewrite Hrun; unfold Gitea.labelNames, Gitea.bind at 1 2;
            cbn [Gitea.prop]; unfold Gitea.ret at 1; rewrite E; reflexivity).
  destruct (forallb Gitea.notNull items) eqn:Hnn.
  all: intros log; rewrite Hrun; unfold Gitea.labelNames, Gitea.bind at 1 2;
    cbn [Gitea.prop]; unfold Gitea.ret at 1; rewrite E; cbn [Gitea.nullish];
    unfold Gitea.bind at 1; rewrite mapM_names, Hnn; reflexivity.
Qed.

Lemma gitea_issue_labels_witness :
  Gitea.yields (Gitea.teaIssue Gitea.labelWorld (Gitea.Fin 7))
    {| Gitea.issueTitle := Some (Gitea.JStr (L "Bug"));
       Gitea.issueBody := None; Gitea.issueUrl := None;
       Gitea.labels := Some [Some (Gitea.JStr (L "bug")); Some (Gitea.JStr (L "ui"))] |}.
Proof.
  exact (gitea_issue_labels Gitea.labelWorld (Gitea.Fin 7) (L "{}") _ eq_refl eq_refl).
Defined.

(* ================================================================== *)
(** * The output sanitizer *)

Section ReplaceFacts.
Import Hud.

Lemma replaceFrom_skip (r : re) (by_ s : text) (k : nat) :
  k <= List.length s ->
  replaceFrom r by_ s k = replaceFrom r by_ (skipn k s) 0.
Proof.
  revert k. induction s as [|c s IH]; intros [|k] Hk; try reflexivity.
  - simpl in Hk. lia.
  - simpl in Hk. cbn [replaceFrom skipn]. apply IH. lia.
Qed.

Lemma star_suffix (p : N -> bool) (k : text -> option text) (s x : text) :
  star p k s = Some x -> exists pre rest, s = pre ++ rest /\ k rest = Some x.
Proof.
  induction s as [|c s IH]; cbn [star]; intros H.
  - now exists [], [].
  - destruct (p c); [|now exists [], (c :: s)].
    destruct (star p k s) as [y|] eqn:E.
    + destruct (IH H) as (pre & rest & -> & Hk). now exists (c :: pre), rest.
    + now exists [], (c :: s).
Qed.

Lemma atLeast_suffix (n : nat) (p : N -> bool) (k : text -> option text) (s x : text) :
  atLeast n p k s = Some x -> exists pre rest, s = pre ++ rest /\ k rest = Some x.
Proof.
  revert s. induction n as [|n IH]; intros s; cbn [atLeast].
  - apply star_suffix.
  - destruct s as [|c s]; [discriminate|]. destruct (p c); [|discriminate].
    intros H. destruct (IH _ H) as (pre & rest & -> & Hk).
    now exists (c :: pre), rest.
Qed.

(** A match reads a prefix of the input and hands the rest on. *)
Lemma m_suffix (r : re) (k : text -> option text) (s x : text) :
  m r k s = Some x -> exists pre rest, s = pre ++ rest /\ k rest = Some x.
Proof.
  revert k s. induction r as [c|p|p|n p|r1 IH1 r2 IH2|r1 IH1 r2 IH2];
    intros k s; cbn [m].
  - destruct s as [|y s]; [discriminate|]. destruct (y =? c)%N; [|discriminate].
    intros H. now exists [y], s.
  - destruct s as [|y s]; [discriminate|]. destruct (p y); [|discriminate].
    intros H. now exists [y], s.
  - apply star_suffix.
  - apply atLeast_suffix.
  - destruct (m r1 k s) as [y|] eqn:E; intros H.
    + injection H as ->. now apply IH1.
    + now apply IH2.
  - intros H. apply IH1 in H as (pre1 & rest1 & -> & H).
    apply IH2 in H as (pre2 & rest & -> & H).
    exists (pre1 ++ pre2), rest. now rewrite app_assoc.
Qed.

Lemma matchAt_suffix (r : re) (s rest : text) :
  matchAt r s = Some rest -> exists pre, s = pre ++ rest.
Proof.
  intros H. apply m_suffix in H as (pre & rest' & -> & H).
  injection H as ->. now exists pre.
Qed.

(** A match that reads something is replaced, and the search goes on
    behind it. *)
Lemma replaceAll_hit (r : re) (by_ : text) (c : N) (s rest : text) :
  matchAt r (c :: s) = Some rest ->
  List.length rest < List.length (c :: s) ->
  replaceAll r by_ (c :: s) = by_ ++ replaceAll r by_ rest.
Proof.
  intros Hm Hlen. unfold replaceAll. cbn [replaceFrom]. rewrite Hm.
  destruct (matchAt_suffix _ _ _ Hm) as [pre E].
  destruct pre as [|c' pre].
  { simpl in E. subst rest. lia. }
  simpl in E. injection E as <- E. subst s.
  replace (List.length (c :: pre ++ rest) - List.length rest) with (S (List.length pre))
    by (cbn [List.length]; rewrite length_app; lia).
  f_equal. rewrite replaceFrom_skip by (rewrite length_app; lia).
  now rewrite skipn_app, skipn_all, Nat.sub_diag.
Qed.

Lemma replaceAll_miss (r : re) (by_ : text) (c : N) (s : text) :
  matchAt r (c :: s) = None ->
  replaceAll r by_ (c :: s) = c :: replaceAll r by_ s.
Proof. intros Hm. unfold replaceAll. cbn [replaceFrom]. now rewrite Hm. Qed.

(** Replacing one character by one character is a map. *)
Lemma replaceAll_chr (c d : N) (s : text) :
  replaceAll (Chr c) [d] s = map (fun x => if (x =? c)%N then d else x) s.
Proof.
  induction s as [|x s IH]; [reflexivity|]. cbn [map].
  destruct (x =? c)%N eqn:E.
  - rewrite (replaceAll_hit (Chr c) [d] x s s).
    + now rewrite IH.
    + unfold matchAt. cbn [m]. now rewrite E.
    + simpl. lia.
  - rewrite replaceAll_miss; [now rewrite IH|].
    unfold matchAt. cbn [m]. now rewrite E.
Qed.

Lemma replaceUnicodeBlocks_map (t : text) :
  replaceUnicodeBlocks t = map blockToAscii t.
Proof.
  unfold replaceUnicodeBlocks. rewrite !replaceAll_chr, !map_map.
  apply map_ext. intros x. unfold blockToAscii.
  destruct (N.eqb_spec x FULL) as [->|]; [reflexivity|].
  destruct (N.eqb_spec x LIGHT) as [->|]; [reflexivity|].
  destruct (N.eqb_spec x DARK) as [->|]; [reflexivity|].
  destruct (N.eqb_spec x MEDIUM) as [->|]; reflexivity.
Qed.

Lemma blockToAscii_plain (x : N) : isBlock (blockToAscii x) = false.
Proof.
  unfold blockToAscii.
  destruct (x =? FULL)%N eqn:E1; [reflexivity|].
  destruct (x =? LIGHT)%N eqn:E2; [reflexivity|].
  destruct (x =? DARK)%N eqn:E3; [reflexivity|].
  destruct (x =? MEDIUM)%N eqn:E4; [reflexivity|].
  unfold isBlock. now rewrite E1, E2, E3, E4.
Qed.

Lemma blockToAscii_keeps (x : N) : isBlock x = false -> blockToAscii x = x.
Proof.
  unfold blockToAscii, isBlock. intros H.
  destruct (x =? FULL)%N; [discriminate|].
  destruct (x =? LIGHT)%N; [discriminate|].
  destruct (x =? DARK)%N; [discriminate|].
  destruct (x =? MEDIUM)%N; [discriminate | reflexivity].
Qed.

End ReplaceFacts.

(** X13: replaceUnicodeBlocks works code unit by code unit: the result
    has the length of the input and holds none of the four block characters;
    a second pass changes nothing, and a text without block characters is
    returned as it is. *)
Theorem replaceUnicodeBlocks_properties (t : Hud.text) :
  List.length (Hud.replaceUnicodeBlocks t) = List.length t /\
  forallb (fun c => negb (Hud.isBlock c)) (Hud.replaceUnicodeBlocks t) = true /\
  Hud.replaceUnicodeBlocks (Hud.replaceUnicodeBlocks t) = Hud.replaceUnicodeBlocks t /\
  (forallb (fun c => negb (Hud.isBlock c)) t = true ->
   Hud.replaceUnicodeBlocks t = t).
Proof.
  rewrite !replaceUnicodeBlocks_map. split; [apply length_map|]. split; [|split].
  - induction t as [|x t IH]; [reflexivity|]. cbn [map forallb].
    now rewrite blockToAscii_plain, IH.
  - rewrite map_map. apply map_ext. intros x.
    apply blockToAscii_keeps, blockToAscii_plain.
  - induction t as [|x t IH]; [reflexivity|]. cbn [map forallb].
    intros H. apply andb_true_iff in H as [Hx Ht]. apply negb_true_iff in Hx.
    now rewrite (blockToAscii_keeps x Hx), (IH Ht).
Qed.

Lemma replaceUnicodeBlocks_properties_witness :
  Hud.replaceUnicodeBlocks [78; 111]%N = [78; 111]%N.
Proof.
  apply (proj2 (proj2 (proj2 (replaceUnicodeBlocks_properties [78; 111]%N)))).
  reflexivity.
Defined.

Section StripFacts.
Import Hud.

Lemma star_run (p : N -> bool) (k : text -> option text) (pre rest x : text) :
  forallb p pre = true ->
  match rest with [] => True | c :: _ => p c = false end ->
  k rest = Some x -> star p k (pre ++ rest) = Some x.
Proof.
  intros Hp Hstop Hk. induction pre as [|c pre IH]; cbn [app star].
  - destruct rest as [|c rest]; cbn [star]; [exact Hk | now rewrite Hstop].
  - cbn [forallb] in Hp. apply andb_true_iff in Hp as [Hc Hp].
    now rewrite Hc, (IH Hp).
Qed.

Lemma letter_no_digit (c : N) : letter c = true -> digitOrSemi c = false.
Proof.
  unfold letter, digitOrSemi. intros H.
  apply orb_true_iff in H as [H | H]; apply andb_true_iff in H as [H1 H2];
    apply N.leb_le in H1; apply N.leb_le in H2;
    apply orb_false_iff; split;
    try (apply andb_false_iff;
         destruct (N.leb_spec 48 c); [right; apply N.leb_gt; lia | now left]);
    apply N.eqb_neq; lia.
Qed.

(** Without the escape character in front nothing matches. *)
Lemma ansi_needs_esc (c : N) (s : text) :
  (c =? ESC)%N = false -> matchAt ANSI_REGEX (c :: s) = None.
Proof. intros H. unfold matchAt, ANSI_REGEX. cbn [m]. now rewrite H. Qed.

Lemma ansi_reads_sequence (sq rest : text) :
  sequence sq -> matchAt ANSI_REGEX (sq ++ rest) = Some rest.
Proof.
  intros [params final Hp Hf | body Hb | c Hc]; unfold matchAt, ANSI_REGEX.
  - cbn [m app]. rewrite !N.eqb_refl. rewrite <- app_assoc.
    rewrite (star_run digitOrSemi _ params ([final] ++ rest) rest Hp);
      [reflexivity | apply (letter_no_digit final Hf) |].
    cbn [app]. now rewrite Hf.
  - cbn [m app]. rewrite !N.eqb_refl. change (ESC =? ESC)%N with true.
    change (93 =? 91)%N with false. cbn iota. rewrite <- app_assoc.
    rewrite (star_run notBel _ body ([BEL] ++ rest) rest Hb);
      [reflexivity | reflexivity |].
    cbn [app]. now rewrite N.eqb_refl.
  - cbn [m app]. rewrite !N.eqb_refl.
    unfold notBracket in Hc. apply andb_true_iff in Hc as [H1 H2].
    apply negb_true_iff in H1, H2. rewrite H1, H2.
    unfold notBracket. now rewrite H1, H2.
Qed.

Lemma sequence_nonempty (sq : text) : sequence sq -> exists c sq', sq = c :: sq'.
Proof. intros [params final _ _ | body _ | c _]; eexists; eexists; reflexivity. Qed.

Lemma stripAnsi_plain (t : text) : plain t = true -> stripAnsi t = t.
Proof.
  unfold stripAnsi. induction t as [|c t IH]; [reflexivity|].
  cbn [plain forallb]. intros H. apply andb_true_iff in H as [Hc Ht].
  apply negb_true_iff in Hc.
  rewrite replaceAll_miss by now apply ansi_needs_esc. now rewrite (IH Ht).
Qed.

Lemma stripAnsi_after_plain (t1 t2 : text) :
  plain t1 = true -> stripAnsi (t1 ++ t2) = t1 ++ stripAnsi t2.
Proof.
  unfold stripAnsi. induction t1 as [|c t1 IH]; [reflexivity|].
  cbn [plain forallb app]. intros H. apply andb_true_iff in H as [Hc Ht].
  apply negb_true_iff in Hc.
  rewrite replaceAll_miss by now apply ansi_needs_esc. now rewrite (IH Ht).
Qed.

(** With nothing put in, a replacement only removes code units. *)
Lemma replaceFrom_removes (r : re) (s : text) (k : nat) :
  List.length (replaceFrom r [] s k) <= List.length s /\
  forall c, In c (replaceFrom r [] s k) -> In c s.
Proof.
  revert k. induction s as [|x s IH]; intros k.
  - cbn [replaceFrom]. destruct k; destruct (matchAt r []); split; auto.
  - cbn [replaceFrom]. destruct k as [|k].
    + destruct (matchAt r (x :: s)) as [rest|].
      * destruct (List.length (x :: s) - List.length rest) as [|j]; cbn [app].
        -- destruct (IH 0) as [Hl Hi]. split; [simpl; lia|].
           intros c [-> | Hc]; [now left | right; now apply Hi].
        -- destruct (IH j) as [Hl Hi]. split; [simpl; lia|].
           intros c Hc. right. now apply Hi.
      * destruct (IH 0) as [Hl Hi]. split; [simpl; lia|].
        intros c [-> | Hc]; [now left | right; now apply Hi].
    + destruct (IH k) as [Hl Hi]. split; [simpl; lia|].
      intros c Hc. right. now apply Hi.
Qed.

End StripFacts.

(** X14: stripAnsi removes an escape sequence that follows text without the
    escape character, and goes on behind it: a CSI sequence (ESC, [, digits
    and semicolons, one letter), an OSC sequence (ESC, ], anything up to the
    first BEL) and ESC with one code unit other than a bracket. *)
Theorem stripAnsi_removes_sequence (t1 sq t2 : Hud.text) :
  Hud.plain t1 = true -> Hud.sequence sq ->
  Hud.stripAnsi (t1 ++ sq ++ t2) = t1 ++ Hud.stripAnsi t2.
Proof.
  intros Hplain Hsq. rewrite stripAnsi_after_plain by exact Hplain. f_equal.
  pose proof (ansi_reads_sequence sq t2 Hsq) as Hm.
  destruct (sequence_nonempty sq Hsq) as (c & sq' & ->).
  unfold Hud.stripAnsi. cbn [app] in *.
  rewrite (replaceAll_hit _ [] c (sq' ++ t2) t2 Hm); [reflexivity|].
  cbn [List.length]. rewrite length_app. lia.
Qed.

Lemma stripAnsi_removes_sequence_witness :
  Hud.stripAnsi ([82; 101; 100]%N ++ [27; 91; 51; 49; 109]%N ++ [33]%N)
  = [82; 101; 100]%N ++ Hud.stripAnsi [33]%N.
Proof.
  apply (stripAnsi_removes_sequence [82; 101; 100]%N [27; 91; 51; 49; 109]%N [33]%N);
    [reflexivity|].
  apply (Hud.csi [51; 49]%N 109%N); reflexivity.
Defined.

(** X15: stripAnsi only removes: a text without the escape character is
    returned as it is, the result is never longer than the input, and every
    code unit of the result occurs in the input. *)
Theorem stripAnsi_only_removes (t : Hud.text) :
  (Hud.plain t = true -> Hud.stripAnsi t = t) /\
  List.length (Hud.stripAnsi t) <= List.length t /\
  (forall c, In c (Hud.stripAnsi t) -> In c t).
Proof.
  split; [apply stripAnsi_plain|]. apply replaceFrom_removes.
Qed.

Lemma stripAnsi_only_removes_witness :
  Hud.stripAnsi [80; 108; 97; 105; 110]%N = [80; 108; 97; 105; 110]%N.
Proof.
  apply (proj1 (stripAnsi_only_removes [80; 108; 97; 105; 110]%N)). reflexivity.
Defined.

Section SanitizeFacts.
Import Hud.

(** *** trim *)

Lemma hud_trimStart_split (s : text) :
  exists a, s = a ++ trimStart s /\ forallb isSpace a = true.
Proof.
  induction s as [|c s (a & E & Ha)]; [now exists []|].
  cbn [trimStart]. destruct (isSpace c) eqn:Hc; [|now exists []].
  exists (c :: a). cbn [app forallb]. rewrite Hc, Ha. split; [now f_equal | reflexivity].
Qed.

Lemma hud_trim_split (s : text) :
  exists a b, s = a ++ trim s ++ b /\
              forallb isSpace a = true /\ forallb isSpace b = true.
Proof.
  destruct (hud_trimStart_split s) as (a & Ea & Ha).
  destruct (hud_trimStart_split (rev (trimStart s))) as (b & Eb & Hb).
  exists a, (rev b). repeat split; trivial.
  - unfold trim, trimEnd. rewrite <- rev_app_distr, <- Eb, rev_involutive. exact Ea.
  - rewrite forallb_forall in *. intros x Hx. apply Hb. now apply in_rev.
Qed.

Lemma hud_trim_In (s : text) (c : N) : In c (trim s) -> In c s.
Proof.
  intros H. destruct (hud_trim_split s) as (a & b & E & _). rewrite E.
  apply in_or_app. right. apply in_or_app. now left.
Qed.

Lemma trimStart_head (s : text) :
  match trimStart s with [] => True | c :: _ => isSpace c = false end.
Proof.
  induction s as [|c s IH]; [exact I|]. cbn [trimStart].
  destruct (isSpace c) eqn:E; [exact IH | exact E].
Qed.

Lemma trimStart_keep (c : N) (s : text) :
  isSpace c = false -> trimStart (c :: s) = c :: s.
Proof. intros H. cbn [trimStart]. now rewrite H. Qed.

Lemma hud_trim_cleanEnds (s : text) : cleanEnds (trim s) = true.
Proof.
  unfold trim, trimEnd.
  pose proof (trimStart_head (rev (trimStart s))) as Hlast.
  pose proof (trimStart_head s) as Hfirst.
  destruct (trimStart (rev (trimStart s))) as [|d r] eqn:E; [reflexivity|].
  destruct (hud_trimStart_split (rev (trimStart s))) as (a & Ea & Ha).
  rewrite E in Ea.
  assert (Es : trimStart s = rev r ++ [d] ++ rev a).
  { rewrite <- (rev_involutive (trimStart s)), Ea, rev_app_distr. cbn [rev].
    now rewrite <- app_assoc. }
  cbn [rev]. destruct (rev r) as [|f r'] eqn:Er.
  - cbn [app cleanEnds last]. now rewrite Hlast.
  - cbn [app cleanEnds]. rewrite Es in Hfirst. cbn [app] in Hfirst. rewrite Hfirst.
    change (f :: r' ++ [d]) with ((f :: r') ++ [d]). now rewrite last_last, Hlast.
Qed.

Lemma hud_trim_id (s : text) : cleanEnds s = true -> trim s = s.
Proof.
  destruct s as [|c s]; [reflexivity|]. cbn [cleanEnds]. intros H.
  apply andb_true_iff in H as [Hc Hl]. apply negb_true_iff in Hc, Hl.
  unfold trim. rewrite (trimStart_keep c s Hc). unfold trimEnd.
  destruct (@exists_last _ (c :: s)) as (s' & d & E); [discriminate|].
  rewrite E in *. rewrite last_last in Hl.
  rewrite rev_app_distr. cbn [rev app]. rewrite (trimStart_keep d _ Hl).
  cbn [rev]. now rewrite rev_involutive.
Qed.

Lemma hud_trim_blank (s : text) : forallb isSpace s = true -> trim s = [].
Proof.
  intros H. unfold trim.
  assert (E : trimStart s = []).
  { induction s as [|c s IH]; [reflexivity|]. cbn [forallb trimStart] in *.
    apply andb_true_iff in H as [Hc Hs]. rewrite Hc. now apply IH. }
  now rewrite E.
Qed.

(** *** split and join *)

Lemma split_nonempty (sep : N) (s : text) : split sep s <> [].
Proof.
  induction s as [|c s IH]; [discriminate|]. cbn [split].
  destruct (c =? sep)%N; [discriminate|]. now destruct (split sep s).
Qed.

Lemma split_In (sep : N) (s l : text) (c : N) :
  In l (split sep s) -> In c l -> In c s /\ c <> sep.
Proof.
  revert l. induction s as [|x s IH]; intros l; cbn [split].
  - intros [<- | []] [].
  - destruct (N.eqb_spec x sep) as [->|Hx].
    + intros [<- | Hl] Hc; [destruct Hc|].
      destruct (IH l Hl Hc). split; [now right | assumption].
    + pose proof (split_nonempty sep s) as Hne.
      destruct (split sep s) as [|l0 ls]; [congruence|].
      intros [<- | Hl] Hc.
      * destruct Hc as [<- | Hc]; [split; [now left | exact Hx]|].
        destruct (IH l0 (or_introl eq_refl) Hc). split; [now right | assumption].
      * destruct (IH l (or_intror Hl) Hc). split; [now right | assumption].
Qed.

Lemma split_single (sep : N) (s : text) : ~ In sep s -> split sep s = [s].
Proof.
  induction s as [|x s IH]; [reflexivity|]. intros H. cbn [split].
  destruct (N.eqb_spec x sep) as [->|Hx]; [exfalso; apply H; now left|].
  rewrite IH; [reflexivity|]. intros Hs. apply H. now right.
Qed.

Lemma join_In (sep : text) (ls : list text) (c : N) :
  In c (join sep ls) -> In c sep \/ exists l, In l ls /\ In c l.
Proof.
  induction ls as [|l ls IH]; [intros []|]. cbn [join].
  destruct ls as [|l' ls].
  - intros H. right. exists l. split; [now left | exact H].
  - intros H. apply in_app_or in H as [H | H].
    + right. exists l. split; [now left | exact H].
    + apply in_app_or in H as [H | H]; [now left|].
      destruct (IH H) as [H' | (l0 & Hl0 & Hc)]; [now left|].
      right. exists l0. split; [now right | exact Hc].
Qed.

(** *** collapse *)

Lemma star_all (p : N -> bool) (s : text) : star p Some s = Some (dropWhile p s).
Proof.
  induction s as [|c s IH]; [reflexivity|]. cbn [star dropWhile].
  destruct (p c); [now rewrite IH | reflexivity].
Qed.

Lemma dropWhile_length (p : N -> bool) (s : text) :
  List.length (dropWhile p s) <= List.length s.
Proof.
  induction s as [|c s IH]; [reflexivity|]. cbn [dropWhile].
  destruct (p c); simpl; lia.
Qed.

Lemma dropWhile_head (p : N -> bool) (s : text) :
  match dropWhile p s with [] => True | c :: _ => p c = false end.
Proof.
  induction s as [|c s IH]; [exact I|]. cbn [dropWhile].
  destruct (p c) eqn:E; [exact IH | exact E].
Qed.

Lemma collapse_nil : collapse [] = [].
Proof. reflexivity. Qed.

Lemma collapse_run (a b : N) (s : text) :
  isSpace a = true -> isSpace b = true ->
  collapse (a :: b :: s) = 32%N :: collapse (dropWhile isSpace s).
Proof.
  intros Ha Hb. unfold collapse.
  rewrite (replaceAll_hit _ [32%N] a (b :: s) (dropWhile isSpace s)); [reflexivity| |].
  - unfold matchAt. cbn [m atLeast]. rewrite Ha, Hb. apply star_all.
  - pose proof (dropWhile_length isSpace s). simpl. lia.
Qed.

Lemma collapse_keep (a : N) (s : text) :
  match s with [] => True | b :: _ => isSpace a && isSpace b = false end ->
  collapse (a :: s) = a :: collapse s.
Proof.
  intros H. unfold collapse. apply replaceAll_miss.
  unfold matchAt. cbn [m atLeast]. destruct (isSpace a); [|reflexivity].
  destruct s as [|b s]; [reflexivity|]. cbn [andb] in H. now rewrite H.
Qed.

Lemma noDoubleSpace_cons (a b : N) (s : text) :
  noDoubleSpace (a :: b :: s)
  = negb (isSpace a && isSpace b) && noDoubleSpace (b :: s).
Proof. reflexivity. Qed.

Lemma collapse_noDouble_bounded (n : nat) (s : text) :
  List.length s <= n -> noDoubleSpace (collapse s) = true.
Proof.
  revert s. induction n as [|n IH]; intros s Hn.
  - destruct s; [reflexivity | simpl in Hn; lia].
  - destruct s as [|a [|b s]]; [reflexivity | |].
    + rewrite collapse_keep by exact I. reflexivity.
    + destruct (isSpace a && isSpace b) eqn:E.
      * apply andb_true_iff in E as [Ha Hb]. rewrite (collapse_run a b s Ha Hb).
        pose proof (dropWhile_length isSpace s) as Hl.
        pose proof (dropWhile_head isSpace s) as Hh.
        assert (Hrec : noDoubleSpace (collapse (dropWhile isSpace s)) = true)
          by (apply IH; simpl in Hn; lia).
        destruct (dropWhile isSpace s) as [|c r]; [reflexivity|].
        assert (Hk : collapse (c :: r) = c :: collapse r)
          by (apply collapse_keep; destruct r; [exact I | now rewrite Hh]).
        rewrite Hk in *. now rewrite noDoubleSpace_cons, Hh, andb_false_r.
      * rewrite (collapse_keep a (b :: s) E).
        assert (Hrec : noDoubleSpace (collapse (b :: s)) = true)
          by (apply IH; cbn [List.length] in *; lia).
        destruct (isSpace b) eqn:Hb.
        -- rewrite andb_true_r in E.
           destruct (collapse (b :: s)) as [|o out]; [reflexivity|].
           now rewrite noDoubleSpace_cons, E.
        -- assert (Hk : collapse (b :: s) = b :: collapse s)
             by (apply collapse_keep; destruct s; [exact I | now rewrite Hb]).
           rewrite Hk in *. now rewrite noDoubleSpace_cons, Hb, andb_false_r.
Qed.

Lemma collapse_noDouble (s : text) : noDoubleSpace (collapse s) = true.
Proof. apply (collapse_noDouble_bounded (List.length s)). reflexivity. Qed.

Lemma collapse_id (s : text) : noDoubleSpace s = true -> collapse s = s.
Proof.
  induction s as [|a s IH]; [reflexivity|]. intros H.
  destruct s as [|b s]; [now rewrite collapse_keep|].
  cbn [noDoubleSpace] in H. apply andb_true_iff in H as [Hab Hs].
  apply negb_true_iff in Hab.
  rewrite (collapse_keep a (b :: s) Hab). now rewrite (IH Hs).
Qed.

(** A replacement puts in nothing but [by_]. *)
Lemma replaceFrom_In (r : re) (by_ s : text) (k : nat) (c : N) :
  In c (replaceFrom r by_ s k) -> In c by_ \/ In c s.
Proof.
  revert k. induction s as [|x s IH]; intros k; cbn [replaceFrom].
  - destruct k; destruct (matchAt r []); auto.
  - destruct k as [|k].
    + destruct (matchAt r (x :: s)) as [rest|].
      * destruct (List.length (x :: s) - List.length rest) as [|j]; intros H;
          apply in_app_or in H as [H | H]; auto.
        -- destruct H as [-> | H]; [right; now left|].
           destruct (IH 0 H); [now left | right; now right].
        -- destruct (IH j H); [now left | right; now right].
      * intros [-> | H]; [right; now left|].
        destruct (IH 0 H); [now left | right; now right].
    + intros H. destruct (IH k H); [now left | right; now right].
Qed.

Lemma noDoubleSpace_tail (a : text) (s : text) :
  noDoubleSpace (a ++ s) = true -> noDoubleSpace s = true.
Proof.
  induction a as [|x a IH]; [trivial|]. cbn [app]. intros H.
  apply IH. cbn [noDoubleSpace] in H.
  destruct (a ++ s); [reflexivity|].
  now apply andb_true_iff in H as [_ H].
Qed.

Lemma noDoubleSpace_front (s b : text) :
  noDoubleSpace (s ++ b) = true -> noDoubleSpace s = true.
Proof.
  induction s as [|x s IH]; [reflexivity|]. cbn [app]. intros H.
  cbn [noDoubleSpace] in *. destruct s as [|y s]; [reflexivity|].
  cbn [app] in *. apply andb_true_iff in H as [H1 H2]. rewrite H1. now apply IH.
Qed.

Lemma hud_trim_noDouble (s : text) :
  noDoubleSpace s = true -> noDoubleSpace (trim s) = true.
Proof.
  intros H. destruct (hud_trim_split s) as (a & b & E & _). rewrite E in H.
  apply noDoubleSpace_tail in H. now apply noDoubleSpace_front in H.
Qed.

End SanitizeFacts.

Section SanitizeOutputFacts.
Import Hud.

(** Where the code units of the result come from: the separator, or the
    text behind the first two steps, newlines excepted. *)
Lemma sanitizeOutput_In (output : text) (c : N) :
  In c (sanitizeOutput output) ->
  c = 32%N \/ c = 124%N \/
  (In c (replaceUnicodeBlocks (stripAnsi output)) /\ c <> LF).
Proof.
  unfold sanitizeOutput. cbv zeta. intros H.
  apply hud_trim_In in H. apply replaceFrom_In in H as [[<- | []] | H]; [now left|].
  set (lines := filter _ _) in H.
  assert (Hline : forall l, In l lines -> In c l ->
                            In c (replaceUnicodeBlocks (stripAnsi output)) /\ c <> LF).
  { intros l Hl Hc. apply filter_In in Hl as [Hl _]. exact (split_In _ _ _ _ Hl Hc). }
  destruct (1 <? List.length lines)%nat.
  - apply join_In in H as [H | (l & Hl & Hc)].
    + destruct H as [<- | [<- | [<- | []]]]; auto.
    + right. right. exact (Hline l Hl Hc).
  - destruct (nth_error lines 0) as [[|x l]|] eqn:E; try destruct H.
    all: right; right; apply (Hline (x :: l)); [exact (nth_error_In _ _ E)|].
    + now left.
    + now right.
Qed.

Lemma space_plain (t : text) : forallb isSpace t = true -> plain t = true.
Proof.
  induction t as [|c t IH]; [reflexivity|]. cbn [forallb plain]. intros H.
  apply andb_true_iff in H as [Hc Ht]. fold (plain t). rewrite (IH Ht), andb_true_r.
  destruct (N.eqb_spec c ESC) as [->|]; [discriminate Hc | reflexivity].
Qed.

Lemma space_no_block (t : text) :
  forallb isSpace t = true -> forallb (fun c => negb (isBlock c)) t = true.
Proof.
  induction t as [|c t IH]; [reflexivity|]. cbn [forallb]. intros H.
  apply andb_true_iff in H as [Hc Ht]. rewrite (IH Ht), andb_true_r.
  unfold isBlock.
  destruct (N.eqb_spec c FULL) as [->|]; [discriminate Hc|].
  destruct (N.eqb_spec c LIGHT) as [->|]; [discriminate Hc|].
  destruct (N.eqb_spec c DARK) as [->|]; [discriminate Hc|].
  destruct (N.eqb_spec c MEDIUM) as [->|]; [discriminate Hc | reflexivity].
Qed.

Lemma filter_none {A} (f : A -> bool) (l : list A) :
  (forall x, In x l -> f x = false) -> filter f l = [].
Proof.
  induction l as [|x l IH]; [reflexivity|]. intros H. cbn [filter].
  rewrite (H x (or_introl eq_refl)). apply IH. intros y Hy. apply H. now right.
Qed.

End SanitizeOutputFacts.

(** X16: whatever the input, the result of sanitizeOutput is one line
    without a newline, holds none of the four block characters, has no two
    white-space code units side by side, and neither starts nor ends with
    white space. *)
Theorem sanitizeOutput_shape (output : Hud.text) :
  ~ In Hud.LF (Hud.sanitizeOutput output) /\
  forallb (fun c => negb (Hud.isBlock c)) (Hud.sanitizeOutput output) = true /\
  Hud.noDoubleSpace (Hud.sanitizeOutput output) = true /\
  Hud.cleanEnds (Hud.sanitizeOutput output) = true.
Proof.
  split; [|split; [|split]].
  - intros H. apply sanitizeOutput_In in H as [H | [H | [_ H]]];
      [discriminate H | discriminate H | now apply H].
  - apply forallb_forall. intros c H.
    apply sanitizeOutput_In in H as [-> | [-> | [H _]]]; try reflexivity.
    rewrite replaceUnicodeBlocks_map in H. apply in_map_iff in H as (x & <- & _).
    now rewrite blockToAscii_plain.
  - unfold Hud.sanitizeOutput. cbv zeta. apply hud_trim_noDouble.
    apply collapse_noDouble.
  - unfold Hud.sanitizeOutput. cbv zeta. apply hud_trim_cleanEnds.
Qed.

(** X17: an input of white space only, newlines included, gives the empty
    text. *)
Theorem sanitizeOutput_blank (output : Hud.text) :
  forallb Hud.isSpace output = true -> Hud.sanitizeOutput output = [].
Proof.
  intros H. unfold Hud.sanitizeOutput. cbv zeta.
  rewrite (stripAnsi_plain output (space_plain output H)).
  rewrite replaceUnicodeBlocks_map.
  assert (Hmap : map Hud.blockToAscii output = output).
  { pose proof (space_no_block output H) as Hb. clear H.
    induction output as [|c t IH]; [reflexivity|]. cbn [map forallb] in *.
    apply andb_true_iff in Hb as [Hc Hb]. apply negb_true_iff in Hc.
    now rewrite (blockToAscii_keeps c Hc), (IH Hb). }
  rewrite Hmap. rewrite filter_none; [reflexivity|].
  intros l Hl. rewrite hud_trim_blank; [reflexivity|].
  apply forallb_forall. intros c Hc.
  destruct (split_In _ _ _ _ Hl Hc) as [Hin _].
  rewrite forallb_forall in H. now apply H.
Qed.

Lemma sanitizeOutput_blank_witness :
  Hud.sanitizeOutput [32; 32; 10; 9; 10; 32]%N = [].
Proof.
  apply (sanitizeOutput_blank [32; 32; 10; 9; 10; 32]%N). reflexivity.
Defined.

(** X18: a line that needs no cleaning is returned as it is: a text without
    escape character, block character and newline, without two white-space
    code units side by side and without white space at its ends. *)
Theorem sanitizeOutput_clean_line (output : Hud.text) :
  Hud.plain output = true ->
  forallb (fun c => negb (Hud.isBlock c)) output = true ->
  ~ In Hud.LF output ->
  Hud.noDoubleSpace output = true -> Hud.cleanEnds output = true ->
  Hud.sanitizeOutput output = output.
Proof.
  intros Hplain Hblock Hlf Hdouble Hends. unfold Hud.sanitizeOutput. cbv zeta.
  rewrite (stripAnsi_plain output Hplain).
  rewrite replaceUnicodeBlocks_map.
  assert (Hmap : map Hud.blockToAscii output = output).
  { clear - Hblock. induction output as [|c t IH]; [reflexivity|].
    cbn [map forallb] in *.
    apply andb_true_iff in Hblock as [Hc Hb]. apply negb_true_iff in Hc.
    now rewrite (blockToAscii_keeps c Hc), (IH Hb). }
  rewrite Hmap, (split_single Hud.LF output Hlf). cbn [filter].
  rewrite (hud_trim_id output Hends).
  destruct output as [|c t]; [reflexivity|].
  cbn [List.length Nat.ltb Nat.leb nth_error].
  fold (Hud.collapse (c :: t)).
  now rewrite (collapse_id (c :: t) Hdouble), (hud_trim_id (c :: t) Hends).
Qed.

Lemma sanitizeOutput_clean_line_witness :
  Hud.sanitizeOutput [91; 79; 93; 32; 52; 48; 37]%N = [91; 79; 93; 32; 52; 48; 37]%N.
Proof.
  apply (sanitizeOutput_clean_line [91; 79; 93; 32; 52; 48; 37]%N);
    try reflexivity.
  cbn. intros [H | [H | [H | [H | [H | [H | [H | []]]]]]]]; discriminate H.
Defined.

Section SanitizeLines.
Import Hud.

Lemma join_more (sep l l' : text) (ls : list text) :
  join sep (l :: l' :: ls) = l ++ sep ++ join sep (l' :: ls).
Proof. reflexivity. Qed.

Lemma forallb_join (p : N -> bool) (sep : text) (lines : list text) :
  forallb p sep = true -> forallb (forallb p) lines = true ->
  forallb p (join sep lines) = true.
Proof.
  intros Hsep. induction lines as [|l ls IH]; [reflexivity|].
  cbn [forallb join]. intros H. apply andb_true_iff in H as [Hl Hls].
  destruct ls as [|l' ls]; [exact Hl|].
  now rewrite !forallb_app, Hl, Hsep, (IH Hls).
Qed.

Lemma split_app (l rest : text) :
  noLF l = true -> split LF (l ++ LF :: rest) = l :: split LF rest.
Proof.
  induction l as [|x l IH]; [reflexivity|]. cbn [noLF forallb app split].
  intros H. apply andb_true_iff in H as [Hx Hl]. apply negb_true_iff in Hx.
  rewrite Hx. fold (noLF l) in Hl. now rewrite (IH Hl).
Qed.

Lemma noLF_not_In (l : text) : noLF l = true -> ~ In LF l.
Proof.
  unfold noLF. rewrite forallb_forall. intros H Hin.
  specialize (H LF Hin). discriminate H.
Qed.

(** Splitting at the newlines gives back the lines that were joined. *)
Lemma split_join (lines : list text) :
  lines <> [] -> forallb noLF lines = true ->
  split LF (join [LF] lines) = lines.
Proof.
  induction lines as [|l ls IH]; [congruence|]. intros _ H.
  cbn [forallb] in H. apply andb_true_iff in H as [Hl Hls].
  destruct ls as [|l' ls].
  - cbn [join]. apply split_single. now apply noLF_not_In.
  - cbn [join]. cbn [app]. rewrite (split_app l _ Hl). f_equal.
    apply IH; [discriminate | exact Hls].
Qed.

Lemma headOk_app (a b : text) : a <> [] -> headOk (a ++ b) = headOk a.
Proof. destruct a; [congruence | reflexivity]. Qed.

Lemma cleanEnds_heads (s : text) :
  s <> [] -> cleanEnds s = true -> headOk s = true /\ headOk (rev s) = true.
Proof.
  intros Hne H. destruct s as [|c s]; [congruence|]. cbn [cleanEnds] in H.
  apply andb_true_iff in H as [Hc Hl]. split; [exact Hc|].
  destruct (@exists_last _ (c :: s)) as (s' & d & E); [discriminate|].
  rewrite E in *. rewrite last_last in Hl. rewrite rev_app_distr. exact Hl.
Qed.

Lemma heads_cleanEnds (s : text) :
  headOk s = true -> headOk (rev s) = true -> cleanEnds s = true.
Proof.
  destruct s as [|c s]; [discriminate|]. cbn [headOk cleanEnds]. intros Hc Hl.
  rewrite Hc. cbn [andb].
  destruct (@exists_last _ (c :: s)) as (s' & d & E); [discriminate|].
  rewrite E in *. rewrite last_last. rewrite rev_app_distr in Hl. exact Hl.
Qed.

Lemma noDoubleSpace_app (a b : text) :
  noDoubleSpace a = true -> headOk (rev a) = true -> noDoubleSpace b = true ->
  noDoubleSpace (a ++ b) = true.
Proof.
  intros Ha Hl Hb. induction a as [|x a IH]; [discriminate|].
  destruct a as [|y a].
  - cbn [rev app headOk] in Hl. cbn [app]. destruct b as [|z b]; [reflexivity|].
    rewrite noDoubleSpace_cons, Hb. apply negb_true_iff in Hl. now rewrite Hl.
  - rewrite noDoubleSpace_cons in Ha. apply andb_true_iff in Ha as [Hxy Ha].
    cbn [app]. rewrite noDoubleSpace_cons, Hxy. cbn [andb].
    apply IH; [exact Ha|]. cbn [rev] in *.
    rewrite headOk_app in Hl; [exact Hl|].
    intros E. apply app_eq_nil in E as [_ E]. discriminate.
Qed.

Lemma noDoubleSpace_bar (b : text) :
  headOk b = true -> noDoubleSpace b = true -> noDoubleSpace (bar ++ b) = true.
Proof.
  destruct b as [|z b]; [discriminate|]. cbn [headOk]. intros Hz Hb.
  unfold bar. cbn [app]. rewrite !noDoubleSpace_cons, Hb.
  apply negb_true_iff in Hz. now rewrite Hz.
Qed.

Lemma cleanLine_parts (l : text) :
  cleanLine l = true ->
  plain l = true /\ forallb (fun c => negb (isBlock c)) l = true /\
  noDoubleSpace l = true /\ cleanEnds l = true /\ l <> [].
Proof.
  unfold cleanLine. intros H.
  repeat (apply andb_true_iff in H as [H ?]).
  repeat split; trivial. intros ->. discriminate.
Qed.

(** Clean lines joined by [" | "] need no cleaning either. *)
Lemma join_clean (ls : list text) :
  forallb cleanLine ls = true ->
  noDoubleSpace (join bar ls) = true /\
  (ls <> [] -> headOk (join bar ls) = true /\ headOk (rev (join bar ls)) = true).
Proof.
  induction ls as [|l ls IH]; [split; [reflexivity | congruence]|].
  cbn [forallb]. intros H. apply andb_true_iff in H as [Hl Hls].
  destruct (cleanLine_parts l Hl) as (_ & _ & Hd & He & Hne).
  destruct (cleanEnds_heads l Hne He) as [Hh Hr].
  destruct ls as [|l' ls]; [cbn [join]; now repeat split|].
  destruct (IH Hls) as [IH1 IH2]. destruct IH2 as [IH2 IH3]; [discriminate|].
  rewrite join_more. split; [|intros _; split].
  - apply noDoubleSpace_app; trivial. now apply noDoubleSpace_bar.
  - now rewrite headOk_app.
  - rewrite !rev_app_distr, <- app_assoc. rewrite headOk_app; [exact IH3|].
    intros E. rewrite E in IH3. discriminate.
Qed.

Lemma okLine_plain (lines : list text) :
  forallb (fun l => noLF l && (blankLine l || cleanLine l)) lines = true ->
  forallb plain lines = true /\
  forallb (forallb (fun c => negb (isBlock c))) lines = true /\
  forallb noLF lines = true.
Proof.
  induction lines as [|l ls IH]; [now repeat split|]. cbn [forallb].
  intros H. apply andb_true_iff in H as [Hl Hls].
  destruct (IH Hls) as (H1 & H2 & H3). rewrite H1, H2, H3.
  apply andb_true_iff in Hl as [Hlf Hl]. rewrite Hlf.
  apply orb_true_iff in Hl as [Hl | Hl].
  - now rewrite (space_plain l Hl), (space_no_block l Hl).
  - destruct (cleanLine_parts l Hl) as (Hp & Hb & _). now rewrite Hp, Hb.
Qed.

Lemma blank_not_clean (l : text) : cleanLine l = true -> blankLine l = false.
Proof.
  intros H. destruct (cleanLine_parts l H) as (_ & _ & _ & He & Hne).
  destruct (cleanEnds_heads l Hne He) as [Hh _].
  destruct l as [|c l]; [congruence|]. cbn [headOk] in Hh.
  apply negb_true_iff in Hh. cbn [blankLine forallb]. now rewrite Hh.
Qed.

Lemma filter_lines (lines : list text) :
  forallb (fun l => noLF l && (blankLine l || cleanLine l)) lines = true ->
  filter (fun line => 0 <? List.length (trim line)) lines
  = filter (fun l => negb (blankLine l)) lines /\
  forallb cleanLine (filter (fun l => negb (blankLine l)) lines) = true.
Proof.
  induction lines as [|l ls IH]; [now split|]. cbn [forallb filter].
  intros H. apply andb_true_iff in H as [Hl Hls].
  destruct (IH Hls) as [IH1 IH2]. rewrite IH1.
  apply andb_true_iff in Hl as [_ Hl].
  destruct (blankLine l) eqn:Hb.
  - unfold blankLine in Hb. rewrite (hud_trim_blank l Hb). now split.
  - cbn [orb] in Hl. destruct (cleanLine_parts l Hl) as (_ & _ & _ & He & Hne).
    rewrite (hud_trim_id l He). destruct l as [|c l]; [congruence|].
    cbn [List.length Nat.ltb Nat.leb negb forallb]. rewrite Hl, IH2. now split.
Qed.

End SanitizeLines.

(** X19: lines that need no cleaning, with or without blank lines among
    them, come out joined by " | ": when every line of the input is free of
    newlines and is either white space only or clean (no escape character,
    no block character, no double white space, no white space at its ends,
    not empty), sanitizeOutput returns the clean lines in their order with
    " | " between them. *)
Theorem sanitizeOutput_lines (lines : list Hud.text) :
  forallb (fun l => Hud.noLF l && (Hud.blankLine l || Hud.cleanLine l)) lines = true ->
  Hud.sanitizeOutput (Hud.join [Hud.LF] lines)
  = Hud.join [32; 124; 32]%N (filter (fun l => negb (Hud.blankLine l)) lines).
Proof.
  intros H. destruct (okLine_plain lines H) as (Hplain & Hblock & Hlf).
  destruct (filter_lines lines H) as [Hfilter Hclean].
  unfold Hud.sanitizeOutput. cbv zeta.
  rewrite stripAnsi_plain by (apply forallb_join; [reflexivity | exact Hplain]).
  rewrite replaceUnicodeBlocks_map.
  assert (Hmap : map Hud.blockToAscii (Hud.join [Hud.LF] lines) = Hud.join [Hud.LF] lines).
  { assert (Hb : forallb (fun c => negb (Hud.isBlock c)) (Hud.join [Hud.LF] lines) = true)
      by (apply forallb_join; [reflexivity | exact Hblock]).
    revert Hb. generalize (Hud.join [Hud.LF] lines). intros t Hb.
    induction t as [|c t IH]; [reflexivity|]. cbn [map forallb] in *.
    apply andb_true_iff in Hb as [Hc Hb]. apply negb_true_iff in Hc.
    now rewrite (blockToAscii_keeps c Hc), (IH Hb). }
  rewrite Hmap.
  destruct lines as [|l0 ls0]; [reflexivity|].
  rewrite split_join by (discriminate || exact Hlf).
  rewrite Hfilter.
  set (ls := filter (fun l => negb (Hud.blankLine l)) (l0 :: ls0)) in *.
  destruct (join_clean ls Hclean) as [Hd Hheads].
  assert (Hjoined :
            (if 1 <? List.length ls then Hud.join [32; 124; 32]%N ls
             else match nth_error ls 0 with
                  | Some (c :: l) => c :: l
                  | _ => []
                  end) = Hud.join [32; 124; 32]%N ls).
  { destruct ls as [|l [|l' ls']]; [reflexivity | | reflexivity].
    cbn [List.length Nat.ltb Nat.leb nth_error Hud.join].
    cbn [forallb] in Hclean. apply andb_true_iff in Hclean as [Hl _].
    destruct (cleanLine_parts l Hl) as (_ & _ & _ & _ & Hne).
    now destruct l. }
  rewrite Hjoined. change [32; 124; 32]%N with Hud.bar.
  change (Hud.replaceAll (Hud.AtLeast 2 Hud.isSpace) [32%N] (Hud.join Hud.bar ls))
    with (Hud.collapse (Hud.join Hud.bar ls)).
  rewrite (collapse_id _ Hd). apply hud_trim_id.
  destruct ls as [|l ls']; [reflexivity|].
  destruct Hheads as [Hh Hr]; [discriminate|]. now apply heads_cleanEnds.
Qed.

Lemma sanitizeOutput_lines_witness :
  Hud.sanitizeOutput (Hud.join [Hud.LF] [[65; 32; 49]; [32]; [66]]%N)
  = Hud.join [32; 124; 32]%N
             (filter (fun l => negb (Hud.blankLine l)) [[65; 32; 49]; [32]; [66]]%N).
Proof.
  apply (sanitizeOutput_lines [[65; 32; 49]; [32]; [66]]%N). reflexivity.
Defined.

(* ================================================================== *)
(** * The tiers of viewPR on the data they receive *)

Section GiteaData.
Import Gitea.

Lemma optProp_value (v : value) (name : str) (log : list event) :
  optProp v name log = (Return (getOpt v name), log).
Proof. destruct v as [[]|]; reflexivity. Qed.

Lemma orElse_value (a b : value) (log : list event) :
  orElse a (fun l => (Return b, l)) log = (Return (coalesce a b), log).
Proof. unfold orElse, coalesce, ret. now destruct (nullish a). Qed.

Lemma teaPR_object (w : World) (n : number) (raw : str)
      (fields : list (str * json)) :
  subprocess w (L "tea") [L "pr"; L "view"; String_ w n] = Some raw ->
  JSON_parse w raw = Some (JObj fields) ->
  yields (teaPR w n) (teaPRInfo fields).
Proof.
  intros Hraw Hdata log. rewrite (teaPR_data w n raw _ Hraw Hdata).
  cbn [prop]. unfold bind, ret. now rewrite optProp_value.
Qed.

Lemma curlPR_object (w : World) (n : number) (baseUrl owner repo raw : str)
      (fields : list (str * json)) :
  subprocess w (L "curl") (curlPRArgs w n baseUrl owner repo) = Some raw ->
  JSON_parse w raw = Some (JObj fields) ->
  yields (curlPR w n baseUrl owner repo) (curlPRInfo fields).
Proof.
  intros Hraw Hdata log. unfold curlPRArgs in Hraw.
  unfold curlPR. cbv zeta. unfold bind, execFileSync, parse.
  rewrite Hraw. cbn beta iota. rewrite Hdata. cbn [prop]. unfold ret.
  cbn beta iota. rewrite optProp_value. cbn beta iota.
  rewrite orElse_value. cbn beta iota.
  rewrite optProp_value. cbn beta iota.
  rewrite orElse_value. cbn beta iota.
  rewrite optProp_value. reflexivity.
Qed.

End GiteaData.

Section GiteaTierFailure.
Import Gitea.

Lemma curlPR_primitive (w : World) (n : number) (baseUrl owner repo raw : str)
      (data : json) :
  subprocess w (L "curl") (curlPRArgs w n baseUrl owner repo) = Some raw ->
  JSON_parse w raw = Some data -> primitive data = true ->
  yields (curlPR w n baseUrl owner repo) blankPR.
Proof.
  intros Hraw Hdata Hprim log. unfold curlPRArgs in Hraw.
  unfold curlPR. cbv zeta. unfold bind, execFileSync, parse.
  rewrite Hraw. cbn beta iota. rewrite Hdata.
  destruct data; try discriminate; reflexivity.
Qed.

Lemma teaPR_primitive (w : World) (n : number) (raw : str) (data : json) :
  subprocess w (L "tea") [L "pr"; L "view"; String_ w n] = Some raw ->
  JSON_parse w raw = Some data -> primitive data = true ->
  yields (teaPR w n) blankPR.
Proof.
  intros Hraw Hdata Hprim log. rewrite (teaPR_data w n raw data Hraw Hdata).
  destruct data; try discriminate; reflexivity.
Qed.

Lemma data_cases (data : json) :
  data = JNull \/ primitive data = true \/ exists fields, data = JObj fields.
Proof. destruct data; auto. right. right. now eexists. Qed.

End GiteaTierFailure.

(** X23: when a tier of viewPR counts as failed.  The CLI tier fails exactly
    when tea fails, or prints text that is no JSON, or prints JSON null; the
    REST tier fails exactly when curl fails, or prints text that is no JSON,
    or prints JSON null.  Any other output, an error object of the server
    included, is turned into a result. *)
Theorem gitea_pr_tier_fails_iff (w : Gitea.World) (n : Gitea.number)
        (baseUrl owner repo : str) :
  (Gitea.fails (Gitea.teaPR w n) <->
   match Gitea.subprocess w (L "tea") [L "pr"; L "view"; Gitea.String_ w n] with
   | None => True
   | Some raw => Gitea.JSON_parse w raw = None \/
                 Gitea.JSON_parse w raw = Some Gitea.JNull
   end) /\
  (Gitea.fails (Gitea.curlPR w n baseUrl owner repo) <->
   match Gitea.subprocess w (L "curl") (Gitea.curlPRArgs w n baseUrl owner repo) with
   | None => True
   | Some raw => Gitea.JSON_parse w raw = None \/
                 Gitea.JSON_parse w raw = Some Gitea.JNull
   end).
Proof.
  split.
  - destruct (Gitea.subprocess w (L "tea") [L "pr"; L "view"; Gitea.String_ w n])
      as [raw|] eqn:Hraw.
    + destruct (Gitea.JSON_parse w raw) as [data|] eqn:Hdata.
      * destruct (data_cases data) as [-> | [Hprim | [fields ->]]].
        -- split; [now right|]. intros _ log.
           now rewrite (teaPR_data w n raw _ Hraw Hdata).
        -- split; [|intros [H | H]; [discriminate | injection H as ->; discriminate]].
           intros H. specialize (H []).
           rewrite (teaPR_primitive w n raw data Hraw Hdata Hprim []) in H.
           discriminate.
        -- split; [|intros [H | H]; discriminate].
           intros H. specialize (H []).
           rewrite (teaPR_object w n raw fields Hraw Hdata []) in H. discriminate.
      * split; [now left|]. intros _ log.
        unfold Gitea.teaPR. unfold Gitea.bind at 1. unfold Gitea.execFileSync.
        rewrite Hraw. unfold Gitea.bind at 1. unfold Gitea.parse. now rewrite Hdata.
    + split; [trivial|]. intros _ log.
      unfold Gitea.teaPR. unfold Gitea.bind at 1. unfold Gitea.execFileSync.
      now rewrite Hraw.
  - destruct (Gitea.subprocess w (L "curl") (Gitea.curlPRArgs w n baseUrl owner repo))
      as [raw|] eqn:Hraw.
    + destruct (Gitea.JSON_parse w raw) as [data|] eqn:Hdata.
      * destruct (data_cases data) as [-> | [Hprim | [fields ->]]].
        -- split; [now right|]. intros _ log. unfold Gitea.curlPRArgs in Hraw.
           unfold Gitea.curlPR. cbv zeta.
           unfold Gitea.bind, Gitea.execFileSync, Gitea.parse.
           rewrite Hraw. cbn beta iota. now rewrite Hdata.
        -- split; [|intros [H | H]; [discriminate | injection H as ->; discriminate]].
           intros H. specialize (H []).
           rewrite (curlPR_primitive w n baseUrl owner repo raw data Hraw Hdata Hprim [])
             in H.
           discriminate.
        -- split; [|intros [H | H]; discriminate].
           intros H. specialize (H []).
           rewrite (curlPR_object w n baseUrl owner repo raw fields Hraw Hdata []) in H.
           discriminate.
      * split; [now left|]. intros _ log. unfold Gitea.curlPRArgs in Hraw.
        unfold Gitea.curlPR. cbv zeta.
        unfold Gitea.bind, Gitea.execFileSync, Gitea.parse.
        rewrite Hraw. cbn beta iota. now rewrite Hdata.
    + split; [trivial|]. intros _ log. unfold Gitea.curlPRArgs in Hraw.
      unfold Gitea.curlPR. cbv zeta. unfold Gitea.bind, Gitea.execFileSync.
      now rewrite Hraw.
Qed.

Lemma gitea_pr_tier_fails_iff_witness :
  Gitea.fails (Gitea.teaPR Gitea.deadWorld (Gitea.Fin 7)).
Proof.
  apply (proj1 (gitea_pr_tier_fails_iff Gitea.deadWorld (Gitea.Fin 7) [] [] [])).
  exact I.
Defined.

(** X24: how the two tiers of viewPR fill the record from a JSON object.
    The CLI tier copies title, head_branch, base_branch, html_url and body
    and reads the author from user.login; the REST tier does the same but
    takes the head and base branch from head.ref and base.ref, falling back
    to head_branch and base_branch when the ref is missing or null.  A field
    the object lacks is undefined; neither tier fails on an object. *)
Theorem gitea_pr_field_mapping (w : Gitea.World) (n : Gitea.number)
        (baseUrl owner repo raw : str) (fields : list (str * Gitea.json)) :
  Gitea.JSON_parse w raw = Some (Gitea.JObj fields) ->
  (Gitea.subprocess w (L "tea") [L "pr"; L "view"; Gitea.String_ w n] = Some raw ->
   Gitea.yields (Gitea.teaPR w n) (Gitea.teaPRInfo fields)) /\
  (Gitea.subprocess w (L "curl") (Gitea.curlPRArgs w n baseUrl owner repo) = Some raw ->
   Gitea.yields (Gitea.curlPR w n baseUrl owner repo) (Gitea.curlPRInfo fields)).
Proof.
  intros Hdata. split; intros Hraw.
  - now apply (teaPR_object w n raw).
  - now apply (curlPR_object w n baseUrl owner repo raw).
Qed.

Lemma gitea_pr_field_mapping_witness :
  Gitea.yields (Gitea.curlPR Gitea.refWorld (Gitea.Fin 7)
                             (L "https://git.example.com") (L "o") (L "r"))
    {| Gitea.title := None;
       Gitea.headBranch := Some (Gitea.JStr (L "feature"));
       Gitea.baseBranch := None;
       Gitea.url := None; Gitea.body := None; Gitea.author := None |}.
Proof.
  exact (proj2 (gitea_pr_field_mapping Gitea.refWorld (Gitea.Fin 7)
                  (L "https://git.example.com") (L "o") (L "r") (L "{}") _ eq_refl)
               eq_refl).
Defined.

(* ================================================================== *)
(** * The registry: one instance for each name *)

(** X22: in the reachable states a name always resolves to the same
    instance, whenever it is asked for, and two different names never
    resolve to the same instance. *)
Theorem getProvider_instances (st1 st2 : Registry.state) (n1 n2 : ProviderName)
        (a b : Registry.GitProvider) :
  Registry.reachable st1 -> Registry.reachable st2 ->
  fst (Registry.getProvider n1 st1) = Some a ->
  fst (Registry.getProvider n2 st2) = Some b ->
  (n1 = n2 -> a = b) /\ (n1 <> n2 -> Registry.ident a <> Registry.ident b).
Proof.
  intros H1 H2.
  destruct (reachable_cases st1 H1) as [-> | ->];
    destruct (reachable_cases st2 H2) as [-> | ->];
    destruct n1, n2; cbn; intros Ha Hb;
    try discriminate; injection Ha as <-; injection Hb as <-;
    (split; [reflexivity || intros; discriminate
            | intros Hn; cbn; first [congruence | discriminate]]).
Qed.

Lemma getProvider_instances_witness :
  Registry.ident {| Registry.ident := 4; Registry.class := Registry.GiteaProvider |}
  <> Registry.ident {| Registry.ident := 5; Registry.class := Registry.GiteaProvider |}.
Proof.
  apply (proj2 (getProvider_instances Registry.initial Registry.built gitea forgejo
                  _ _ Registry.reach_initial
                  (Registry.reach_call Registry.initial github Registry.reach_initial)
                  eq_refl eq_refl)).
  discriminate.
Defined.

(* ================================================================== *)
(** * Nested owner paths and the colon of the SCP-style pattern *)

Section SchemeSkips.

Lemma sshRe_after_scheme (rest : str) :
  matchRe sshRe (L "ssh://" ++ rest) = matchRe sshRe rest.
Proof.
  cbn [L list_ascii_of_string app].
  now do 6 (rewrite matchRe_skip by reflexivity).
Qed.

Lemma sshRe_run (h : str) (segs : list str) (seg : str) :
  h <> [] -> forallb notColon h = true -> nestedPath segs seg = true ->
  m sshRe accept (L "git@" ++ h ++ L ":" ++ join segs ++ L "/" ++ seg) noCaps
  = Some (setCap 3 (stripGit seg) (setCap 2 (join segs) (setCap 1 h noCaps))).
Proof.
  intros Hh Hp Hpath.
  change sshRe
    with (Seq (Lit (L "git@")) (Seq (Group 1 (Plus notColon)) (Seq (Lit (L ":"))
             (cat ([Group 2 (PlusLazy dot); Lit (L "/")] ++ repoTail))))).
  rewrite seq_lit_run. apply seq_group_plus_run; trivial; [reflexivity|].
  rewrite seq_lit_run. now apply ownerRepo_run.
Qed.

End SchemeSkips.

(** X20: nesting depth does not matter.  For a URL of one of the three
    generic forms, http(s)://host/path, git@host:path and
    ssh://git@host/path, whose path is one or more owner segments and a last
    segment, and on which no pattern tried earlier matches, parseRemoteUrl
    returns the host, the owner segments joined by slashes, and the last
    segment without one trailing .git. *)
Theorem parseRemoteUrl_nested_paths (h : str) (segs : list str) (seg t : str) :
  h <> [] -> nestedPath segs seg = true ->
  matchRe azureHttpsRe t = None -> matchRe azureSshRe t = None ->
  ((exists secure : bool,
       t = L "http" ++ (if secure then L "s" else []) ++ L "://" ++ h ++ L "/"
             ++ join segs ++ L "/" ++ seg) /\
   forallb notSlash h = true) \/
  (t = L "git@" ++ h ++ L ":" ++ join segs ++ L "/" ++ seg /\
   forallb notColon h = true /\ matchRe httpsRe t = None) \/
  (t = L "ssh://git@" ++ h ++ L "/" ++ join segs ++ L "/" ++ seg /\
   forallb notSlash h = true /\ matchRe httpsRe t = None /\ matchRe sshRe t = None) ->
  parseRemoteUrl t
  = Some {| provider := detectProvider t; host := h;
            owner := join segs; repo := stripGit seg |}.
Proof.
  intros Hh Hpath Ha1 Ha2 [[[secure Et] Hp] | [(Et & Hp & Ha3) | (Et & Hp & Ha3 & Ha4)]].
  - now apply (parseRemoteUrl_https_nested secure h segs seg t).
  - now apply (parseRemoteUrl_scp_nested h segs seg t).
  - now apply (parseRemoteUrl_sshUrl_nested h segs seg t).
Qed.

Lemma parseRemoteUrl_nested_paths_witness :
  parseRemoteUrl (L "git@gitlab.com:group/subgroup/repo.git")
  = Some {| provider := detectProvider (L "git@gitlab.com:group/subgroup/repo.git");
            host := L "gitlab.com"; owner := join [L "group"; L "subgroup"];
            repo := stripGit (L "repo.git") |}.
Proof.
  apply (parseRemoteUrl_nested_paths (L "gitlab.com") [L "group"; L "subgroup"]
           (L "repo.git") (L "git@gitlab.com:group/subgroup/repo.git"));
    try reflexivity; [discriminate|].
  right. left. repeat split; reflexivity.
Defined.

(** X21: the colon of an ssh:// URL.  When the host of an ssh:// URL is
    followed by a colon (a port), and no pattern tried before the SCP-style
    one matches, parseRemoteUrl answers through the SCP-style pattern: the
    host is the text before the colon, and the owner is everything between
    the colon and the last slash, the port included. *)
Theorem parseRemoteUrl_ssh_colon (h : str) (segs : list str) (seg t : str) :
  t = L "ssh://git@" ++ h ++ L ":" ++ join segs ++ L "/" ++ seg ->
  h <> [] -> forallb notColon h = true -> nestedPath segs seg = true ->
  matchRe azureHttpsRe t = None -> matchRe azureSshRe t = None ->
  matchRe httpsRe t = None ->
  parseRemoteUrl t
  = Some {| provider := detectProvider t; host := h;
            owner := join segs; repo := stripGit seg |}.
Proof.
  intros Et Hh Hp Hpath Ha1 Ha2 Ha3.
  assert (Hseg : repoSegment seg = true).
  { unfold nestedPath in Hpath. now apply andb_true_iff in Hpath as [_ Hpath]. }
  assert (Htrim : trim t = t).
  { subst t. rewrite !app_assoc. apply (trim_clean "s"%char); [reflexivity | exact Hseg]. }
  assert (Hm : matchRe sshRe t
               = Some (setCap 3 (stripGit seg) (setCap 2 (join segs) (setCap 1 h noCaps)))).
  { subst t.
    change (L "ssh://git@" ++ h ++ L ":" ++ join segs ++ L "/" ++ seg)
      with (L "ssh://" ++ L "git@" ++ h ++ L ":" ++ join segs ++ L "/" ++ seg).
    rewrite sshRe_after_scheme. apply matchRe_here. now apply sshRe_run. }
  unfold parseRemoteUrl. rewrite Htrim, Ha1, Ha2, Ha3, Hm. reflexivity.
Qed.

Lemma parseRemoteUrl_ssh_colon_witness :
  parseRemoteUrl (L "ssh://git@example.com:2222/group/repo.git")
  = Some {| provider := detectProvider (L "ssh://git@example.com:2222/group/repo.git");
            host := L "example.com"; owner := join [L "2222"; L "group"];
            repo := stripGit (L "repo.git") |}.
Proof.
  apply (parseRemoteUrl_ssh_colon (L "example.com") [L "2222"; L "group"]
           (L "repo.git") (L "ssh://git@example.com:2222/group/repo.git"));
    try reflexivity. discriminate.
Defined.
